(** * DoomRunner: the argument tokenizer, the run command and the list helpers

    A shallow embedding of

    - [splitCommandLineArguments] of Sources/Utils/MiscUtils.cpp,
    - [getExecutableTraits], [fixExePath], [isInSearchPath] and
      [getRunCommand] of Sources/Utils/OSUtils.cpp,
    - [deleteSelectedItems], [moveUpSelectedItem], [moveDownSelectedItem],
      the lookups by persistent identifier and [updateListFromDir] of
      Sources/Utils/WidgetUtils.hpp,

    and the properties the specification states of them. Part I holds the
    model, Part II the proofs. *)

From Stdlib Require Import List ZArith String Ascii Bool Lia.
From Stdlib Require Import Sorting Permutation Orders Mergesort.
Import ListNotations.
Open Scope string_scope.
Open Scope list_scope.

(** * Part I: the model *)

(** ** QString, as far as the sources use it

    A [QString] is modelled as a [string], a [QChar] as an [ascii]. *)
Module QString.

Definition QUOTE : ascii := "034"%char.
Definition BACKSLASH : ascii := "\"%char.
Definition SPACE : ascii := " "%char.
Definition SLASH : ascii := "/"%char.

(** The string made of one double-quote character. *)
Definition q : string := String QUOTE EmptyString.

(** [QString::isEmpty] *)
Definition isEmpty (s : string) : bool :=
  match s with EmptyString => true | String _ _ => false end.

(** [str += c] *)
Definition push_back (s : string) (c : ascii) : string := s ++ String c EmptyString.

(** [QString::back]: the last character; only asked of a non-empty string. *)
Fixpoint back (s : string) : option ascii :=
  match s with
  | EmptyString => None
  | String c EmptyString => Some c
  | String _ r => back r
  end.

(** [QString::contains] of a single character. *)
Fixpoint contains (s : string) (c : ascii) : bool :=
  match s with
  | EmptyString => false
  | String x r => Ascii.eqb x c || contains r c
  end.

End QString.

(** ** What the code reads from outside itself *)
Module Platform.

(** The platform and build macros, the process (its application directory,
    its search path) and the helpers of FileSystemUtils that wrap Qt's
    [QFileInfo] and [QDir] on the machine's file system. *)
Record Environment := mkEnvironment {
  isWindows : bool;
  FLATPAK_BUILD : bool;
  applicationDirPath : string;
  (** [QStandardPaths::findExecutable]: the full path of the named program
      on the search path, the empty string when there is none. *)
  findExecutable : string -> string;
  getFileNameFromPath : string -> string;
  getFileBasenameFromPath : string -> string;
  getAbsolutePath : string -> string;
  getAbsoluteDirOfFile : string -> string;
  (** [QDir::absoluteFilePath] and [QDir::relativeFilePath] of a base
      directory, on a path. *)
  absoluteFilePath : string -> string -> string;
  relativeFilePath : string -> string -> string
}.

End Platform.

(** ** Sources/Utils/FileSystemUtils.hpp: PathContext *)
Module FileSystemUtils.
Import QString Platform.

(** Modelled from the spec: [PathContext] (FileSystemUtils.hpp is not among
    the sources) is the base path context: a base directory and the
    absolute-paths toggle. *)
Record PathContext := mkPathContext {
  baseDir : string;
  useAbsolutePaths : bool
}.

(** Modelled from the spec: [PathContext::rebasePath], the path relative to
    or absolute from the base path context per the absolute-paths toggle. *)
Definition rebasePath (env : Environment) (base : PathContext) (path : string) : string :=
  if useAbsolutePaths base then absoluteFilePath env (baseDir base) path
  else relativeFilePath env (baseDir base) path.

(** Modelled from the spec: [PathContext::maybeQuoted], quoting if the path
    contains spaces. *)
Definition maybeQuoted (base : PathContext) (path : string) : string :=
  if contains path SPACE then String QUOTE (path ++ String QUOTE EmptyString)%string
  else path.

End FileSystemUtils.

(** ** Sources/Utils/OSUtils.cpp: getExecutableTraits, getRunCommand *)
Module OSUtils.
Import QString Platform FileSystemUtils.

(** [enum class Sandbox { None, Snap, Flatpak }] *)
Module Sandbox.
Inductive t := None | Snap | Flatpak.
End Sandbox.

Record ExecutableTraits := mkTraits {
  executableBaseName : string;
  sandboxEnv : Sandbox.t;
  sandboxAppName : string
}.

Record ShellCommand := mkShellCommand {
  executable : string;
  arguments : list string;
  extraPermissions : list string
}.

(** A match of the regular expression [^/snap/]. *)
Definition snapRegex_hasMatch (path : string) : bool := String.prefix "/snap/" path.

(** Removes a prefix, if the string starts with it. *)
Fixpoint stripPrefix (p s : string) : option string :=
  match p, s with
  | EmptyString, _ => Some s
  | String a p', String b s' => if Ascii.eqb a b then stripPrefix p' s' else None
  | String _ _, EmptyString => None
  end.

(** The longest run of characters other than [/] a string starts with, and
    what follows it. *)
Fixpoint spanNonSlash (s : string) : string * string :=
  match s with
  | EmptyString => (EmptyString, EmptyString)
  | String c r =>
      if Ascii.eqb c SLASH then (EmptyString, s)
      else let (name, tail) := spanNonSlash r in (String c name, tail)
  end.

(** A match of [^/var/lib/flatpak/app/([^/]+)/], as its first capture: the
    class [[^/]+] takes a non-empty run of characters other than [/], and a
    [/] has to follow it. *)
Definition flatpakRegex_captured1 (path : string) : option string :=
  match stripPrefix "/var/lib/flatpak/app/" path with
  | Some rest =>
      match spanNonSlash rest with
      | (EmptyString, _) => None
      | (name, String c _) => if Ascii.eqb c SLASH then Some name else None
      | (_, EmptyString) => None
      end
  | None => None
  end.

Section WithEnvironment.
Variable env : Environment.

Definition isInSearchPath (filePath : string) : bool :=
  String.eqb (findExecutable env (getFileNameFromPath env filePath)) filePath.

Definition getExecutableTraits (executablePath : string) : ExecutableTraits :=
  let executableBaseName := getFileBasenameFromPath env executablePath in
  if snapRegex_hasMatch executablePath then
    mkTraits executableBaseName Sandbox.Snap (getFileNameFromPath env executablePath)
  else
    match flatpakRegex_captured1 executablePath with
    | Some captured1 => mkTraits executableBaseName Sandbox.Flatpak captured1
    | None => mkTraits executableBaseName Sandbox.None EmptyString
    end.

Definition fixExePath (exePath : string) : string :=
  if negb (isWindows env) && negb (contains exePath SLASH) then ("./" ++ exePath)%string
  else exePath.

(** The [for] loop over [dirsToBeAccessed], on [cmdParts] and
    [cmd.extraPermissions]. *)
Fixpoint grantDirs (base : PathContext) (dirsToBeAccessed : list string)
    (cmdParts extraPermissions : list string) : list string * list string :=
  match dirsToBeAccessed with
  | [] => (cmdParts, extraPermissions)
  | dir :: rest =>
      let fileSystemPermission := ("--filesystem=" ++ getAbsolutePath env dir)%string in
      grantDirs base rest
        (cmdParts ++ [maybeQuoted base fileSystemPermission])
        (extraPermissions ++ [fileSystemPermission])
  end.

(** [QStringList::takeFirst]; the list is never empty where the source calls
    it, Qt asserts that. *)
Definition takeFirst (l : list string) : string * list string :=
  match l with
  | x :: r => (x, r)
  | [] => (EmptyString, [])
  end.

Definition getRunCommand (executablePath : string) (base : PathContext)
    (dirsToBeAccessed : list string) : ShellCommand :=
  let traits := getExecutableTraits executablePath in
  if FLATPAK_BUILD env
     && String.eqb (getAbsoluteDirOfFile env executablePath) (applicationDirPath env)
  then
    mkShellCommand (getFileNameFromPath env executablePath) [] []
  else
    let cmdParts := if FLATPAK_BUILD env then ["flatpak-spawn"; "--host"] else [] in
    let (cmdParts, extraPermissions) :=
      match sandboxEnv traits with
      | Sandbox.Snap =>
          (cmdParts ++ ["snap"] ++ ["run"] ++ [sandboxAppName traits], [])
      | Sandbox.Flatpak =>
          let (cmdParts, extraPermissions) :=
            grantDirs base dirsToBeAccessed (cmdParts ++ ["flatpak"] ++ ["run"]) [] in
          (cmdParts ++ [sandboxAppName traits], extraPermissions)
      | Sandbox.None =>
          if isInSearchPath executablePath then
            (cmdParts ++ [getFileNameFromPath env executablePath], [])
          else
            (cmdParts ++ [maybeQuoted base (fixExePath (rebasePath env base executablePath))], [])
      end in
    let (first, rest) := takeFirst cmdParts in
    mkShellCommand first rest extraPermissions.

End WithEnvironment.

(** *** A concrete environment for the examples *)

(** The part of a path after its last [/]. *)
Fixpoint fileNameOf (path : string) : string :=
  match path with
  | EmptyString => EmptyString
  | String c r => if contains r SLASH then fileNameOf r
                  else if Ascii.eqb c SLASH then r else path
  end.

(** The part of a path before its last [/]. *)
Fixpoint dirOf (path : string) : string :=
  match path with
  | EmptyString => EmptyString
  | String c r => if contains r SLASH then String c (dirOf r) else EmptyString
  end.

(** The part of a file name before its first dot. *)
Fixpoint upToDot (name : string) : string :=
  match name with
  | EmptyString => EmptyString
  | String c r => if Ascii.eqb c "."%char then EmptyString else String c (upToDot r)
  end.

(** A Linux machine whose search path holds /usr/bin/gzdoom only, whose
    paths are all absolute already and where a path is made relative only
    below the base directory; [flatpakBuild] is the build macro and [appDir]
    the directory of the launcher. *)
Definition linuxEnv (flatpakBuild : bool) (appDir : string) : Environment :=
  mkEnvironment false flatpakBuild appDir
    (fun name => if String.eqb name "gzdoom" then "/usr/bin/gzdoom" else EmptyString)
    fileNameOf
    (fun path => upToDot (fileNameOf path))
    (fun path => path)
    dirOf
    (fun base path => path)
    (fun base path =>
       match stripPrefix (base ++ "/")%string path with Some rel => rel | None => path end).

End OSUtils.

(** ** Sources/Utils/MiscUtils.cpp: splitCommandLineArguments *)
Module MiscUtils.
Import QString.

(** [struct Argument { QString str; bool wasQuoted; }] *)
Record Argument := mkArgument { str : string; wasQuoted : bool }.

(** The local variables of the loop. *)
Record LoopState := mkLoop {
  args : list Argument;
  currentArg : string;
  escaped : bool;
  inQuotes : bool
}.

Definition initial : LoopState := mkLoop [] EmptyString false false.

(** One iteration of the [for] loop, on [currentChar]. *)
Definition step (st : LoopState) (currentChar : ascii) : LoopState :=
  if escaped st then
    mkLoop (args st) (push_back (currentArg st) currentChar) false (inQuotes st)
  else if inQuotes st then
    if Ascii.eqb currentChar BACKSLASH then
      mkLoop (args st) (currentArg st) true true
    else if Ascii.eqb currentChar QUOTE then
      mkLoop (args st ++ [mkArgument (currentArg st) true]) EmptyString false false
    else
      mkLoop (args st) (push_back (currentArg st) currentChar) false true
  else
    if Ascii.eqb currentChar BACKSLASH then
      mkLoop (args st) (currentArg st) true false
    else if Ascii.eqb currentChar QUOTE then
      if negb (isEmpty (currentArg st)) then
        mkLoop (args st ++ [mkArgument (currentArg st) false]) EmptyString false true
      else
        mkLoop (args st) (currentArg st) false true
    else if Ascii.eqb currentChar SPACE then
      if negb (isEmpty (currentArg st)) then
        mkLoop (args st ++ [mkArgument (currentArg st) false]) EmptyString false false
      else
        mkLoop (args st) (currentArg st) false false
    else
      mkLoop (args st) (push_back (currentArg st) currentChar) false false.

(** The whole loop, from position 0 to [argsStr.size()]. *)
Fixpoint run (st : LoopState) (argsStr : string) : LoopState :=
  match argsStr with
  | EmptyString => st
  | String c rest => run (step st c) rest
  end.

(** [argsStr.back()] differs from the double-quote character. *)
Definition backIsNotQuote (argsStr : string) : bool :=
  match back argsStr with
  | Some c => negb (Ascii.eqb c QUOTE)
  | None => true
  end.

(** The code after the loop: the pending text, if any, is the last argument. *)
Definition finish (argsStr : string) (st : LoopState) : list Argument :=
  if negb (isEmpty (currentArg st)) then
    args st ++ [mkArgument (currentArg st) (inQuotes st && backIsNotQuote argsStr)]
  else
    args st.

Definition splitCommandLineArguments (argsStr : string) : list Argument :=
  finish argsStr (run initial argsStr).

(** The input of the tokenizer example of the specification: foo, a quoted
    bar baz, then qux, backslash, quote, x. *)
Definition example_input : string := "foo " ++ q ++ "bar baz" ++ q ++ " qux\" ++ q ++ "x".

End MiscUtils.

(** ** The C++ and Qt containers the list helpers work on *)
Module Containers.

Open Scope Z_scope.

(** [int] and [uint] are 32 bits wide; a value converted to one of them
    wraps around. *)
Definition to_uint (z : Z) : Z := z mod 2 ^ 32.
Definition to_int (z : Z) : Z := (z + 2 ^ 31) mod 2 ^ 32 - 2 ^ 31.
Definition INT_MAX : Z := 2 ^ 31 - 1.

(** Ascending order on rows, for [std::sort] with the comparator
    [idx1 < idx2]. *)
Module RowOrder <: TotalLeBool.
Definition t := Z.
Definition leb (x y : Z) : bool := x <=? y.
Theorem leb_total : forall a1 a2, leb a1 a2 = true \/ leb a2 a1 = true.
Proof. intros a1 a2. unfold leb. lia. Qed.
End RowOrder.

Module RowSort := Sort RowOrder.

(** Descending order on rows, for [std::sort] with the comparator
    [idx1 > idx2]. *)
Module RowOrderDesc <: TotalLeBool.
Definition t := Z.
Definition leb (x y : Z) : bool := y <=? x.
Theorem leb_total_desc : forall a1 a2, leb a1 a2 = true \/ leb a2 a1 = true.
Proof. intros a1 a2. unfold leb. lia. Qed.
Definition leb_total := leb_total_desc.
End RowOrderDesc.

Module RowSortDesc := Sort RowOrderDesc.

(** The order of [QString], for [std::sort] on identifiers. *)
Module IDOrder <: TotalLeBool.
Definition t := string.
Definition leb (x y : string) : bool := String.leb x y.
Theorem leb_total_id : forall a1 a2, leb a1 a2 = true \/ leb a2 a1 = true.
Proof. intros a1 a2. apply String.leb_total. Qed.
Definition leb_total := leb_total_id.
End IDOrder.

Module IDSort := Sort IDOrder.

Section QList.
Context {T : Type}.

(** [QList::size], an [int]. *)
Definition size (l : list T) : Z := Z.of_nat (List.length l).

Definition isEmpty (l : list T) : bool :=
  match l with [] => true | _ :: _ => false end.

(** [QList::operator[]]; Qt asserts that the index is in range, here an index
    out of range has no item. *)
Fixpoint at_ (l : list T) (i : Z) : option T :=
  match l with
  | [] => None
  | x :: r => if i =? 0 then Some x else at_ r (i - 1)
  end.

(** [QList::removeAt]: an index out of range removes nothing. *)
Fixpoint removeAt (l : list T) (i : Z) : list T :=
  match l with
  | [] => []
  | x :: r => if i =? 0 then r else x :: removeAt r (i - 1)
  end.

(** [QList::insert]: an index of 0 or less prepends, one of [size()] or more
    appends. *)
Fixpoint insert (l : list T) (i : Z) (value : T) : list T :=
  if i <=? 0 then value :: l
  else match l with
       | [] => [value]
       | x :: r => x :: insert r (i - 1) value
       end.

(** [QList::move]: takes the item at [from] out and inserts it at [to]; Qt
    asserts that both are in range, here a [from] out of range moves nothing. *)
Definition move (l : list T) (from to : Z) : list T :=
  match at_ l from with
  | Some item => insert (removeAt l from) to item
  | None => l
  end.

(** [findSuch] of LangUtils.hpp: the index of the first element the
    predicate holds for, -1 if there is none; [i] is the index of the head. *)
Fixpoint findSuchFrom (i : Z) (l : list T) (isSuch : T -> bool) : Z :=
  match l with
  | [] => -1
  | x :: r => if isSuch x then i else findSuchFrom (i + 1) r isSuch
  end.

Definition findSuch (l : list T) (isSuch : T -> bool) : Z := findSuchFrom 0 l isSuch.

(** [list[ i ] = value]; Qt asserts that the index is in range, here an
    index out of range replaces nothing. *)
Fixpoint replaceAt (l : list T) (i : Z) (value : T) : list T :=
  match l with
  | [] => []
  | x :: r => if i =? 0 then value :: r else x :: replaceAt r (i - 1) value
  end.

End QList.

Arguments size : simpl never.

End Containers.

(** ** Sources/Utils/WidgetUtils.hpp *)
Module WidgetUtils.
Import Containers.
Open Scope Z_scope.

(** The state of a [QListView] the helpers read and write: the rows of its
    selection model in the order the user selected them, the row of the
    current index (-1 when it is invalid), the value of the vertical scroll
    bar, and the message boxes shown on its parent widget so far. *)
Record QListView := mkView {
  selectedRows : list Z;
  currentRow : Z;
  scrollBarValue : Z;
  messageBoxes : list string
}.

(** *** List view helpers (declared in the header, defined in WidgetUtils.cpp) *)

(** Modelled from the spec: the row of the current item, -1 if unset
    (WidgetUtils.cpp is not among the sources). *)
Definition getCurrentItemIndex (view : QListView) : Z := currentRow view.

(** Modelled from the spec: makes the item at a row the current one. *)
Definition setCurrentItemByIndex (view : QListView) (index : Z) : QListView :=
  mkView (selectedRows view) index (scrollBarValue view) (messageBoxes view).

(** Modelled from the spec: leaves the current item unset. *)
Definition unsetCurrentItem (view : QListView) : QListView :=
  mkView (selectedRows view) (-1) (scrollBarValue view) (messageBoxes view).

(** Modelled from the spec: the rows of the selected items. *)
Definition getSelectedItemIndexes (view : QListView) : list Z := selectedRows view.

Definition isSelectedIndex (view : QListView) (index : Z) : bool :=
  existsb (Z.eqb index) (selectedRows view).

(** Modelled from the spec: adds a row to the selection. *)
Definition selectItemByIndex (view : QListView) (index : Z) : QListView :=
  if isSelectedIndex view index then view
  else mkView (selectedRows view ++ [index]) (currentRow view)
              (scrollBarValue view) (messageBoxes view).

(** Modelled from the spec: takes a row out of the selection. *)
Definition deselectItemByIndex (view : QListView) (index : Z) : QListView :=
  mkView (filter (fun row => negb (row =? index)) (selectedRows view))
         (currentRow view) (scrollBarValue view) (messageBoxes view).

Definition selectAndSetCurrentByIndex (view : QListView) (index : Z) : QListView :=
  setCurrentItemByIndex (selectItemByIndex view index) index.

Definition deselectAllAndUnsetCurrent (view : QListView) : QListView :=
  mkView [] (-1) (scrollBarValue view) (messageBoxes view).

(** [QMessageBox::warning] and [QMessageBox::critical] on the parent widget. *)
Definition messageBox (view : QListView) (title : string) : QListView :=
  mkView (selectedRows view) (currentRow view) (scrollBarValue view)
         (messageBoxes view ++ [title]).

(** Modelled from the spec: the row of the selected item in single-selection
    mode, -1 if nothing is selected; the header says of it: assumes a
    single-selection mode, will throw a message box error otherwise. *)
Definition getSelectedItemIndex (view : QListView) : Z * QListView :=
  match selectedRows view with
  | [] => (-1, view)
  | [row] => (row, view)
  | _ :: _ :: _ => (-1, messageBox view "Multiple items selected")
  end.

Section Buttons.
Context {Item : Type}.

(** The body of the loop that deletes the selected items; [deletedCnt] is a
    [uint], so the subtraction is done on [uint] and converted back to the
    [int] that [removeAt] takes. *)
Fixpoint deleteLoop (selectedIndexesAsc : list Z) (deletedCnt : Z)
    (model : list Item) : list Item :=
  match selectedIndexesAsc with
  | [] => model
  | selectedIdx :: rest =>
      deleteLoop rest (to_uint (deletedCnt + 1))
        (removeAt model (to_int (to_uint (to_uint selectedIdx - deletedCnt))))
  end.

Definition deleteSelectedItems (view : QListView) (model : list Item)
    : list Z * (QListView * list Item) :=
  let selectedIndexes := selectedRows view in
  if isEmpty selectedIndexes then
    ([], (if negb (isEmpty model) then messageBox view "No item selected" else view, model))
  else
    let selectedIndexesAsc := RowSort.sort selectedIndexes in
    let firstSelectedIdx := hd 0 selectedIndexesAsc in
    let view := deselectAllAndUnsetCurrent view in
    let model := deleteLoop selectedIndexesAsc 0 model in
    let view :=
      if firstSelectedIdx <? size model then
        selectAndSetCurrentByIndex view firstSelectedIdx
      else if negb (isEmpty model) then
        selectAndSetCurrentByIndex view (firstSelectedIdx - 1)
      else view in
    (selectedIndexesAsc, (view, model)).

Definition moveUpSelectedItem (view : QListView) (model : list Item)
    : Z * (QListView * list Item) :=
  let (selectedIdx, view) := getSelectedItemIndex view in
  if selectedIdx <? 0 then
    (-1, (messageBox view "No item selected", model))
  else if selectedIdx =? 0 then
    (selectedIdx, (view, model))
  else
    let currentIdx := getCurrentItemIndex view in
    let view := unsetCurrentItem view in
    let view := deselectItemByIndex view selectedIdx in
    let model := move model selectedIdx (selectedIdx - 1) in
    let view := selectAndSetCurrentByIndex view (selectedIdx - 1) in
    let view :=
      if currentIdx >=? 1 then setCurrentItemByIndex view (currentIdx - 1)
      else setCurrentItemByIndex view 0 in
    (selectedIdx, (view, model)).

Definition moveDownSelectedItem (view : QListView) (model : list Item)
    : Z * (QListView * list Item) :=
  let (selectedIdx, view) := getSelectedItemIndex view in
  if selectedIdx <? 0 then
    (-1, (messageBox view "No item selected", model))
  else if selectedIdx =? size model - 1 then
    (selectedIdx, (view, model))
  else
    let currentIdx := getCurrentItemIndex view in
    let view := unsetCurrentItem view in
    let view := deselectItemByIndex view selectedIdx in
    let model := move model selectedIdx (selectedIdx + 1) in
    let view := selectAndSetCurrentByIndex view (selectedIdx + 1) in
    let view :=
      if currentIdx <? size model - 1 then setCurrentItemByIndex view (currentIdx + 1)
      else setCurrentItemByIndex view (size model - 1) in
    (selectedIdx, (view, model)).

End Buttons.

Section CompleteUpdate.
Context {Item FileInfo : Type}.
(** [Item::getID], the persistent identifier of an item. *)
Variable getID : Item -> string.
(** The constructor [Item( file )]. *)
Variable makeItem : FileInfo -> Item.
(** [traverseDirectory] of FileSystemUtils, for files: the entries of a
    directory in the order it visits them. *)
Variable traverseDirectory : string -> bool -> FileSystemUtils.PathContext -> list FileInfo.

(** The lambda [item.getID() == itemID]. *)
Definition hasID (itemID : string) (item : Item) : bool := String.eqb (getID item) itemID.

(** [model[ index ].getID()] *)
Definition idAt (model : list Item) (index : Z) : string :=
  match at_ model index with
  | Some item => getID item
  | None => EmptyString
  end.

Definition getCurrentItemID (view : QListView) (model : list Item) : string :=
  let selectedItemIdx := getCurrentItemIndex view in
  if selectedItemIdx >=? 0 then idAt model selectedItemIdx else EmptyString.

Definition setCurrentItemByID (view : QListView) (model : list Item) (itemID : string)
    : bool * QListView :=
  if negb (String.eqb itemID EmptyString) then
    let newItemIdx := findSuch model (hasID itemID) in
    if newItemIdx >=? 0 then (true, setCurrentItemByIndex view newItemIdx)
    else (false, view)
  else (false, view).

Definition getSelectedItemIDs (view : QListView) (model : list Item) : list string :=
  map (idAt model) (getSelectedItemIndexes view).

Fixpoint selectItemsByIDs (view : QListView) (model : list Item) (itemIDs : list string)
    : QListView :=
  match itemIDs with
  | [] => view
  | itemID :: rest =>
      let newItemIdx := findSuch model (hasID itemID) in
      selectItemsByIDs
        (if newItemIdx >=? 0 then selectItemByIndex view newItemIdx else view)
        model rest
  end.

(** The visitor passed to [traverseDirectory], run over the entries. *)
Fixpoint appendDesired (model : list Item) (isDesiredFile : FileInfo -> bool)
    (entries : list FileInfo) : list Item :=
  match entries with
  | [] => model
  | file :: rest =>
      appendDesired (if isDesiredFile file then model ++ [makeItem file] else model)
                    isDesiredFile rest
  end.

Definition updateListFromDir (model : list Item) (view : QListView) (dir : string)
    (recursively : bool) (pathContext : FileSystemUtils.PathContext)
    (isDesiredFile : FileInfo -> bool) : QListView * list Item :=
  let scrollPos := scrollBarValue view in
  let currentItemID := getCurrentItemID view model in
  let selectedItemIDs := getSelectedItemIDs view model in
  let view := deselectAllAndUnsetCurrent view in
  let model : list Item := [] in
  let model := appendDesired model isDesiredFile
                 (traverseDirectory dir recursively pathContext) in
  let view := selectItemsByIDs view model selectedItemIDs in
  let view := snd (setCurrentItemByID view model currentItemID) in
  let view := mkView (selectedRows view) (currentRow view) scrollPos (messageBoxes view) in
  (view, model).

End CompleteUpdate.

(** *** The other button actions *)
Section MoreButtons.
Context {Item : Type}.

Definition appendItem (view : QListView) (model : list Item) (item : Item)
    : QListView * list Item :=
  let view := deselectAllAndUnsetCurrent view in
  let model := model ++ [item] in
  (selectAndSetCurrentByIndex view (size model - 1), model).

Definition prependItem (view : QListView) (model : list Item) (item : Item)
    : QListView * list Item :=
  let view := deselectAllAndUnsetCurrent view in
  let model := item :: model in
  (selectAndSetCurrentByIndex view 0, model).

Definition insertItem (view : QListView) (model : list Item) (item : Item) (index : Z)
    : QListView * list Item :=
  let view := deselectAllAndUnsetCurrent view in
  let model := insert model index item in
  (selectAndSetCurrentByIndex view index, model).

Definition deleteSelectedItem (view : QListView) (model : list Item)
    : Z * (QListView * list Item) :=
  let (selectedIdx, view) := getSelectedItemIndex view in
  if selectedIdx <? 0 then
    (-1, (if negb (isEmpty model) then messageBox view "No item selected" else view, model))
  else
    let view := deselectAllAndUnsetCurrent view in
    let model := removeAt model selectedIdx in
    let view :=
      if selectedIdx <? size model then selectAndSetCurrentByIndex view selectedIdx
      else if selectedIdx >? 0 then selectAndSetCurrentByIndex view (selectedIdx - 1)
      else view in
    (selectedIdx, (view, model)).

(** [model.data( index, Qt::EditRole ).toString()] and
    [model.setData( index, value, Qt::EditRole )] read and write the name an
    item is edited by; they are methods of the list model (ListModel.hpp). *)
Variable getEditString : Item -> string.
Variable setEditString : Item -> string -> Item.

Definition cloneSelectedItem (view : QListView) (model : list Item)
    : Z * (QListView * list Item) :=
  let (selectedIdx, view) := getSelectedItemIndex view in
  if selectedIdx <? 0 then
    (-1, (messageBox view "No item selected", model))
  else
    let view := deselectAllAndUnsetCurrent view in
    let model :=
      match at_ model selectedIdx with
      | Some item => model ++ [item]
      | None => model
      end in
    let newItemIdx := size model - 1 in
    let model :=
      match at_ model newItemIdx with
      | Some item =>
          let origName := getEditString item in
          replaceAt model newItemIdx (setEditString item (origName ++ " - clone")%string)
      | None => model
      end in
    (selectedIdx, (selectAndSetCurrentByIndex view (size model - 1), model)).

(** The loop of [moveUpSelectedItems]: moves each item and selects its new
    row. *)
Fixpoint moveUpLoop (selectedIndexesAsc : list Z) (view : QListView) (model : list Item)
    : QListView * list Item :=
  match selectedIndexesAsc with
  | [] => (view, model)
  | selectedIdx :: rest =>
      moveUpLoop rest (selectItemByIndex view (selectedIdx - 1))
                 (move model selectedIdx (selectedIdx - 1))
  end.

Definition moveUpSelectedItems (view : QListView) (model : list Item)
    : list Z * (QListView * list Item) :=
  let selectedIndexes := selectedRows view in
  if isEmpty selectedIndexes then
    ([], (messageBox view "No item selected", model))
  else
    let selectedIndexesAsc := RowSort.sort selectedIndexes in
    if hd 0 selectedIndexesAsc =? 0 then
      ([], (view, model))
    else
      let currentIdx := getCurrentItemIndex view in
      let view := deselectAllAndUnsetCurrent view in
      let (view, model) := moveUpLoop selectedIndexesAsc view model in
      let view :=
        if currentIdx >=? 1 then setCurrentItemByIndex view (currentIdx - 1)
        else setCurrentItemByIndex view 0 in
      (selectedIndexesAsc, (view, model)).

(** The loop of [moveDownSelectedItems]. *)
Fixpoint moveDownLoop (selectedIndexesDesc : list Z) (view : QListView) (model : list Item)
    : QListView * list Item :=
  match selectedIndexesDesc with
  | [] => (view, model)
  | selectedIdx :: rest =>
      moveDownLoop rest (selectItemByIndex view (selectedIdx + 1))
                   (move model selectedIdx (selectedIdx + 1))
  end.

Definition moveDownSelectedItems (view : QListView) (model : list Item)
    : list Z * (QListView * list Item) :=
  let selectedIndexes := selectedRows view in
  if isEmpty selectedIndexes then
    ([], (messageBox view "No item selected", model))
  else
    let selectedIndexesDesc := RowSortDesc.sort selectedIndexes in
    if hd 0 selectedIndexesDesc =? size model - 1 then
      ([], (view, model))
    else
      let currentIdx := getCurrentItemIndex view in
      let view := deselectAllAndUnsetCurrent view in
      let (view, model) := moveDownLoop selectedIndexesDesc view model in
      let view :=
        if currentIdx <? size model - 1 then setCurrentItemByIndex view (currentIdx + 1)
        else setCurrentItemByIndex view (size model - 1) in
      (selectedIndexesDesc, (view, model)).

End MoreButtons.

(** *** The other helpers of the complete update *)
Section MoreCompleteUpdate.
Context {Item FileInfo : Type}.
Variable getID : Item -> string.

Definition getSelectedItemID (view : QListView) (model : list Item) : string * QListView :=
  let (selectedItemIdx, view) := getSelectedItemIndex view in
  (if selectedItemIdx >=? 0 then idAt getID model selectedItemIdx else EmptyString, view).

Definition selectItemByID (view : QListView) (model : list Item) (itemID : string)
    : bool * QListView :=
  if negb (String.eqb itemID EmptyString) then
    let newItemIdx := findSuch model (hasID getID itemID) in
    if newItemIdx >=? 0 then (true, selectItemByIndex view newItemIdx)
    else (false, view)
  else (false, view).

(** [orderedSelection1 == orderedSelection2] on two vectors of
    identifiers. *)
Fixpoint vectorsEqual (v1 v2 : list string) : bool :=
  match v1, v2 with
  | [], [] => true
  | x :: r1, y :: r2 => String.eqb x y && vectorsEqual r1 r2
  | _, _ => false
  end.

Definition areSelectionsEqual (selection1 selection2 : list string) : bool :=
  let orderedSelection1 := IDSort.sort selection1 in
  let orderedSelection2 := IDSort.sort selection2 in
  vectorsEqual orderedSelection1 orderedSelection2.

(** **** Combo box

    A [QComboBox] shows the items of the model; of its state the helpers use
    the current index, -1 when nothing is current. The text of an item is
    what the model gives for the display role. *)
Variable displayText : Item -> string.
(** The constructors [Item( file )] and [Item( QString() )]. *)
Variable makeItem : FileInfo -> Item.
Variable emptyItem : Item.
Variable traverseDirectory : string -> bool -> FileSystemUtils.PathContext -> list FileInfo.

(** [QComboBox::currentText]: the text of the current item, empty when
    there is none. *)
Definition currentText (currentIndex : Z) (model : list Item) : string :=
  match at_ model currentIndex with
  | Some item => displayText item
  | None => EmptyString
  end.

(** [QComboBox::findText]: the index of the first item with this text, -1
    if there is none. *)
Definition findText (model : list Item) (text : string) : Z :=
  findSuch model (fun item => String.eqb (displayText item) text).

Definition getComboCurrentItemID (currentIndex : Z) (model : list Item) : string :=
  let selectedItemIdx := currentIndex in
  if selectedItemIdx >=? 0 then idAt getID model selectedItemIdx else EmptyString.

Definition setComboCurrentItemByID (currentIndex : Z) (model : list Item) (itemID : string)
    : bool * Z :=
  if negb (String.eqb itemID EmptyString) then
    let newItemIdx := findSuch model (hasID getID itemID) in
    if newItemIdx >=? 0 then (true, newItemIdx) else (false, currentIndex)
  else (false, currentIndex).

Definition updateComboBoxFromDir (model : list Item) (currentIndex : Z) (dir : string)
    (recursively includeEmptyItem : bool) (pathContext : FileSystemUtils.PathContext)
    (isDesiredFile : FileInfo -> bool) : Z * list Item :=
  let lastText := currentText currentIndex model in
  let currentIndex := -1 in
  let model : list Item := [] in
  let model := if includeEmptyItem then model ++ [emptyItem] else model in
  let model := appendDesired makeItem model isDesiredFile
                 (traverseDirectory dir recursively pathContext) in
  (findText model lastText, model).

End MoreCompleteUpdate.
End WidgetUtils.

(** ** Sources/Utils/MiscUtils.cpp: the other functions *)
Module MiscUtilsOther.
Import Containers.
Open Scope Z_scope.

(** *** QString by position *)

(** [QString::size], an [int]. *)
Definition qsize (s : string) : Z := Z.of_nat (String.length s).

(** [QString::indexOf] of a character from a position on, the position not
    negative: the position of its first occurrence there, -1 if there is
    none; [i] is the position of the head. *)
Fixpoint indexOfFrom (i : Z) (s : string) (c : ascii) (from : Z) : Z :=
  match s with
  | EmptyString => -1
  | String x r => if (from <=? i) && Ascii.eqb x c then i
                  else indexOfFrom (i + 1) r c from
  end.

Definition indexOf (s : string) (c : ascii) (from : Z) : Z := indexOfFrom 0 s c from.

(** The first [n] characters, and what follows them. *)
Fixpoint left (s : string) (n : Z) : string :=
  match s with
  | EmptyString => EmptyString
  | String x r => if n <=? 0 then EmptyString else String x (left r (n - 1))
  end.

Fixpoint mid (s : string) (n : Z) : string :=
  match s with
  | EmptyString => EmptyString
  | String x r => if n <=? 0 then s else mid r (n - 1)
  end.

(** [QString::replace( position, n, after )]: replaces the [n] characters
    from [position] on; a position outside the string replaces nothing, and
    [n] stops at the end of the string. *)
Definition replace (s : string) (position n : Z) (after : string) : string :=
  if (position <? 0) || (qsize s <? position) then s
  else (left s position ++ after ++ mid s (position + Z.max n 0))%string.

Definition replaceStringBetween (source : string) (startingChar endingChar : ascii)
    (replaceWith : string) : string :=
  let startIdx := indexOf source startingChar 0 in
  if (startIdx <? 0) || (startIdx =? qsize source - 1) then source
  else
    let endIdx := indexOf source endingChar (startIdx + 1) in
    if endIdx <? 0 then source
    else replace source (startIdx + 1) (endIdx - startIdx - 1) replaceWith.

(** *** makeFileFilter *)
Section FileFilter.
(** [QString::toUpper] *)
Variable toUpper : string -> string.

(** The loop over the suffixes, on the stream; [isFirst] says whether the
    suffix is [suffixes[0]]. *)
Fixpoint writeSuffixes (filter : string) (isFirst : bool) (suffixes : list string) : string :=
  match suffixes with
  | [] => filter
  | suffix :: rest =>
      writeSuffixes
        (if isFirst then (filter ++ "*." ++ suffix ++ " *." ++ toUpper suffix)%string
         else (filter ++ " *." ++ suffix ++ " *." ++ toUpper suffix)%string)
        false rest
  end.

Definition makeFileFilter (filterName : string) (suffixes : list string) : string :=
  let filter := (EmptyString ++ filterName ++ " (")%string in
  let filter := writeSuffixes filter true suffixes in
  (filter ++ ");;")%string.

End FileFilter.

(** *** mixColors *)

(** A [QColor] built from red, green and blue: the components are kept if
    all three are within 0..255, otherwise the colour is invalid and its
    components read 0. *)
Record QColor := mkColor { isValid : bool; red : Z; green : Z; blue : Z }.

Definition invalidColor : QColor := mkColor false 0 0 0.

Definition inColorRange (v : Z) : bool := (0 <=? v) && (v <=? 255).

Definition QColor_rgb (r g b : Z) : QColor :=
  if inColorRange r && inColorRange g && inColorRange b then mkColor true r g b
  else invalidColor.

(** The arithmetic of one component, on [int]: every result wraps to 32
    bits, the division truncates toward zero; a division by zero, which C++
    leaves undefined, gives 0 here. *)
Definition mixComponent (c1 weight1 c2 weight2 weightSum add : Z) : Z :=
  to_int (to_int (Z.quot (to_int (to_int (c1 * weight1) + to_int (c2 * weight2))) weightSum)
          + add).

Definition mixColors (color1 : QColor) (weight1 : Z) (color2 : QColor) (weight2 : Z)
    (addition : QColor) : QColor :=
  let weightSum := to_int (weight1 + weight2) in
  QColor_rgb
    (mixComponent (red color1) weight1 (red color2) weight2 weightSum (red addition))
    (mixComponent (green color1) weight1 (green color2) weight2 weightSum (green addition))
    (mixComponent (blue color1) weight1 (blue color2) weight2 weightSum (blue addition)).

(** *** PathChecker *)

(** [enum class EntryType], as the checks use it. *)
Inductive EntryType := File | Dir | Both.

(** What the checks ask the file system: [QFileInfo::exists], [isFile] and
    [isDir] of a path. *)
Record FileSystem := mkFileSystem {
  fileExists : string -> bool;
  isFile : string -> bool;
  isDir : string -> bool
}.

(** The flag [errorMessageDisplayed], passed by reference, and the warning
    boxes shown so far, each with its title and text. *)
Record Reporter := mkReporter {
  errorMessageDisplayed : bool;
  warnings : list (string * string)
}.

Section PathChecker.
Variable fs : FileSystem.
(** [capitalize] of LangUtils. *)
Variable capitalize : string -> string.

Definition maybeShowError (r : Reporter) (title message : string) : Reporter :=
  if negb (errorMessageDisplayed r) then mkReporter true (warnings r ++ [(title, message)])
  else r.

Definition checkCollision (path : string) (expectedType : EntryType) (r : Reporter)
    (subjectName errorPostscript : string) : bool * Reporter :=
  match expectedType with
  | File =>
      if negb (isFile fs path) then
        (false, maybeShowError r "Path is a directory"
           (capitalize subjectName ++ " " ++ path
            ++ " is a directory, but it should be a file. " ++ errorPostscript)%string)
      else (true, r)
  | Dir =>
      if negb (isDir fs path) then
        (false, maybeShowError r "Path is a file"
           (capitalize subjectName ++ " " ++ path
            ++ " is a file, but it should be a directory. " ++ errorPostscript)%string)
      else (true, r)
  | Both => (true, r)
  end.

Definition checkNonEmptyPath (path : string) (expectedType : EntryType) (r : Reporter)
    (subjectName errorPostscript : string) : bool * Reporter :=
  if negb (fileExists fs path) then
    let fileOrDir :=
      match expectedType with
      | File => "File"
      | Dir => "Directory"
      | Both => "File or directory"
      end in
    (false, maybeShowError r (fileOrDir ++ " no longer exists")%string
       (capitalize subjectName ++ " (" ++ path ++ ") no longer exists. "
        ++ errorPostscript)%string)
  else checkCollision path expectedType r subjectName errorPostscript.

Definition checkPath (path : string) (expectedType : EntryType) (r : Reporter)
    (subjectName errorPostscript : string) : bool * Reporter :=
  if QString.isEmpty path then
    (false, maybeShowError r "Path is empty"
       ("Path of " ++ subjectName ++ " is empty. " ++ errorPostscript)%string)
  else checkNonEmptyPath path expectedType r subjectName errorPostscript.

End PathChecker.

End MiscUtilsOther.

(** ** Sources/Utils/OSUtils.cpp: the other functions *)
Module OSUtilsOther.
Import Platform OSUtils.
Open Scope Z_scope.

Definition getSandboxName (sandbox : Sandbox.t) : string :=
  match sandbox with
  | Sandbox.Snap => "Snap"
  | Sandbox.Flatpak => "Flatpak"
  | _ => "<invalid>"
  end.

(** [cmdParts] of [getRunCommand] where [takeFirst] is called on it: the
    function past its early return. *)
Definition cmdPartsBeforeTakeFirst (env : Environment) (executablePath : string)
    (base : FileSystemUtils.PathContext) (dirsToBeAccessed : list string) : list string :=
  let traits := getExecutableTraits env executablePath in
  let cmdParts := if FLATPAK_BUILD env then ["flatpak-spawn"; "--host"] else [] in
  match sandboxEnv traits with
  | Sandbox.Snap => cmdParts ++ ["snap"] ++ ["run"] ++ [sandboxAppName traits]
  | Sandbox.Flatpak =>
      fst (grantDirs env base dirsToBeAccessed (cmdParts ++ ["flatpak"] ++ ["run"]) [])
      ++ [sandboxAppName traits]
  | Sandbox.None =>
      if isInSearchPath env executablePath then
        cmdParts ++ [getFileNameFromPath env executablePath]
      else
        cmdParts ++ [FileSystemUtils.maybeQuoted base
                       (fixExePath env (FileSystemUtils.rebasePath env base executablePath))]
  end.

(** [QScreen], as [listMonitors] reads it, and [MonitorInfo]. *)
Record QScreen := mkScreen { screenName : string; screenWidth : Z; screenHeight : Z }.

Record MonitorInfo := mkMonitorInfo {
  name : string;
  width : Z;
  height : Z;
  isPrimary : bool
}.

(** The loop of [listMonitors] from [monitorIdx] on. *)
Fixpoint listMonitorsFrom (monitorIdx : Z) (screens : list QScreen)
    (monitors : list MonitorInfo) : list MonitorInfo :=
  match screens with
  | [] => monitors
  | screen :: rest =>
      listMonitorsFrom (monitorIdx + 1) rest
        (monitors ++ [mkMonitorInfo (screenName screen) (screenWidth screen)
                        (screenHeight screen) (monitorIdx =? 0)])
  end.

Definition listMonitors (screens : list QScreen) : list MonitorInfo :=
  listMonitorsFrom 0 screens [].

End OSUtilsOther.

(** ** Vocabulary of the statements *)

(** Characters that are ordinary in every state of the tokenizer but the
    escaped one: neither backslash nor quote. *)
Definition isBodyChar (c : ascii) : bool :=
  negb (Ascii.eqb c QString.BACKSLASH) && negb (Ascii.eqb c QString.QUOTE).

(** Characters that are ordinary outside quotes: not a space either. *)
Definition isWordChar (c : ascii) : bool :=
  isBodyChar c && negb (Ascii.eqb c QString.SPACE).

Fixpoint allChars (p : ascii -> bool) (s : string) : bool :=
  match s with
  | EmptyString => true
  | String c r => p c && allChars p r
  end.

(** Every argument emitted outside quotes has text. *)
Definition unquotedHaveText (l : list MiscUtils.Argument) : Prop :=
  Forall (fun a => MiscUtils.wasQuoted a = false -> MiscUtils.str a <> EmptyString) l.

(** The command as one token list: the executable, then its arguments. *)
Definition commandTokens (cmd : OSUtils.ShellCommand) : list string :=
  OSUtils.executable cmd :: OSUtils.arguments cmd.

(** The host-escape prefix of a launcher that is itself a Flatpak package. *)
Definition hostEscape (env : Platform.Environment) : list string :=
  if Platform.FLATPAK_BUILD env then ["flatpak-spawn"; "--host"] else [].

(** The launcher is a Flatpak package and the executable lies in it. *)
Definition insideOwnPackage (env : Platform.Environment) (executablePath : string) : bool :=
  Platform.FLATPAK_BUILD env
  && String.eqb (Platform.getAbsoluteDirOfFile env executablePath)
                (Platform.applicationDirPath env).

(** The permission flag of a directory, before quoting. *)
Definition filesystemFlag (env : Platform.Environment) (dir : string) : string :=
  ("--filesystem=" ++ Platform.getAbsolutePath env dir)%string.

(** An executable inside a Flatpak installation. *)
Definition flatpakExample : string :=
  "/var/lib/flatpak/app/org.example.App/current/active/files/bin/gzdoom".

(** The items of a list that stand at none of the given rows, in their
    order; [i] is the row of the head. *)
Fixpoint withoutRows {T : Type} (rows : list Z) (i : Z) (l : list T) : list T :=
  match l with
  | [] => []
  | x :: r => if existsb (Z.eqb i) rows then withoutRows rows (i + 1)%Z r
              else x :: withoutRows rows (i + 1)%Z r
  end.

(** Rows of a selection as Qt keeps them: each once, each of an item. *)
Definition validRows {T : Type} (rows : list Z) (model : list T) : Prop :=
  NoDup rows /\ Forall (fun row => (0 <= row < Containers.size model)%Z) rows.

Section Reloading.
Context {Item FileInfo : Type}.
Variable getID : Item -> string.
Variable makeItem : FileInfo -> Item.
Variable traverseDirectory : string -> bool -> FileSystemUtils.PathContext -> list FileInfo.
Variable dir : string.
Variable recursively : bool.
Variable pathContext : FileSystemUtils.PathContext.
Variable isDesiredFile : FileInfo -> bool.

(** One reload of the list from the directory, whose content stays what
    [traverseDirectory] says. *)
Definition reload (view : WidgetUtils.QListView) (model : list Item)
    : WidgetUtils.QListView * list Item :=
  WidgetUtils.updateListFromDir getID makeItem traverseDirectory model view dir
    recursively pathContext isDesiredFile.

(** The list a reload builds. *)
Definition scanned : list Item :=
  map makeItem (filter isDesiredFile (traverseDirectory dir recursively pathContext)).

(** The rows a lookup by identifier can return. *)
Definition stableRow (model : list Item) (r : Z) : Prop :=
  (0 <= r)%Z
  /\ Containers.findSuch model (WidgetUtils.hasID getID (WidgetUtils.idAt getID model r)) = r.

End Reloading.

(** A directory of three files, for the examples: items and files are their
    own identifiers. *)
Definition threeFiles (dir : string) (recursively : bool)
    (pathContext : FileSystemUtils.PathContext) : list string :=
  ["a.wad"; "b.wad"; "c.wad"].

(** How an argument is written on a command line: quoted arguments between
    quotes, the others as they are. *)
Definition renderArgument (a : MiscUtils.Argument) : string :=
  if MiscUtils.wasQuoted a then (QString.q ++ MiscUtils.str a ++ QString.q)%string
  else MiscUtils.str a.

(** An argument that needs no escaping: a quoted one without backslash and
    quote, an unquoted one non-empty and without space either. *)
Definition plainArgument (a : MiscUtils.Argument) : bool :=
  if MiscUtils.wasQuoted a then allChars isBodyChar (MiscUtils.str a)
  else allChars isWordChar (MiscUtils.str a) && negb (QString.isEmpty (MiscUtils.str a)).

(** The arguments written one after the other, a space between two. *)
Definition renderArguments (l : list MiscUtils.Argument) : string :=
  String.concat " " (map renderArgument l).

Definition isSpace (c : ascii) : bool := Ascii.eqb c QString.SPACE.

(** A text with a backslash put before each of its special characters. *)
Fixpoint escapeChars (special : ascii -> bool) (text : string) : string :=
  match text with
  | EmptyString => EmptyString
  | String c r =>
      if special c then String QString.BACKSLASH (String c (escapeChars special r))
      else String c (escapeChars special r)
  end.

(** The two patterns of each suffix of a file filter. *)
Definition filterPatterns (toUpper : string -> string) (suffixes : list string)
    : list string :=
  flat_map (fun suffix => [("*." ++ suffix)%string; ("*." ++ toUpper suffix)%string])
           suffixes.

(** What a join with spaces adds after its first element. *)
Definition joinTail (l : list string) : string :=
  match l with
  | [] => EmptyString
  | _ :: _ => (" " ++ String.concat " " l)%string
  end.

(** What a path has to be for the checks to pass. *)
Definition pathIsAsExpected (fs : MiscUtilsOther.FileSystem) (path : string)
    (expectedType : MiscUtilsOther.EntryType) : bool :=
  negb (QString.isEmpty path)
  && MiscUtilsOther.fileExists fs path
  && match expectedType with
     | MiscUtilsOther.File => MiscUtilsOther.isFile fs path
     | MiscUtilsOther.Dir => MiscUtilsOther.isDir fs path
     | MiscUtilsOther.Both => true
     end.

(** A file system with one file and one directory, for the examples. *)
Definition smallFileSystem : MiscUtilsOther.FileSystem :=
  MiscUtilsOther.mkFileSystem
    (fun path => String.eqb path "/wads/doom2.wad" || String.eqb path "/wads")
    (fun path => String.eqb path "/wads/doom2.wad")
    (fun path => String.eqb path "/wads").

(** [deleteSelectedItem] clicked [n] times in a row. *)
Fixpoint deleteTimes {Item : Type} (n : nat) (view : WidgetUtils.QListView)
    (model : list Item) : WidgetUtils.QListView * list Item :=
  match n with
  | O => (view, model)
  | S k =>
      let after := snd (WidgetUtils.deleteSelectedItem view model) in
      deleteTimes k (fst after) (snd after)
  end.

(** * Part II: the proofs *)

(** ** The argument tokenizer *)
Module TokenizerProofs.
Import QString MiscUtils.
Local Open Scope string_scope.

Lemma push_back_append (s w : string) (c : ascii) :
  push_back s c ++ w = s ++ String c w.
Proof.
  unfold push_back. induction s as [|a s IH]; simpl; [reflexivity|].
  now rewrite IH.
Qed.

Lemma append_empty_r (s : string) : s ++ EmptyString = s.
Proof. induction s as [|a s IH]; simpl; [reflexivity | now rewrite IH]. Qed.

Lemma append_assoc' (a b c : string) : (a ++ b) ++ c = a ++ (b ++ c).
Proof. induction a as [|x a IH]; simpl; [reflexivity | now rewrite IH]. Qed.

Lemma isEmpty_false_iff (s : string) : isEmpty s = false <-> s <> EmptyString.
Proof. destruct s; simpl; split; congruence. Qed.

Lemma isEmpty_push_back (s : string) (c : ascii) : isEmpty (push_back s c) = false.
Proof. destruct s; reflexivity. Qed.

Lemma isEmpty_append (a b : string) : isEmpty (a ++ b) = isEmpty a && isEmpty b.
Proof. destruct a; reflexivity. Qed.

(** Outside quotes a run of word characters is appended to the pending text. *)
Lemma run_word (w rest : string) : forall a cur,
  allChars isWordChar w = true ->
  run (mkLoop a cur false false) (w ++ rest) = run (mkLoop a (cur ++ w) false false) rest.
Proof.
  induction w as [|c w IH]; intros a cur Hw; simpl.
  - now rewrite append_empty_r.
  - simpl in Hw. apply andb_prop in Hw as [Hc Hw].
    unfold isWordChar, isBodyChar in Hc.
    apply andb_prop in Hc as [Hc Hsp]. apply andb_prop in Hc as [Hbs Hq].
    apply negb_true_iff in Hsp, Hbs, Hq.
    unfold step; simpl. rewrite Hbs, Hq, Hsp.
    rewrite IH by assumption. now rewrite push_back_append.
Qed.

(** Inside quotes a run of body characters, spaces included, is appended to
    the pending text and no argument is emitted. *)
Lemma run_body (w rest : string) : forall a cur,
  allChars isBodyChar w = true ->
  run (mkLoop a cur false true) (w ++ rest) = run (mkLoop a (cur ++ w) false true) rest.
Proof.
  induction w as [|c w IH]; intros a cur Hw; simpl.
  - now rewrite append_empty_r.
  - simpl in Hw. apply andb_prop in Hw as [Hc Hw].
    unfold isBodyChar in Hc. apply andb_prop in Hc as [Hbs Hq].
    apply negb_true_iff in Hbs, Hq.
    unfold step; simpl. rewrite Hbs, Hq.
    rewrite IH by assumption. now rewrite push_back_append.
Qed.

Lemma unquotedHaveText_snoc (l : list Argument) (a : Argument) :
  unquotedHaveText l -> (wasQuoted a = false -> str a <> EmptyString) ->
  unquotedHaveText (l ++ [a]).
Proof.
  intros Hl Ha. apply Forall_app. split; [assumption|]. now constructor.
Qed.

Lemma step_unquotedHaveText (st : LoopState) (c : ascii) :
  unquotedHaveText (args st) -> unquotedHaveText (args (step st c)).
Proof.
  intros H. unfold step.
  destruct (escaped st); [exact H|].
  destruct (inQuotes st).
  - destruct (Ascii.eqb c BACKSLASH); [exact H|].
    destruct (Ascii.eqb c QUOTE); [|exact H].
    simpl. apply unquotedHaveText_snoc; [exact H|]. simpl. discriminate.
  - destruct (Ascii.eqb c BACKSLASH); [exact H|].
    destruct (Ascii.eqb c QUOTE).
    + destruct (isEmpty (currentArg st)) eqn:E; simpl; [exact H|].
      apply unquotedHaveText_snoc; [exact H|]. intros _. simpl.
      now apply isEmpty_false_iff.
    + destruct (Ascii.eqb c SPACE); [|exact H].
      destruct (isEmpty (currentArg st)) eqn:E; simpl; [exact H|].
      apply unquotedHaveText_snoc; [exact H|]. intros _. simpl.
      now apply isEmpty_false_iff.
Qed.

Lemma run_unquotedHaveText (s : string) : forall st,
  unquotedHaveText (args st) -> unquotedHaveText (args (run st s)).
Proof.
  induction s as [|c s IH]; intros st H; simpl; [exact H|].
  apply IH. now apply step_unquotedHaveText.
Qed.

Lemma run_word_end (w : string) (a : list Argument) (cur : string) :
  allChars isWordChar w = true ->
  run (mkLoop a cur false false) w = mkLoop a (cur ++ w) false false.
Proof.
  intros Hw. rewrite <- (append_empty_r w) at 1. now rewrite run_word.
Qed.

Lemma finish_pending (argsStr : string) (a : list Argument) (cur : string) (e i : bool) :
  isEmpty cur = false ->
  finish argsStr (mkLoop a cur e i) = (a ++ [mkArgument cur (i && backIsNotQuote argsStr)])%list.
Proof. intros H. unfold finish; simpl. now rewrite H. Qed.

Lemma finish_no_pending (argsStr : string) (a : list Argument) (e i : bool) :
  finish argsStr (mkLoop a EmptyString e i) = a.
Proof. reflexivity. Qed.

Example split_example_input :
  splitCommandLineArguments example_input
  = [mkArgument "foo" false; mkArgument "bar baz" true;
     mkArgument ("qux" ++ q ++ "x") false].
Proof. reflexivity. Qed.

(** C3, as the specification words it, fails: the third token of the example
    input is not quxx, the escaped quote stays in it. *)
Lemma C3_third_token_is_not_quxx :
  nth_error (map str (splitCommandLineArguments example_input)) 2 <> Some "quxx".
Proof. vm_compute. discriminate. Qed.

(** C3 (amended): an unescaped space outside quotes splits, spaces inside
    quotes do not, a quote toggles quote mode and starts and ends a token, a
    backslash-quote inside quotes puts a quote character in the token; on the
    example input the tokens are foo (unquoted), bar baz (quoted) and the
    unquoted qux, quote, x. *)
Theorem C3_tokenizer_splitting (w1 w2 a b : string)
  (Hw1 : allChars isWordChar w1 = true) (Hn1 : isEmpty w1 = false)
  (Hw2 : allChars isWordChar w2 = true) (Hn2 : isEmpty w2 = false)
  (Ha : allChars isBodyChar a = true) (Hb : allChars isBodyChar b = true) :
  splitCommandLineArguments (w1 ++ " " ++ w2)
    = [mkArgument w1 false; mkArgument w2 false]
  /\ splitCommandLineArguments (q ++ b ++ q) = [mkArgument b true]
  /\ splitCommandLineArguments (w1 ++ q ++ b ++ q ++ w2)
    = [mkArgument w1 false; mkArgument b true; mkArgument w2 false]
  /\ splitCommandLineArguments (q ++ a ++ "\" ++ q ++ b ++ q)
    = [mkArgument (a ++ q ++ b) true]
  /\ splitCommandLineArguments example_input
    = [mkArgument "foo" false; mkArgument "bar baz" true;
       mkArgument ("qux" ++ q ++ "x") false].
Proof.
  unfold splitCommandLineArguments, initial.
  repeat split.
  - rewrite run_word by assumption. simpl. unfold step; simpl. rewrite Hn1; simpl.
    rewrite run_word_end by assumption. simpl.
    rewrite finish_pending by assumption. reflexivity.
  - simpl. unfold step at 1; simpl.
    rewrite run_body by assumption. simpl. unfold step; simpl. reflexivity.
  - rewrite run_word by assumption. simpl. unfold step at 1; simpl. rewrite Hn1; simpl.
    rewrite run_body by assumption. simpl. unfold step at 1; simpl.
    rewrite run_word_end by assumption. simpl.
    rewrite finish_pending by assumption. reflexivity.
  - simpl. unfold step at 1; simpl.
    rewrite run_body by assumption. simpl. unfold step at 1 2; simpl.
    rewrite run_body by assumption. simpl. unfold step; simpl.
    unfold finish; simpl. unfold push_back. now rewrite append_assoc'.
Qed.

Lemma C3_tokenizer_splitting_witness :
  splitCommandLineArguments ("foo" ++ " " ++ "qux")
    = [mkArgument "foo" false; mkArgument "qux" false]
  /\ splitCommandLineArguments (q ++ "bar baz" ++ q) = [mkArgument "bar baz" true].
Proof.
  pose proof (C3_tokenizer_splitting "foo" "qux" "say" "bar baz"
    eq_refl eq_refl eq_refl eq_refl eq_refl eq_refl) as H.
  split; [apply H | apply H].
Defined.

(** C8, as worded, fails: an empty pair of quotes is emitted as an empty
    argument. *)
Lemma C8_empty_quotes_give_empty_token :
  splitCommandLineArguments (q ++ q) = [mkArgument EmptyString true].
Proof. reflexivity. Qed.

(** C8 (amended): for every input, every argument that is not flagged as
    quoted has non-empty text; an empty argument comes only from quotes. *)
Theorem C8_unquoted_tokens_nonempty (argsStr : string) (a : Argument)
  (Hin : In a (splitCommandLineArguments argsStr))
  (Hq : wasQuoted a = false) :
  str a <> EmptyString.
Proof.
  assert (Hall : unquotedHaveText (splitCommandLineArguments argsStr)).
  { unfold splitCommandLineArguments, finish.
    pose proof (run_unquotedHaveText argsStr initial (Forall_nil _)) as Hrun.
    destruct (isEmpty (currentArg (run initial argsStr))) eqn:E; simpl; [exact Hrun|].
    apply unquotedHaveText_snoc; [exact Hrun|]. intros _. simpl.
    now apply isEmpty_false_iff. }
  unfold unquotedHaveText in Hall. rewrite Forall_forall in Hall.
  exact (Hall a Hin Hq).
Qed.

Lemma C8_unquoted_tokens_nonempty_witness :
  str (mkArgument "foo" false) <> EmptyString.
Proof.
  apply (C8_unquoted_tokens_nonempty example_input (mkArgument "foo" false)).
  - vm_compute. left. reflexivity.
  - reflexivity.
Defined.

(** The loop run over an input and one more character is one more step. *)
Lemma run_snoc (argsStr : string) (c : ascii) : forall st,
  run st (argsStr ++ String c EmptyString) = step (run st argsStr) c.
Proof.
  induction argsStr as [|x argsStr IH]; intros st; [reflexivity|].
  cbn [append run]. apply IH.
Qed.

(** A string whose last character is [c] ends in it. *)
Lemma back_snoc (argsStr : string) (c : ascii) :
  back argsStr = Some c -> exists before, argsStr = before ++ String c EmptyString.
Proof.
  induction argsStr as [|x argsStr IH]; [discriminate|].
  destruct argsStr as [|y argsStr].
  - cbn [back]. intros [= ->]. now exists EmptyString.
  - intros Hback. destruct (IH Hback) as [before Hbefore].
    exists (String x before). cbn [append]. now rewrite <- Hbefore.
Qed.

(** A quote that the loop reads unescaped leaves quote mode or enters it
    with no pending text. *)
Lemma step_unescaped_quote (st : LoopState) :
  escaped st = false ->
  inQuotes (step st QUOTE) = true -> isEmpty (currentArg (step st QUOTE)) = true.
Proof.
  intros Hesc. unfold step. rewrite Hesc.
  destruct (inQuotes st); cbn [Ascii.eqb QUOTE BACKSLASH andb Bool.eqb inQuotes currentArg].
  - discriminate.
  - destruct (isEmpty (currentArg st)) eqn:E; cbn [negb inQuotes currentArg isEmpty];
      [intros _; exact E | reflexivity].
Qed.

(** C9: an open quote that ends on an escaped quote loses its flag.  The
    input quote, a, backslash, quote ends in quote mode with the pending
    text a, quote; the final argument is that text, yet it is not flagged as
    quoted, while the same text closed by one more quote is flagged.  For
    every input that ends in quote mode with pending text, the final
    argument is that text, flagged exactly when the last character of the
    input is not a quote; and the last character of such an input is a quote
    only where the loop read it as an escaped character inside the quotes,
    so that this is the one kind of input whose final argument loses the
    flag. *)
Theorem C9_escaped_quote_at_end_loses_flag :
  (inQuotes (run initial (q ++ "a\" ++ q)) = true
   /\ currentArg (run initial (q ++ "a\" ++ q)) = "a" ++ q
   /\ splitCommandLineArguments (q ++ "a\" ++ q) = [mkArgument ("a" ++ q) false]
   /\ splitCommandLineArguments (q ++ "a\" ++ q ++ q) = [mkArgument ("a" ++ q) true])
  /\ (forall argsStr : string,
        inQuotes (run initial argsStr) = true ->
        isEmpty (currentArg (run initial argsStr)) = false ->
        splitCommandLineArguments argsStr
        = (args (run initial argsStr)
           ++ [mkArgument (currentArg (run initial argsStr)) (backIsNotQuote argsStr)])%list
        /\ forall d, str (last (splitCommandLineArguments argsStr) d)
                       = currentArg (run initial argsStr)
                     /\ wasQuoted (last (splitCommandLineArguments argsStr) d)
                        = backIsNotQuote argsStr)
  /\ (forall argsStr : string,
        inQuotes (run initial argsStr) = true ->
        isEmpty (currentArg (run initial argsStr)) = false ->
        backIsNotQuote argsStr = false ->
        exists before : string,
          argsStr = before ++ q
          /\ inQuotes (run initial before) = true
          /\ escaped (run initial before) = true
          /\ currentArg (run initial argsStr)
             = push_back (currentArg (run initial before)) QUOTE).
Proof.
  split; [repeat split|]. split.
  - intros argsStr Hopen Htext.
    assert (Hsplit : splitCommandLineArguments argsStr
      = (args (run initial argsStr)
         ++ [mkArgument (currentArg (run initial argsStr)) (backIsNotQuote argsStr)])%list).
    { unfold splitCommandLineArguments, finish. now rewrite Htext, Hopen. }
    split; [exact Hsplit|].
    intros d. rewrite Hsplit, last_last. now split.
  - intros argsStr Hopen Htext Hback.
    unfold backIsNotQuote in Hback.
    destruct (back argsStr) as [c|] eqn:Eback; [|discriminate].
    apply negb_false_iff, Ascii.eqb_eq in Hback. subst c.
    destruct (back_snoc argsStr QUOTE Eback) as [before ->].
    rewrite run_snoc in Hopen, Htext |- *.
    exists before. split; [reflexivity|].
    destruct (escaped (run initial before)) eqn:Eesc.
    + unfold step in Hopen |- *. rewrite Eesc in Hopen |- *.
      cbn [inQuotes currentArg] in Hopen |- *. now repeat split.
    + pose proof (step_unescaped_quote (run initial before) Eesc Hopen) as Hempty.
      rewrite Hempty in Htext. discriminate.
Qed.

(** C10: outside quotes a backslash that is not itself escaped escapes the
    next character, which goes into the pending text whatever it is and
    leaves the quote mode as it was; a, backslash, space, b is the one token
    a b, and backslash, quote gives a token holding a quote character without
    entering quote mode. *)
Theorem C10_backslash_escapes_outside_quotes :
  (forall (emitted : list Argument) (pending : string) (c : ascii) (rest : string),
     run (mkLoop emitted pending false false) (String BACKSLASH (String c rest))
     = run (mkLoop emitted (push_back pending c) false false) rest)
  /\ splitCommandLineArguments "a\ b" = [mkArgument "a b" false]
  /\ splitCommandLineArguments ("\" ++ q) = [mkArgument q false]
  /\ inQuotes (run initial ("\" ++ q)) = false.
Proof.
  repeat split.
Qed.

End TokenizerProofs.

(** ** The run command *)
Module RunCommandProofs.
Import QString Platform FileSystemUtils OSUtils.

Section RunCommand.
Variable env : Environment.

Lemma grantDirs_map (base : PathContext) (dirs : list string) :
  forall cmdParts perms,
    grantDirs env base dirs cmdParts perms
    = (cmdParts ++ map (fun d => maybeQuoted base (filesystemFlag env d)) dirs,
       perms ++ map (filesystemFlag env) dirs).
Proof.
  induction dirs as [|d dirs IH]; intros cmdParts perms; simpl.
  - now rewrite !app_nil_r.
  - rewrite IH. unfold filesystemFlag. now rewrite <- !app_assoc.
Qed.

(** Outside the launcher's own package the command is the host escape, then
    the tokens of the sandbox or the reference to the executable. *)
Lemma getRunCommand_tokens (executablePath : string) (base : PathContext)
    (dirs : list string) :
  insideOwnPackage env executablePath = false ->
  commandTokens (getRunCommand env executablePath base dirs)
  = hostEscape env ++
    match sandboxEnv (getExecutableTraits env executablePath) with
    | Sandbox.Snap =>
        ["snap"; "run"; sandboxAppName (getExecutableTraits env executablePath)]
    | Sandbox.Flatpak =>
        ["flatpak"; "run"]
        ++ map (fun d => maybeQuoted base (filesystemFlag env d)) dirs
        ++ [sandboxAppName (getExecutableTraits env executablePath)]
    | Sandbox.None =>
        [if isInSearchPath env executablePath
         then getFileNameFromPath env executablePath
         else maybeQuoted base (fixExePath env (rebasePath env base executablePath))]
    end.
Proof.
  intros Hout. unfold insideOwnPackage in Hout.
  unfold getRunCommand, commandTokens. rewrite Hout.
  fold (hostEscape env).
  destruct (sandboxEnv (getExecutableTraits env executablePath)).
  - destruct (isInSearchPath env executablePath);
      unfold hostEscape; destruct (FLATPAK_BUILD env); reflexivity.
  - unfold hostEscape; destruct (FLATPAK_BUILD env); reflexivity.
  - rewrite grantDirs_map. unfold hostEscape; destruct (FLATPAK_BUILD env); reflexivity.
Qed.

Lemma getRunCommand_extraPermissions (executablePath : string) (base : PathContext)
    (dirs : list string) :
  insideOwnPackage env executablePath = false ->
  extraPermissions (getRunCommand env executablePath base dirs)
  = match sandboxEnv (getExecutableTraits env executablePath) with
    | Sandbox.Flatpak => map (filesystemFlag env) dirs
    | _ => []
    end.
Proof.
  intros Hout. unfold insideOwnPackage in Hout.
  unfold getRunCommand. rewrite Hout.
  destruct (sandboxEnv (getExecutableTraits env executablePath)).
  - destruct (isInSearchPath env executablePath);
      destruct (FLATPAK_BUILD env); reflexivity.
  - destruct (FLATPAK_BUILD env); reflexivity.
  - rewrite grantDirs_map. destruct (FLATPAK_BUILD env); reflexivity.
Qed.

End RunCommand.

(** C1, as worded, fails in a Flatpak build of the launcher: for an
    executable under /snap/ outside the launcher's directory the command
    begins with the host escape, not with snap. *)
Lemma C1_flatpak_build_begins_with_host_escape :
  sandboxEnv (getExecutableTraits (linuxEnv true "/app/bin") "/snap/bin/gzdoom")
    = Sandbox.Snap
  /\ getRunCommand (linuxEnv true "/app/bin") "/snap/bin/gzdoom"
       (mkPathContext "/home/u" true) ["/a"; "/b"]
     = mkShellCommand "flatpak-spawn" ["--host"; "snap"; "run"; "gzdoom"] []
  /\ executable (getRunCommand (linuxEnv true "/app/bin") "/snap/bin/gzdoom"
       (mkPathContext "/home/u" true) ["/a"; "/b"]) <> "snap".
Proof. repeat split. vm_compute. discriminate. Qed.

(** C1 (amended): unless the launcher is a Flatpak build and the executable
    lies in the launcher's own directory, the command is the host escape
    (flatpak-spawn --host in a Flatpak build, nothing otherwise) followed by
    the tokens the detected sandbox asks for: none before the reference to
    the executable when it is None; snap, run, the application name when it
    is Snap; flatpak, run, one flag --filesystem=<absolute dir> per directory
    in list order, each passed through the path context's quoting, then the
    application name when it is Flatpak. For /a and /b, absolute already, in
    a build that is not a Flatpak one, exactly the two flags stand between
    run and the application name. *)
Theorem C1_sandbox_prefix (env : Environment) (executablePath : string)
  (base : PathContext) (dirs : list string)
  (Hout : insideOwnPackage env executablePath = false) :
  let traits := getExecutableTraits env executablePath in
  let cmd := getRunCommand env executablePath base dirs in
  match sandboxEnv traits with
  | Sandbox.None =>
      commandTokens cmd
      = hostEscape env
        ++ [if isInSearchPath env executablePath
            then getFileNameFromPath env executablePath
            else maybeQuoted base (fixExePath env (rebasePath env base executablePath))]
  | Sandbox.Snap =>
      commandTokens cmd = hostEscape env ++ ["snap"; "run"; sandboxAppName traits]
  | Sandbox.Flatpak =>
      commandTokens cmd
      = hostEscape env ++ ["flatpak"; "run"]
        ++ map (fun d => maybeQuoted base (filesystemFlag env d)) dirs
        ++ [sandboxAppName traits]
      /\ extraPermissions cmd = map (filesystemFlag env) dirs
      /\ (FLATPAK_BUILD env = false ->
          getAbsolutePath env "/a" = "/a" -> getAbsolutePath env "/b" = "/b" ->
          getRunCommand env executablePath base ["/a"; "/b"]
          = mkShellCommand "flatpak"
              ["run"; "--filesystem=/a"; "--filesystem=/b"; sandboxAppName traits]
              ["--filesystem=/a"; "--filesystem=/b"])
  end.
Proof.
  intros traits cmd.
  pose proof (getRunCommand_tokens env executablePath base dirs Hout) as Htok.
  pose proof (getRunCommand_extraPermissions env executablePath base dirs Hout) as Hperm.
  fold traits cmd in Htok, Hperm.
  destruct (sandboxEnv traits) eqn:Henv.
  - exact Htok.
  - exact Htok.
  - split; [exact Htok|]. split; [exact Hperm|].
    intros Hbuild Ha Hb.
    pose proof (getRunCommand_tokens env executablePath base ["/a"; "/b"] Hout) as Htok2.
    pose proof (getRunCommand_extraPermissions env executablePath base ["/a"; "/b"] Hout)
      as Hperm2.
    fold traits in Htok2, Hperm2. rewrite Henv in Htok2, Hperm2.
    unfold hostEscape in Htok2. rewrite Hbuild in Htok2.
    unfold commandTokens in Htok2. simpl in Htok2, Hperm2.
    unfold filesystemFlag in Htok2, Hperm2. rewrite Ha, Hb in Htok2, Hperm2.
    change (maybeQuoted base ("--filesystem=" ++ "/a")) with "--filesystem=/a" in Htok2.
    change (maybeQuoted base ("--filesystem=" ++ "/b")) with "--filesystem=/b" in Htok2.
    destruct (getRunCommand env executablePath base ["/a"; "/b"]) as [e a p].
    simpl in Htok2, Hperm2. injection Htok2 as He Ha'. now subst.
Qed.

Lemma C1_sandbox_prefix_witness :
  getRunCommand (linuxEnv false "/opt/DoomRunner") flatpakExample
    (mkPathContext "/home/u" true) ["/a"; "/b"]
  = mkShellCommand "flatpak"
      ["run"; "--filesystem=/a"; "--filesystem=/b"; "org.example.App"]
      ["--filesystem=/a"; "--filesystem=/b"].
Proof.
  pose proof (C1_sandbox_prefix (linuxEnv false "/opt/DoomRunner") flatpakExample
                (mkPathContext "/home/u" true) ["/a"; "/b"] eq_refl) as H.
  apply H; reflexivity.
Defined.

(** C2, as worded, fails in a Flatpak build of the launcher: an executable in
    the launcher's own directory that is not on the search path is referenced
    by its bare file name, not by its rebased path. *)
Lemma C2_flatpak_build_own_package_bare_name :
  sandboxEnv (getExecutableTraits (linuxEnv true "/app/bin") "/app/bin/gzdoom")
    = Sandbox.None
  /\ isInSearchPath (linuxEnv true "/app/bin") "/app/bin/gzdoom" = false
  /\ getRunCommand (linuxEnv true "/app/bin") "/app/bin/gzdoom"
       (mkPathContext "/home/u" true) []
     = mkShellCommand "gzdoom" [] []
  /\ maybeQuoted (mkPathContext "/home/u" true)
       (fixExePath (linuxEnv true "/app/bin")
          (rebasePath (linuxEnv true "/app/bin") (mkPathContext "/home/u" true)
             "/app/bin/gzdoom"))
     = "/app/bin/gzdoom".
Proof. repeat split. Qed.

(** C2 (amended): for an executable that is not sandboxed, unless the
    launcher is a Flatpak build and the executable lies in the launcher's own
    directory, the command is the host escape followed by one token: the bare
    file name if the search path resolves that name to exactly this path;
    otherwise the path made absolute from or relative to the base directory
    per the absolute-paths toggle, prefixed with ./ on non-Windows when it
    holds no directory separator, then quoted if it contains a space. *)
Theorem C2_executable_reference (env : Environment) (executablePath : string)
  (base : PathContext) (dirs : list string)
  (Hnone : sandboxEnv (getExecutableTraits env executablePath) = Sandbox.None)
  (Hout : insideOwnPackage env executablePath = false) :
  let fileName := getFileNameFromPath env executablePath in
  let rebased :=
    if useAbsolutePaths base then absoluteFilePath env (baseDir base) executablePath
    else relativeFilePath env (baseDir base) executablePath in
  let fixed :=
    if negb (isWindows env) && negb (contains rebased "/"%char)
    then ("./" ++ rebased)%string else rebased in
  commandTokens (getRunCommand env executablePath base dirs)
  = hostEscape env ++
    [if String.eqb (findExecutable env fileName) executablePath then fileName
     else if contains fixed " "%char
          then String QUOTE (fixed ++ String QUOTE EmptyString)
          else fixed].
Proof.
  intros fileName rebased fixed.
  rewrite (getRunCommand_tokens env executablePath base dirs Hout), Hnone.
  reflexivity.
Qed.

Lemma C2_executable_reference_witness :
  commandTokens (getRunCommand (linuxEnv false "/opt/DoomRunner") "/usr/bin/gzdoom"
                   (mkPathContext "/home/u" false) [])
    = ["gzdoom"]
  /\ commandTokens (getRunCommand (linuxEnv false "/opt/DoomRunner") "/home/u/gzdoom"
                      (mkPathContext "/home/u" false) [])
    = ["./gzdoom"]
  /\ commandTokens (getRunCommand (linuxEnv false "/opt/DoomRunner")
                      "/home/u/my games/gzdoom" (mkPathContext "/home/u" false) [])
    = [String QUOTE ("my games/gzdoom" ++ String QUOTE EmptyString)%string].
Proof.
  split; [|split].
  - exact (C2_executable_reference (linuxEnv false "/opt/DoomRunner") "/usr/bin/gzdoom"
             (mkPathContext "/home/u" false) [] eq_refl eq_refl).
  - exact (C2_executable_reference (linuxEnv false "/opt/DoomRunner") "/home/u/gzdoom"
             (mkPathContext "/home/u" false) [] eq_refl eq_refl).
  - exact (C2_executable_reference (linuxEnv false "/opt/DoomRunner")
             "/home/u/my games/gzdoom" (mkPathContext "/home/u" false) [] eq_refl eq_refl).
Defined.

End RunCommandProofs.

(** ** The list helpers *)
Module ListProofs.
Import Containers WidgetUtils.
Local Open Scope Z_scope.

Section QListFacts.
Context {T : Type}.
Implicit Types (l : list T) (x : T).

Lemma size_cons x l : size (x :: l) = size l + 1.
Proof. unfold size. cbn [List.length]. lia. Qed.

Lemma size_nonneg l : 0 <= size l.
Proof. unfold size. lia. Qed.

Lemma size_nil : size (@nil T) = 0.
Proof. reflexivity. Qed.

Lemma isEmpty_size l : isEmpty l = (size l =? 0).
Proof. destruct l; [reflexivity|]. rewrite size_cons. pose proof (size_nonneg l). cbn [isEmpty]. lia. Qed.

Lemma at_cons_pos x l i : 0 < i -> at_ (x :: l) i = at_ l (i - 1).
Proof. intros H. simpl. destruct (i =? 0) eqn:E; [lia | reflexivity]. Qed.

Lemma removeAt_cons_pos x l i : 0 < i -> removeAt (x :: l) i = x :: removeAt l (i - 1).
Proof. intros H. simpl. destruct (i =? 0) eqn:E; [lia | reflexivity]. Qed.

Lemma insert_cons_pos x l i v : 0 < i -> insert (x :: l) i v = x :: insert l (i - 1) v.
Proof. intros H. simpl. destruct (i <=? 0) eqn:E; [lia | reflexivity]. Qed.

Lemma insert_0 l v : insert l 0 v = v :: l.
Proof. destruct l; reflexivity. Qed.

Lemma move_cons_pos x l from to :
  0 < from -> 0 < to -> move (x :: l) from to = x :: move l (from - 1) (to - 1).
Proof.
  intros Hf Ht. unfold move. rewrite at_cons_pos by assumption.
  destruct (at_ l (from - 1)); [|reflexivity].
  rewrite removeAt_cons_pos by assumption. now rewrite insert_cons_pos.
Qed.

Lemma at_in_range l : forall i, 0 <= i < size l -> exists x, at_ l i = Some x.
Proof.
  induction l as [|y l IH]; intros i Hi.
  - rewrite size_nil in Hi. lia.
  - rewrite size_cons in Hi. destruct (Z.eq_dec i 0) as [->|Hne].
    + now exists y.
    + rewrite at_cons_pos by lia. apply IH. lia.
Qed.

Lemma size_removeAt l : forall i, 0 <= i < size l -> size (removeAt l i) = size l - 1.
Proof.
  induction l as [|y l IH]; intros i Hi.
  - rewrite size_nil in Hi. lia.
  - rewrite size_cons in Hi. destruct (Z.eq_dec i 0) as [->|Hne].
    + cbn [removeAt Z.eqb]. rewrite size_cons. lia.
    + rewrite removeAt_cons_pos by lia. rewrite !size_cons, IH; lia.
Qed.

Lemma size_insert l : forall i v, size (insert l i v) = size l + 1.
Proof.
  induction l as [|y l IH]; intros i v.
  - cbn [insert]. destruct (i <=? 0); reflexivity.
  - cbn [insert]. destruct (i <=? 0); rewrite !size_cons; [reflexivity|]. now rewrite IH.
Qed.

Lemma size_move l from to : size (move l from to) = size l.
Proof.
  unfold move. destruct (at_ l from) eqn:E; [|reflexivity].
  rewrite size_insert.
  assert (0 <= from < size l) as Hr.
  { clear to. revert from E. induction l as [|y l IH]; intros from E; [discriminate|].
    rewrite size_cons. pose proof (size_nonneg l).
    simpl in E. destruct (from =? 0) eqn:E0; [lia|].
    specialize (IH _ E). lia. }
  rewrite size_removeAt by assumption. lia.
Qed.

(** Moving an item one row up and then one row down puts every item back. *)
Lemma move_up_then_down l : forall s,
  1 <= s < size l -> move (move l s (s - 1)) (s - 1) s = l.
Proof.
  induction l as [|x l IH]; intros s Hs.
  - rewrite size_nil in Hs. lia.
  - rewrite size_cons in Hs. destruct (Z.eq_dec s 1) as [->|Hne].
    + destruct l as [|y l]; [rewrite size_nil in Hs; lia|].
      unfold move. cbn. now rewrite insert_0.
    + rewrite move_cons_pos by lia. rewrite move_cons_pos by lia.
      replace (s - 1 - 1) with ((s - 1) - 1) by lia.
      f_equal. apply IH. lia.
Qed.

End QListFacts.

Section DeleteFacts.
Context {T : Type}.
Implicit Types (l : list T) (rows : list Z).

Lemma to_int_uint_sub s d :
  0 <= d <= s -> s <= INT_MAX -> to_int (to_uint (to_uint s - d)) = s - d.
Proof.
  unfold to_int, to_uint, INT_MAX. intros Hd Hs.
  rewrite (Z.mod_small s) by lia.
  rewrite (Z.mod_small (s - d)) by lia.
  rewrite Z.mod_small by lia. lia.
Qed.

Lemma to_uint_succ d : 0 <= d <= INT_MAX -> to_uint (d + 1) = d + 1.
Proof. unfold to_uint, INT_MAX. intros H. apply Z.mod_small. lia. Qed.

Lemma existsb_eqb_In k rows : existsb (Z.eqb k) rows = true <-> In k rows.
Proof.
  rewrite existsb_exists. split.
  - intros [x [Hin Hx]]. apply Z.eqb_eq in Hx. now subst.
  - intros Hin. exists k. split; [assumption | apply Z.eqb_refl].
Qed.

Lemma existsb_eqb_false k rows : existsb (Z.eqb k) rows = false <-> ~ In k rows.
Proof.
  rewrite <- existsb_eqb_In. destruct (existsb (Z.eqb k) rows); split; congruence.
Qed.

(** Only the rows from the head's row on matter. *)
Lemma withoutRows_ext l : forall rows1 rows2 i,
  (forall k, i <= k -> (In k rows1 <-> In k rows2)) ->
  withoutRows rows1 i l = withoutRows rows2 i l.
Proof.
  induction l as [|x l IH]; intros rows1 rows2 i H; [reflexivity|].
  cbn [withoutRows].
  assert (existsb (Z.eqb i) rows1 = existsb (Z.eqb i) rows2) as ->.
  { destruct (existsb (Z.eqb i) rows2) eqn:E.
    - apply existsb_eqb_In, H; [lia|]. now apply existsb_eqb_In.
    - apply existsb_eqb_false. rewrite H by lia. now apply existsb_eqb_false. }
  rewrite (IH rows1 rows2 (i + 1)); [reflexivity|].
  intros k Hk. apply H. lia.
Qed.

Lemma withoutRows_shift l : forall rows i,
  withoutRows rows (i + 1) l = withoutRows (map Z.pred rows) i l.
Proof.
  induction l as [|x l IH]; intros rows i; [reflexivity|].
  cbn [withoutRows].
  assert (existsb (Z.eqb (i + 1)) rows = existsb (Z.eqb i) (map Z.pred rows)) as ->.
  { destruct (existsb (Z.eqb i) (map Z.pred rows)) eqn:E.
    - apply existsb_eqb_In. apply existsb_eqb_In in E.
      apply in_map_iff in E as [r [Hr Hin]]. replace (i + 1) with r by lia. exact Hin.
    - apply existsb_eqb_false. intros Hin. apply existsb_eqb_false in E. apply E.
      apply in_map_iff. exists (i + 1). split; [lia | exact Hin]. }
  now rewrite IH.
Qed.

(** Removing the lowest row first and shifting the others down by one
    leaves the same items. *)
Lemma withoutRows_removeAt l : forall rows i j,
  i <= j -> (forall r, In r rows -> j < r) ->
  withoutRows (j :: rows) i l = withoutRows (map Z.pred rows) i (removeAt l (j - i)).
Proof.
  induction l as [|x l IH]; intros rows i j Hij Hrows; [reflexivity|].
  destruct (Z.eq_dec i j) as [->|Hne].
  - replace (j - j) with 0 by lia. cbn [removeAt withoutRows existsb Z.eqb].
    rewrite Z.eqb_refl. cbn [orb].
    rewrite <- withoutRows_shift. apply withoutRows_ext.
    intros k Hk. cbn [In]. split; [intros [H|H]; [lia | exact H] | now right].
  - rewrite removeAt_cons_pos by lia. cbn [withoutRows].
    assert (existsb (Z.eqb i) (j :: rows) = false) as ->.
    { apply existsb_eqb_false. intros [H|H]; [lia|]. specialize (Hrows _ H). lia. }
    assert (existsb (Z.eqb i) (map Z.pred rows) = false) as ->.
    { apply existsb_eqb_false. intros H. apply in_map_iff in H as [r [Hr Hin]].
      specialize (Hrows _ Hin). lia. }
    f_equal. replace (j - i - 1) with (j - (i + 1)) by lia.
    apply IH; [lia | exact Hrows].
Qed.

Lemma withoutRows_nil l : forall i, withoutRows [] i l = l.
Proof.
  induction l as [|x l IH]; intros i; [reflexivity|].
  cbn [withoutRows existsb]. now rewrite IH.
Qed.

(** The loop with its running offset removes exactly the rows it is given,
    when they ascend strictly. *)
Lemma deleteLoop_spec : forall rows d l,
  0 <= d -> StronglySorted Z.lt rows ->
  Forall (fun s => d <= s /\ s - d < size l /\ s <= INT_MAX) rows ->
  deleteLoop rows d l = withoutRows (map (fun s => s - d) rows) 0 l
  /\ size (deleteLoop rows d l) = size l - Z.of_nat (List.length rows).
Proof.
  induction rows as [|s rows IH]; intros d l Hd Hsort Hall.
  - cbn [deleteLoop map List.length]. rewrite withoutRows_nil. split; [reflexivity | lia].
  - inversion Hsort as [|? ? Hsort' Hlt]; subst.
    inversion Hall as [|? ? [Hds [Hsl Hmax]] Hall']; subst.
    cbn [deleteLoop].
    rewrite to_int_uint_sub by lia. rewrite to_uint_succ by lia.
    assert (Hrange : 0 <= s - d < size l) by lia.
    destruct (IH (d + 1) (removeAt l (s - d))) as [Heq Hsize].
    + lia.
    + exact Hsort'.
    + rewrite Forall_forall in *. intros t Ht.
      specialize (Hlt _ Ht). destruct (Hall' _ Ht) as [? [? ?]].
      rewrite size_removeAt by lia. lia.
    + split.
      * rewrite Heq. cbn [map].
        replace (removeAt l (s - d)) with (removeAt l ((s - d) - 0)) by (f_equal; lia).
        rewrite withoutRows_removeAt.
        -- rewrite map_map. f_equal. apply map_ext. intros t. lia.
        -- lia.
        -- intros r Hr. apply in_map_iff in Hr as [t [<- Ht]].
           rewrite Forall_forall in Hlt. specialize (Hlt _ Ht). lia.
      * rewrite Hsize, size_removeAt by lia. cbn [List.length]. lia.
Qed.

(** A strictly ascending list of rows below [n] that starts at [s] has at
    most [n - s] rows. *)
Lemma ascending_rows_fit (n : Z) : forall rows s,
  StronglySorted Z.lt (s :: rows) -> Forall (fun r => r < n) (s :: rows) ->
  s + Z.of_nat (List.length (s :: rows)) <= n.
Proof.
  induction rows as [|t rows IH]; intros s Hsort Hall.
  - inversion Hall; subst. cbn [List.length]. lia.
  - inversion Hsort as [|? ? Hsort' Hlt]; subst.
    inversion Hall as [|? ? _ Hall']; subst.
    specialize (IH t Hsort' Hall').
    inversion Hlt; subst. cbn [List.length] in *. lia.
Qed.

Lemma sort_strictly_ascending rows :
  NoDup rows -> StronglySorted Z.lt (RowSort.sort rows).
Proof.
  intros Hnd.
  assert (Hs : StronglySorted (fun x y => RowOrder.leb x y = true) (RowSort.sort rows)).
  { apply Sorted_StronglySorted.
    - intros x y z Hxy Hyz. unfold RowOrder.leb in *. lia.
    - apply RowSort.Sorted_sort. }
  assert (Hnd' : NoDup (RowSort.sort rows)).
  { eapply Permutation_NoDup; [apply RowSort.Permuted_sort | exact Hnd]. }
  induction Hs as [|a l Hs IH Hall]; [constructor|].
  inversion Hnd' as [|? ? Hnotin Hnd'']; subst.
  constructor; [now apply IH|].
  rewrite Forall_forall in *. intros x Hx. specialize (Hall x Hx).
  unfold RowOrder.leb in Hall.
  assert (a <> x) by (intros ->; contradiction). lia.
Qed.

Lemma sort_In rows k : In k (RowSort.sort rows) <-> In k rows.
Proof.
  split; intros H.
  - eapply Permutation_in; [symmetry; apply RowSort.Permuted_sort | exact H].
  - eapply Permutation_in; [apply RowSort.Permuted_sort | exact H].
Qed.

Lemma sort_length rows : List.length (RowSort.sort rows) = List.length rows.
Proof. symmetry. apply Permutation_length, RowSort.Permuted_sort. Qed.

End DeleteFacts.

Section ButtonClaims.
Context {Item : Type}.

Lemma selectAndSetCurrent_after_deselectAll (view : QListView) (row : Z) :
  selectAndSetCurrentByIndex (deselectAllAndUnsetCurrent view) row
  = mkView [row] row (scrollBarValue view) (messageBoxes view).
Proof. reflexivity. Qed.

(** C4: with at least one item selected, multi-delete sorts the selected rows
    ascending and removes them in that order with the running offset, which
    leaves exactly the items at the other rows; afterwards the item at the
    row of the first deleted one is selected and current if that row is still
    within the shrunk list, otherwise the new last item (nothing when the
    list is empty). Deleting rows 1 and 3 of A, B, C, D, E leaves A, C, E with
    row 1, which holds C, selected. *)
Theorem C4_multi_delete (view : QListView) (model : list Item)
  (Hsome : selectedRows view <> [])
  (Hvalid : validRows (selectedRows view) model)
  (Hint : size model <= INT_MAX) :
  let rows := selectedRows view in
  let deleted := fst (deleteSelectedItems view model) in
  let view' := fst (snd (deleteSelectedItems view model)) in
  let model' := snd (snd (deleteSelectedItems view model)) in
  let first := hd 0 deleted in
  deleted = RowSort.sort rows
  /\ StronglySorted Z.lt deleted
  /\ (In first rows /\ forall row, In row rows -> first <= row)
  /\ model' = deleteLoop deleted 0 model
  /\ model' = withoutRows rows 0 model
  /\ size model' = size model - Z.of_nat (List.length rows)
  /\ messageBoxes view' = messageBoxes view
  /\ (if first <? size model'
      then selectedRows view' = [first] /\ currentRow view' = first
      else if 0 <? size model'
      then selectedRows view' = [size model' - 1] /\ currentRow view' = size model' - 1
      else selectedRows view' = [] /\ currentRow view' = -1)
  /\ deleteSelectedItems (mkView [3; 1] 3 0 []) ["A"; "B"; "C"; "D"; "E"]%string
     = ([1; 3], (mkView [1] 1 0 [], ["A"; "C"; "E"]%string))
  /\ at_ ["A"; "C"; "E"]%string 1 = Some "C"%string.
Proof.
  intros rows deleted view' model' first.
  destruct Hvalid as [Hnd Hrange]. fold rows in Hnd, Hrange, Hsome.
  assert (Hempty : isEmpty rows = false) by (destruct rows; [congruence | reflexivity]).
  assert (Hdel : deleted = RowSort.sort rows).
  { unfold deleted, deleteSelectedItems. fold rows. now rewrite Hempty. }
  assert (Hasc : StronglySorted Z.lt deleted).
  { rewrite Hdel. now apply sort_strictly_ascending. }
  assert (Hall : Forall (fun s => 0 <= s /\ s - 0 < size model /\ s <= INT_MAX) deleted).
  { rewrite Hdel. rewrite Forall_forall in *. intros s Hs.
    apply (proj1 (sort_In _ _)) in Hs. specialize (Hrange s Hs). cbv beta in Hrange. lia. }
  destruct (deleteLoop_spec deleted 0 model (Z.le_refl 0) Hasc Hall) as [Hloop Hsize].
  assert (Hmodel : model' = deleteLoop deleted 0 model).
  { unfold model', deleteSelectedItems. fold rows. rewrite Hempty. cbn [snd].
    now rewrite Hdel. }
  assert (Hlen : List.length deleted = List.length rows).
  { rewrite Hdel. apply sort_length. }
  assert (Hfirst : exists rest, deleted = first :: rest).
  { unfold first. destruct deleted as [|a rest] eqn:E.
    - destruct rows; [congruence | discriminate].
    - now exists rest. }
  destruct Hfirst as [rest Hrest].
  assert (Hview : view' =
    if first <? size model' then mkView [first] first (scrollBarValue view) (messageBoxes view)
    else if negb (isEmpty model')
         then mkView [first - 1] (first - 1) (scrollBarValue view) (messageBoxes view)
         else deselectAllAndUnsetCurrent view).
  { unfold view', first, deleted, model', deleteSelectedItems. fold rows.
    rewrite Hempty. cbn [fst snd]. rewrite !selectAndSetCurrent_after_deselectAll.
    reflexivity. }
  split; [exact Hdel|]. split; [exact Hasc|]. split.
  { split.
    - apply sort_In. rewrite <- Hdel, Hrest. now left.
    - intros row Hrow. apply (proj2 (sort_In _ _)) in Hrow. rewrite <- Hdel, Hrest in Hrow.
      rewrite Hrest in Hasc. inversion Hasc as [|? ? _ Hlt]; subst.
      destruct Hrow as [<-|Hrow]; [lia|].
      rewrite Forall_forall in Hlt. specialize (Hlt _ Hrow). lia. }
  split; [exact Hmodel|]. split.
  { rewrite Hmodel, Hloop. apply withoutRows_ext. intros k _.
    rewrite Hdel. rewrite in_map_iff. split.
    - intros [s [Hs Hin]]. apply (proj1 (sort_In _ _)) in Hin. now replace k with s by lia.
    - intros Hin. exists k. split; [lia | now apply sort_In]. }
  assert (Hsize' : size model' = size model - Z.of_nat (List.length rows)).
  { rewrite Hmodel, Hsize, Hlen. reflexivity. }
  split; [exact Hsize'|].
  split.
  { rewrite Hview. destruct (first <? size model'); [reflexivity|].
    destruct (negb (isEmpty model')); reflexivity. }
  split.
  { rewrite Hview. destruct (first <? size model') eqn:E1; [now split|].
    rewrite isEmpty_size. destruct (0 <? size model') eqn:E2.
    - assert ((size model' =? 0) = false) as -> by lia. cbn [negb selectedRows currentRow].
      assert (Hfit : first + Z.of_nat (List.length deleted) <= size model).
      { rewrite Hrest. apply ascending_rows_fit.
        - now rewrite <- Hrest.
        - rewrite <- Hrest. rewrite Forall_forall in *. intros r Hr.
          specialize (Hall r Hr). cbv beta in Hall. lia. }
      rewrite Hlen in Hfit.
      assert (first = size model') as -> by lia. now split.
    - pose proof (size_nonneg model').
      assert ((size model' =? 0) = true) as -> by lia. now split. }
  split; reflexivity.
Qed.

End ButtonClaims.

Lemma C4_multi_delete_witness :
  snd (snd (deleteSelectedItems (mkView [3; 1] 3 0 []) ["A"; "B"; "C"; "D"; "E"]%string))
  = withoutRows [3; 1] 0 ["A"; "B"; "C"; "D"; "E"]%string.
Proof.
  assert (Hvalid : validRows [3; 1] ["A"; "B"; "C"; "D"; "E"]%string).
  { split.
    - repeat constructor; cbn; lia.
    - repeat constructor; cbn; lia. }
  apply (C4_multi_delete (mkView [3; 1] 3 0 []) ["A"; "B"; "C"; "D"; "E"]%string).
  - discriminate.
  - exact Hvalid.
  - vm_compute. discriminate.
Defined.

Section MoveClaims.
Context {Item : Type}.

(** The item moved one row up is found one row higher. *)
Lemma at_move_up (l : list Item) : forall s,
  1 <= s < size l -> at_ (move l s (s - 1)) (s - 1) = at_ l s.
Proof.
  induction l as [|x l IH]; intros s Hs.
  - rewrite size_nil in Hs. lia.
  - rewrite size_cons in Hs. destruct (Z.eq_dec s 1) as [->|Hne].
    + destruct l as [|y l]; [rewrite size_nil in Hs; lia|]. reflexivity.
    + rewrite move_cons_pos by lia. rewrite !at_cons_pos by lia.
      replace (s - 1 - 1) with ((s - 1) - 1) by lia. apply IH. lia.
Qed.

Lemma moveUpSelectedItem_inner (view : QListView) (model : list Item) (s : Z) :
  selectedRows view = [s] -> 1 <= s ->
  moveUpSelectedItem view model
  = (s, (mkView [s - 1]
           (if currentRow view >=? 1 then currentRow view - 1 else 0)
           (scrollBarValue view) (messageBoxes view),
         move model s (s - 1))).
Proof.
  intros Hsel Hs. unfold moveUpSelectedItem, getSelectedItemIndex. rewrite Hsel.
  assert ((s <? 0) = false) as -> by lia.
  assert ((s =? 0) = false) as -> by lia.
  unfold getCurrentItemIndex, unsetCurrentItem, deselectItemByIndex,
    selectAndSetCurrentByIndex, selectItemByIndex, isSelectedIndex, setCurrentItemByIndex.
  cbn [selectedRows currentRow scrollBarValue messageBoxes]. rewrite Hsel.
  cbn [filter]. rewrite Z.eqb_refl. cbn [negb existsb app].
  cbn [selectedRows currentRow scrollBarValue messageBoxes].
  destruct (currentRow view >=? 1); reflexivity.
Qed.

Lemma moveDownSelectedItem_inner (view : QListView) (model : list Item) (s : Z) :
  selectedRows view = [s] -> 0 <= s < size model - 1 ->
  moveDownSelectedItem view model
  = (s, (mkView [s + 1]
           (if currentRow view <? size model - 1 then currentRow view + 1
            else size model - 1)
           (scrollBarValue view) (messageBoxes view),
         move model s (s + 1))).
Proof.
  intros Hsel Hs. unfold moveDownSelectedItem, getSelectedItemIndex. rewrite Hsel.
  assert ((s <? 0) = false) as -> by lia.
  assert ((s =? size model - 1) = false) as -> by lia.
  unfold getCurrentItemIndex, unsetCurrentItem, deselectItemByIndex,
    selectAndSetCurrentByIndex, selectItemByIndex, isSelectedIndex, setCurrentItemByIndex.
  cbn [selectedRows currentRow scrollBarValue messageBoxes]. rewrite Hsel.
  cbn [filter]. rewrite Z.eqb_refl. cbn [negb existsb app].
  cbn [selectedRows currentRow scrollBarValue messageBoxes].
  rewrite size_move. destruct (currentRow view <? size model - 1); reflexivity.
Qed.

(** C7 (amended): when exactly one item is selected, it is not the first one
    and the current item is not the first one either (as when the current
    item is the selected one), moveUpSelectedItem followed by
    moveDownSelectedItem acts on the same item both times and restores the
    order of the list, the selection and the current item. *)
Theorem C7_move_up_then_down (view : QListView) (model : list Item) (s : Z)
  (Hsel : selectedRows view = [s])
  (Hs : 1 <= s < size model)
  (Hcur : 1 <= currentRow view < size model) :
  let up := snd (moveUpSelectedItem view model) in
  let down := snd (moveDownSelectedItem (fst up) (snd up)) in
  selectedRows (fst up) = [s - 1]
  /\ at_ (snd up) (s - 1) = at_ model s
  /\ down = (view, model)
  /\ at_ (snd down) (currentRow (fst down)) = at_ model (currentRow view).
Proof.
  intros up down.
  assert (Hup : up = (mkView [s - 1] (currentRow view - 1)
                        (scrollBarValue view) (messageBoxes view),
                      move model s (s - 1))).
  { unfold up. rewrite (moveUpSelectedItem_inner view model s Hsel) by lia.
    cbn [snd]. assert ((currentRow view >=? 1) = true) as -> by lia. reflexivity. }
  assert (Hdown : down = (view, model)).
  { unfold down. rewrite Hup. cbn [fst snd].
    rewrite (moveDownSelectedItem_inner _ _ (s - 1)).
    - cbn [snd currentRow scrollBarValue messageBoxes]. rewrite size_move.
      assert ((currentRow view - 1 <? size model - 1) = true) as -> by lia.
      replace (s - 1 + 1) with s by lia.
      replace (currentRow view - 1 + 1) with (currentRow view) by lia.
      rewrite move_up_then_down by lia.
      destruct view as [rows cur scroll boxes]. cbn in Hsel |- *. now rewrite Hsel.
    - reflexivity.
    - rewrite size_move. lia. }
  split; [now rewrite Hup|]. split.
  - rewrite Hup. cbn [snd]. now apply at_move_up.
  - split; [exact Hdown|]. now rewrite Hdown.
Qed.

End MoveClaims.

Lemma C7_move_up_then_down_witness :
  snd (moveDownSelectedItem
         (fst (snd (moveUpSelectedItem (mkView [2] 2 0 []) ["A"; "B"; "C"]%string)))
         (snd (snd (moveUpSelectedItem (mkView [2] 2 0 []) ["A"; "B"; "C"]%string))))
  = (mkView [2] 2 0 [], ["A"; "B"; "C"]%string).
Proof.
  apply (C7_move_up_then_down (mkView [2] 2 0 []) ["A"; "B"; "C"]%string 2).
  - reflexivity.
  - vm_compute. split; [discriminate | reflexivity].
  - vm_compute. split; [discriminate | reflexivity].
Defined.

(** C7, as worded, fails: with the first item selected moveUpSelectedItem
    does nothing and moveDownSelectedItem then moves the item down, so the
    order is not restored; and with the second item selected while the first
    one is current the order comes back but the current item does not. *)
Lemma C7_first_item_not_restored :
  (let up := snd (moveUpSelectedItem (mkView [0] 0 0 []) ["A"; "B"]%string) in
   up = (mkView [0] 0 0 [], ["A"; "B"]%string)
   /\ snd (moveDownSelectedItem (fst up) (snd up))
      = (mkView [1] 1 0 [], ["B"; "A"]%string))
  /\ (let up := snd (moveUpSelectedItem (mkView [1] 0 0 []) ["A"; "B"]%string) in
      snd (moveDownSelectedItem (fst up) (snd up))
      = (mkView [1] 1 0 [], ["A"; "B"]%string)).
Proof. repeat split. Qed.

Section FindFacts.
Context {T : Type}.
Implicit Types (l : list T) (p : T -> bool).

Lemma findSuchFrom_range l p : forall i,
  findSuchFrom i l p = -1 \/ i <= findSuchFrom i l p < i + size l.
Proof.
  induction l as [|x l IH]; intros i; [now left|].
  cbn [findSuchFrom]. rewrite size_cons. pose proof (size_nonneg l).
  destruct (p x); [right; lia|].
  destruct (IH (i + 1)) as [H1|H1]; [now left | right; lia].
Qed.

Lemma findSuchFrom_found l p : forall i r,
  0 <= i -> findSuchFrom i l p = r -> 0 <= r ->
  exists x, at_ l (r - i) = Some x /\ p x = true.
Proof.
  induction l as [|x l IH]; intros i r Hi Hr Hpos.
  - cbn in Hr. lia.
  - cbn [findSuchFrom] in Hr. destruct (p x) eqn:Hp.
    + subst r. replace (i - i) with 0 by lia. now exists x.
    + destruct (findSuchFrom_range l p (i + 1)) as [H1|H1]; [lia|].
      rewrite at_cons_pos by lia.
      replace (r - i - 1) with (r - (i + 1)) by lia.
      apply (IH (i + 1)); [lia | exact Hr | exact Hpos].
Qed.

Lemma findSuchFrom_In l p : forall i x,
  0 <= i -> In x l -> p x = true -> 0 <= findSuchFrom i l p.
Proof.
  induction l as [|y l IH]; intros i x Hi Hin Hp; [contradiction|].
  cbn [findSuchFrom]. destruct (p y) eqn:Hy; [lia|].
  destruct Hin as [->|Hin]; [congruence|].
  apply (IH (i + 1) x); [lia | assumption | assumption].
Qed.

Lemma findSuchFrom_none l p : forall i,
  (forall x, In x l -> p x = false) -> findSuchFrom i l p = -1.
Proof.
  induction l as [|y l IH]; intros i H; [reflexivity|].
  cbn [findSuchFrom]. rewrite (H y (or_introl eq_refl)).
  apply IH. intros x Hx. apply H. now right.
Qed.

Lemma findSuch_found l p r :
  findSuch l p = r -> 0 <= r -> exists x, at_ l r = Some x /\ p x = true.
Proof.
  intros Hr Hpos.
  destruct (findSuchFrom_found l p 0 r (Z.le_refl 0) Hr Hpos) as [x [Hat Hx]].
  exists x. rewrite Z.sub_0_r in Hat. now split.
Qed.

End FindFacts.

Section ReloadFacts.
Context {Item FileInfo : Type}.
Variable getID : Item -> string.
Variable makeItem : FileInfo -> Item.
Implicit Types (model : list Item) (view : QListView).

Lemma appendDesired_filter (isDesiredFile : FileInfo -> bool) (entries : list FileInfo) :
  forall model,
    appendDesired makeItem model isDesiredFile entries
    = model ++ map makeItem (filter isDesiredFile entries).
Proof.
  induction entries as [|file entries IH]; intros model; cbn [appendDesired filter].
  - now rewrite app_nil_r.
  - rewrite IH. destruct (isDesiredFile file); [|reflexivity].
    cbn [map]. now rewrite <- app_assoc.
Qed.

(** A row found for an identifier holds an item with that identifier, and
    looking its identifier up again finds the same row. *)
Lemma found_row_is_stable model itemID r :
  findSuch model (hasID getID itemID) = r -> 0 <= r ->
  idAt getID model r = itemID.
Proof.
  intros Hr Hpos. destruct (findSuch_found _ _ _ Hr Hpos) as [x [Hat Hx]].
  unfold idAt. rewrite Hat. unfold hasID in Hx. now apply String.eqb_eq in Hx.
Qed.

Lemma selectItemByIndex_rows view r :
  selectedRows (selectItemByIndex view r)
  = if existsb (Z.eqb r) (selectedRows view) then selectedRows view
    else selectedRows view ++ [r].
Proof.
  unfold selectItemByIndex, isSelectedIndex.
  destruct (existsb (Z.eqb r) (selectedRows view)); reflexivity.
Qed.

Lemma selectItemByIndex_frame view r :
  currentRow (selectItemByIndex view r) = currentRow view
  /\ scrollBarValue (selectItemByIndex view r) = scrollBarValue view
  /\ messageBoxes (selectItemByIndex view r) = messageBoxes view.
Proof.
  unfold selectItemByIndex. destruct (isSelectedIndex view r); repeat split.
Qed.

Lemma selectItemsByIDs_frame model ids : forall view,
  currentRow (selectItemsByIDs getID view model ids) = currentRow view
  /\ scrollBarValue (selectItemsByIDs getID view model ids) = scrollBarValue view
  /\ messageBoxes (selectItemsByIDs getID view model ids) = messageBoxes view.
Proof.
  induction ids as [|id ids IH]; intros view; cbn [selectItemsByIDs]; [repeat split|].
  destruct (IH (if findSuch model (hasID getID id) >=? 0
                then selectItemByIndex view (findSuch model (hasID getID id))
                else view)) as [H1 [H2 H3]].
  rewrite H1, H2, H3.
  destruct (findSuch model (hasID getID id) >=? 0); [|repeat split].
  apply selectItemByIndex_frame.
Qed.

(** What is selected after [selectItemsByIDs]: what was, and the rows found
    for the identifiers. *)
Lemma selectItemsByIDs_In model ids : forall view r,
  In r (selectedRows (selectItemsByIDs getID view model ids))
  <-> In r (selectedRows view)
      \/ exists id, In id ids /\ findSuch model (hasID getID id) = r /\ 0 <= r.
Proof.
  induction ids as [|id ids IH]; intros view r; cbn [selectItemsByIDs].
  - split; [now left | intros [H|[id [[] _]]]; exact H].
  - rewrite IH. clear IH.
    set (found := findSuch model (hasID getID id)).
    assert (Hsel : In r (selectedRows (if found >=? 0 then selectItemByIndex view found
                                       else view))
                   <-> In r (selectedRows view) \/ (found = r /\ 0 <= r)).
    { destruct (found >=? 0) eqn:E.
      - rewrite selectItemByIndex_rows.
        destruct (existsb (Z.eqb found) (selectedRows view)) eqn:Ex.
        + apply existsb_eqb_In in Ex. split; [now left|].
          intros [H|[<- _]]; assumption.
        + rewrite in_app_iff. cbn [In]. split.
          * intros [H|[H|[]]]; [now left | right; lia].
          * intros [H|[H _]]; [now left | right; now left].
      - split; [now left|]. intros [H|[H1 H2]]; [exact H | lia]. }
    rewrite Hsel. cbn [In]. split.
    + intros [[H|[H1 H2]]|[id' [Hin H]]].
      * now left.
      * right. exists id. split; [now left | now split].
      * right. exists id'. split; [now right | exact H].
    + intros [H|[id' [[->|Hin] H]]].
      * left. now left.
      * left. right. exact H.
      * right. exists id'. now split.
Qed.

Lemma selectItemsByIDs_NoDup model ids : forall view,
  NoDup (selectedRows view) -> NoDup (selectedRows (selectItemsByIDs getID view model ids)).
Proof.
  induction ids as [|id ids IH]; intros view Hnd; cbn [selectItemsByIDs]; [exact Hnd|].
  apply IH. destruct (findSuch model (hasID getID id) >=? 0); [|exact Hnd].
  rewrite selectItemByIndex_rows.
  destruct (existsb (Z.eqb _) (selectedRows view)) eqn:Ex; [exact Hnd|].
  apply existsb_eqb_false in Ex.
  rewrite <- (rev_involutive (selectedRows view ++ [_])).
  apply NoDup_rev. rewrite rev_app_distr. cbn [rev app].
  constructor; [now rewrite <- in_rev | now apply NoDup_rev].
Qed.

(** Selecting by the identifiers of stable rows selects exactly those rows,
    in their order. *)
Lemma selectItemsByIDs_stable model : forall rows view,
  NoDup (selectedRows view ++ rows) -> Forall (stableRow getID model) rows ->
  selectedRows (selectItemsByIDs getID view model (map (idAt getID model) rows))
  = selectedRows view ++ rows.
Proof.
  induction rows as [|r rows IH]; intros view Hnd Hst; cbn [map selectItemsByIDs].
  - now rewrite app_nil_r.
  - inversion Hst as [|? ? [Hpos Hfind] Hst']; subst.
    rewrite Hfind. assert ((r >=? 0) = true) as -> by lia.
    assert (Hnotin : ~ In r (selectedRows view)).
    { intros Hin. apply NoDup_remove_2 in Hnd. apply Hnd. apply in_or_app. now left. }
    assert (Hrows : selectedRows (selectItemByIndex view r) = selectedRows view ++ [r]).
    { rewrite selectItemByIndex_rows.
      apply existsb_eqb_false in Hnotin. now rewrite Hnotin. }
    rewrite IH; [rewrite Hrows | rewrite Hrows | exact Hst'].
    + now rewrite <- app_assoc.
    + now rewrite <- app_assoc.
Qed.

Lemma setCurrentItemByID_view view model itemID :
  snd (setCurrentItemByID getID view model itemID)
  = if negb (String.eqb itemID EmptyString) && (findSuch model (hasID getID itemID) >=? 0)
    then setCurrentItemByIndex view (findSuch model (hasID getID itemID))
    else view.
Proof.
  unfold setCurrentItemByID.
  destruct (negb (String.eqb itemID EmptyString)); [|reflexivity].
  destruct (findSuch model (hasID getID itemID) >=? 0); reflexivity.
Qed.

End ReloadFacts.

Section ReloadClaims.
Context {Item FileInfo : Type}.
Variable getID : Item -> string.
Variable makeItem : FileInfo -> Item.
Variable traverseDirectory : string -> bool -> FileSystemUtils.PathContext -> list FileInfo.
Variable dir : string.
Variable recursively : bool.
Variable pathContext : FileSystemUtils.PathContext.
Variable isDesiredFile : FileInfo -> bool.

Local Abbreviation reload :=
  (reload getID makeItem traverseDirectory dir recursively pathContext isDesiredFile).
Local Abbreviation scanned :=
  (scanned makeItem traverseDirectory dir recursively pathContext isDesiredFile).

Lemma reload_model (view : QListView) (model : list Item) :
  snd (reload view model) = scanned.
Proof.
  unfold reload, updateListFromDir, scanned. cbn [snd].
  now rewrite appendDesired_filter.
Qed.

Lemma reload_view (view : QListView) (model : list Item) :
  let currentItemID := getCurrentItemID getID view model in
  let selectedItemIDs := getSelectedItemIDs getID view model in
  let found := findSuch scanned (hasID getID currentItemID) in
  fst (reload view model)
  = mkView
      (selectedRows (selectItemsByIDs getID (deselectAllAndUnsetCurrent view) scanned
                       selectedItemIDs))
      (if negb (String.eqb currentItemID EmptyString) && (found >=? 0) then found else -1)
      (scrollBarValue view) (messageBoxes view).
Proof.
  intros currentItemID selectedItemIDs found.
  unfold reload, updateListFromDir. cbn [fst].
  rewrite appendDesired_filter. cbn [app]. fold scanned.
  fold currentItemID selectedItemIDs.
  rewrite setCurrentItemByID_view. fold found.
  destruct (selectItemsByIDs_frame getID scanned selectedItemIDs
              (deselectAllAndUnsetCurrent view)) as [Hc [_ Hm]].
  cbn [deselectAllAndUnsetCurrent currentRow messageBoxes] in Hc, Hm.
  destruct (negb (String.eqb currentItemID EmptyString) && (found >=? 0)).
  - cbn [setCurrentItemByIndex selectedRows currentRow messageBoxes]. now rewrite Hm.
  - now rewrite Hc, Hm.
Qed.

Lemma reload_rows_stable (view : QListView) (model : list Item) :
  NoDup (selectedRows (fst (reload view model)))
  /\ Forall (stableRow getID scanned) (selectedRows (fst (reload view model))).
Proof.
  rewrite reload_view. cbn [selectedRows]. split.
  - apply selectItemsByIDs_NoDup. constructor.
  - apply Forall_forall. intros r Hr. apply selectItemsByIDs_In in Hr.
    destruct Hr as [[]|[id [_ [Hfind Hpos]]]].
    split; [exact Hpos|].
    now rewrite (found_row_is_stable getID scanned id r Hfind Hpos).
Qed.

(** C5: reloading the list from a directory a second time, the directory
    unchanged, changes nothing: the list, the selection, the current item
    and with them the identifiers of the selected and of the current item
    are what they were after the first reload. *)
Theorem C5_reload_idempotent (view : QListView) (model : list Item) :
  let first := reload view model in
  let second := reload (fst first) (snd first) in
  second = first
  /\ snd second = snd first
  /\ getSelectedItemIDs getID (fst second) (snd second)
     = getSelectedItemIDs getID (fst first) (snd first)
  /\ getCurrentItemID getID (fst second) (snd second)
     = getCurrentItemID getID (fst first) (snd first).
Proof.
  intros first second.
  assert (Heq : second = first).
  { unfold second. apply injective_projections; [|unfold first; now rewrite !reload_model].
    destruct (reload_rows_stable view model) as [Hnd Hst]. fold first in Hnd, Hst.
    rewrite reload_view. cbn zeta.
    unfold getSelectedItemIDs, getSelectedItemIndexes.
    assert (Hmodel : snd first = scanned) by apply reload_model.
    rewrite Hmodel.
    rewrite selectItemsByIDs_stable; [|exact Hnd | exact Hst].
    cbn [deselectAllAndUnsetCurrent selectedRows app].
    assert (Hfirst : fst first = fst (reload view model)) by reflexivity.
    rewrite reload_view in Hfirst. cbn zeta in Hfirst.
    set (id0 := getCurrentItemID getID view model) in *.
    set (found := findSuch scanned (hasID getID id0)) in *.
    assert (Hcur : currentRow (fst first)
                   = if negb (String.eqb id0 EmptyString) && (found >=? 0)
                     then found else -1) by now rewrite Hfirst.
    assert (Hscroll : scrollBarValue (fst first) = scrollBarValue view)
      by now rewrite Hfirst.
    assert (Hboxes : messageBoxes (fst first) = messageBoxes view) by now rewrite Hfirst.
    unfold getCurrentItemID, getCurrentItemIndex. rewrite Hcur, Hscroll, Hboxes.
    destruct (negb (String.eqb id0 EmptyString) && (found >=? 0)) eqn:E.
    - apply andb_prop in E as [Hne Hfound].
      assert ((found >=? 0) = true) as Hge by exact Hfound. rewrite Hge.
      rewrite (found_row_is_stable getID scanned id0 found eq_refl) by lia.
      rewrite Hne. fold found. rewrite Hfound. cbn [andb].
      rewrite (surjective_pairing first) at 1.
      destruct (fst first) as [rows cur scroll boxes] eqn:Ev.
      cbn in Hcur, Hscroll, Hboxes |- *. now subst.
    - cbn [Z.geb Z.compare]. rewrite String.eqb_refl. cbn [negb andb].
      destruct (fst first) as [rows cur scroll boxes] eqn:Ev.
      cbn in Hcur, Hscroll, Hboxes |- *. now subst. }
  rewrite Heq. repeat split.
Qed.

(** A selected row of the old list whose item has an identifier that some
    scanned item has gives a selected row of the new list holding an item
    with that identifier. *)
Lemma reload_selects_present (view : QListView) (model : list Item)
  (row : Z) (item : Item) :
  In row (selectedRows view) -> at_ model row = Some item ->
  In (getID item) (map getID scanned) ->
  exists (row' : Z) (item' : Item),
    In row' (selectedRows (fst (reload view model)))
    /\ at_ scanned row' = Some item' /\ getID item' = getID item.
Proof.
  intros Hrow Hat Hpresent.
  apply in_map_iff in Hpresent as [x [Hx Hin]].
  set (row' := findSuch scanned (hasID getID (getID item))).
  assert (Hpos : 0 <= row').
  { apply (findSuchFrom_In scanned _ 0 x); [lia | exact Hin|].
    unfold hasID. now apply String.eqb_eq. }
  destruct (findSuch_found scanned _ row' eq_refl Hpos) as [item' [Hat' Hp]].
  exists row', item'. split; [|split; [exact Hat'|]].
  - rewrite reload_view. cbn [selectedRows]. apply selectItemsByIDs_In. right.
    exists (getID item). split; [|split; [reflexivity | exact Hpos]].
    unfold getSelectedItemIDs, getSelectedItemIndexes. apply in_map_iff.
    exists row. split; [|exact Hrow]. unfold idAt. now rewrite Hat.
  - unfold hasID in Hp. now apply String.eqb_eq in Hp.
Qed.

(** Every row selected after a reload is a row of the new list, and its item
    has the identifier that the old list gave for some row selected before. *)
Lemma reload_selects_only_restored (view : QListView) (model : list Item) (row' : Z) :
  In row' (selectedRows (fst (reload view model))) ->
  0 <= row' < size scanned
  /\ exists item' : Item,
       at_ scanned row' = Some item'
       /\ exists row : Z, In row (selectedRows view)
                          /\ idAt getID model row = getID item'.
Proof.
  intros Hrow'. rewrite reload_view in Hrow'. cbn [selectedRows] in Hrow'.
  apply selectItemsByIDs_In in Hrow'. destruct Hrow' as [[]|[id [Hid [Hfind Hpos]]]].
  split.
  - destruct (findSuchFrom_range scanned (hasID getID id) 0) as [H|H];
      unfold findSuch in Hfind; lia.
  - destruct (findSuch_found scanned _ row' Hfind Hpos) as [item' [Hat' Hp]].
    exists item'. split; [exact Hat'|].
    unfold getSelectedItemIDs, getSelectedItemIndexes in Hid.
    apply in_map_iff in Hid as [row [Hrow Hin]].
    exists row. split; [exact Hin|].
    unfold hasID in Hp. apply String.eqb_eq in Hp. now rewrite Hp.
Qed.

(** The row of the current item after a reload. *)
Lemma reload_current (view : QListView) (model : list Item) :
  currentRow (fst (reload view model))
  = (if negb (String.eqb (getCurrentItemID getID view model) EmptyString)
        && (findSuch scanned (hasID getID (getCurrentItemID getID view model)) >=? 0)
     then findSuch scanned (hasID getID (getCurrentItemID getID view model))
     else -1).
Proof. now rewrite reload_view. Qed.

Lemma at_some_nonneg (l : list Item) : forall (i : Z) (x : Item),
  at_ l i = Some x -> 0 <= i.
Proof.
  induction l as [|y l IH]; intros i x H; [discriminate|].
  cbn [at_] in H. destruct (i =? 0) eqn:E; [lia|].
  apply IH in H. lia.
Qed.

(** C6: when the item that was current before the reload has an identifier
    that no re-scanned entry has, the reload leaves the current row unset
    (-1, not the first row) and shows no message box, and the selection is
    restored all the same.  Every row that was selected in the old view and
    whose item has an identifier still present is answered by a selected
    row of the new list holding an item with that identifier; every row
    selected afterwards is a row of the new list whose identifier comes from
    a row selected before; no row is selected twice; and the selection
    after the reload is the same whatever row was current before. *)
Theorem C6_stale_current_unset (view : QListView) (model : list Item)
  (Hstale : forall item : Item, at_ model (currentRow view) = Some item ->
              ~ In (getID item) (map getID scanned)) :
  let after := reload view model in
  currentRow (fst after) = -1
  /\ getCurrentItemID getID (fst after) (snd after) = EmptyString
  /\ messageBoxes (fst after) = messageBoxes view
  /\ snd after = scanned
  /\ (forall (row : Z) (item : Item),
        In row (selectedRows view) -> at_ model row = Some item ->
        In (getID item) (map getID scanned) ->
        exists (row' : Z) (item' : Item),
          In row' (selectedRows (fst after))
          /\ at_ (snd after) row' = Some item' /\ getID item' = getID item)
  /\ (forall row' : Z, In row' (selectedRows (fst after)) ->
        0 <= row' < size (snd after)
        /\ exists item' : Item,
             at_ (snd after) row' = Some item'
             /\ exists row : Z, In row (selectedRows view)
                                /\ idAt getID model row = getID item')
  /\ NoDup (selectedRows (fst after))
  /\ (forall current' : Z,
        selectedRows
          (fst (reload (mkView (selectedRows view) current' (scrollBarValue view)
                          (messageBoxes view)) model))
        = selectedRows (fst after)).
Proof.
  intros after.
  assert (Hmodel : snd after = scanned) by apply reload_model.
  assert (Hcur : currentRow (fst after) = -1).
  { unfold after. rewrite reload_current.
    unfold getCurrentItemID, getCurrentItemIndex, idAt.
    destruct (currentRow view >=? 0); [|reflexivity].
    destruct (at_ model (currentRow view)) as [item|] eqn:Eat; [|reflexivity].
    assert (Hnone : findSuch scanned (hasID getID (getID item)) = -1).
    { apply findSuchFrom_none. intros x Hx. unfold hasID.
      apply String.eqb_neq. intros Heq. apply (Hstale item eq_refl).
      rewrite <- Heq. now apply in_map. }
    rewrite Hnone. now rewrite andb_false_r. }
  split; [exact Hcur|]. split.
  { unfold getCurrentItemID, getCurrentItemIndex. now rewrite Hcur. }
  split; [unfold after; now rewrite reload_view|]. split; [exact Hmodel|].
  split; [|split; [|split]].
  - intros row item Hrow Hat Hpresent. rewrite Hmodel.
    exact (reload_selects_present view model row item Hrow Hat Hpresent).
  - intros row' Hrow'. rewrite Hmodel.
    exact (reload_selects_only_restored view model row' Hrow').
  - exact (proj1 (reload_rows_stable view model)).
  - intros current'. unfold after. now rewrite !reload_view.
Qed.

End ReloadClaims.

Lemma C6_stale_current_unset_witness :
  currentRow
    (fst (reload (fun item : string => item) (fun file : string => file) threeFiles
            "wads" false (FileSystemUtils.mkPathContext "/home/u" true) (fun _ => true)
            (mkView [2; 0] 1 0 []) ["b.wad"; "x.wad"; "c.wad"]%string))
  = -1.
Proof.
  assert (Hstale : forall item : string,
            at_ ["b.wad"; "x.wad"; "c.wad"]%string 1 = Some item ->
            ~ In item ["a.wad"; "b.wad"; "c.wad"]%string).
  { intros item [= <-]. cbn. intros [H1|[H1|[H1|[]]]]; discriminate. }
  exact (proj1 (C6_stale_current_unset (fun item : string => item)
                  (fun file : string => file) threeFiles
                  "wads"%string false (FileSystemUtils.mkPathContext "/home/u" true)
                  (fun _ => true) (mkView [2; 0] 1 0 [])
                  ["b.wad"; "x.wad"; "c.wad"]%string Hstale)).
Defined.

End ListProofs.

(** ** More on the argument tokenizer *)
Module TokenizerRoundTrip.
Import QString MiscUtils TokenizerProofs.
Local Open Scope string_scope.

Lemma run_space_idle (emitted : list Argument) (rest : string) :
  run (mkLoop emitted EmptyString false false) (String SPACE rest)
  = run (mkLoop emitted EmptyString false false) rest.
Proof. reflexivity. Qed.

Lemma run_space_flush (emitted : list Argument) (pending rest : string) :
  isEmpty pending = false ->
  run (mkLoop emitted pending false false) (String SPACE rest)
  = run (mkLoop (emitted ++ [mkArgument pending false]) EmptyString false false) rest.
Proof. intros H. cbn [run]. unfold step. cbn. now rewrite H. Qed.

Lemma run_rendered (a : Argument) (rest : string) (emitted : list Argument) :
  plainArgument a = true ->
  run (mkLoop emitted EmptyString false false) (renderArgument a ++ rest)
  = if wasQuoted a
    then run (mkLoop (emitted ++ [a]) EmptyString false false) rest
    else run (mkLoop emitted (str a) false false) rest.
Proof.
  destruct a as [text quoted]. unfold plainArgument, renderArgument. cbn [str wasQuoted].
  destruct quoted; intros Hplain.
  - unfold q. cbn [append run]. unfold step at 1. cbn.
    rewrite append_assoc'. rewrite run_body by assumption.
    cbn [append run]. unfold step at 1. cbn. reflexivity.
  - apply andb_prop in Hplain as [Hw _]. now rewrite run_word by assumption.
Qed.

(** After the rendered arguments, the emitted ones and the pending text
    make up the arguments, and the loop is outside quotes. *)
Lemma run_renderArguments (l : list Argument) : forall emitted,
  forallb plainArgument l = true ->
  inQuotes (run (mkLoop emitted EmptyString false false) (renderArguments l)) = false
  /\ forall argsStr,
       finish argsStr (run (mkLoop emitted EmptyString false false) (renderArguments l))
       = (emitted ++ l)%list.
Proof.
  induction l as [|a l IH]; intros emitted Hall.
  - cbn. split; [reflexivity|]. intros _. now rewrite app_nil_r.
  - cbn [forallb] in Hall. apply andb_prop in Hall as [Ha Hl].
    unfold renderArguments. cbn [map String.concat].
    destruct l as [|b l].
    + cbn [map]. rewrite <- (append_empty_r (renderArgument a)).
      rewrite run_rendered by assumption. cbn [run].
      destruct a as [text quoted]. cbn [wasQuoted str].
      unfold plainArgument in Ha. cbn [wasQuoted str] in Ha.
      destruct quoted.
      * split; [reflexivity|]. intros argsStr. reflexivity.
      * apply andb_prop in Ha as [_ Hne]. apply negb_true_iff in Hne.
        split; [reflexivity|]. intros argsStr.
        rewrite finish_pending by assumption. reflexivity.
    + cbn [map]. rewrite run_rendered by assumption.
      fold (renderArguments (b :: l)).
      specialize (IH (emitted ++ [a])%list Hl). rewrite <- app_assoc in IH. cbn [app] in IH.
      destruct a as [text quoted]. cbn [wasQuoted str].
      unfold plainArgument in Ha. cbn [wasQuoted str] in Ha.
      destruct quoted.
      * cbn [append]. rewrite run_space_idle. exact IH.
      * apply andb_prop in Ha as [_ Hne]. apply negb_true_iff in Hne.
        cbn [append]. rewrite run_space_flush by assumption. exact IH.
Qed.

(** X1: arguments that need no escaping, written with a space between two and
    quotes around the quoted ones, are read back as they were, text and
    flag. *)
Theorem split_renderArguments (l : list Argument)
  (Hplain : forallb plainArgument l = true) :
  splitCommandLineArguments (renderArguments l) = l.
Proof.
  unfold splitCommandLineArguments, initial.
  now destruct (run_renderArguments l [] Hplain) as [_ H].
Qed.

Lemma split_renderArguments_witness :
  splitCommandLineArguments
    (renderArguments [mkArgument "-file" false; mkArgument "my mod.wad" true;
                      mkArgument EmptyString true; mkArgument "+map" false])
  = [mkArgument "-file" false; mkArgument "my mod.wad" true;
     mkArgument EmptyString true; mkArgument "+map" false].
Proof.
  exact (split_renderArguments
           [mkArgument "-file" false; mkArgument "my mod.wad" true;
            mkArgument EmptyString true; mkArgument "+map" false] eq_refl).
Defined.

Lemma run_spaces (s : string) : forall emitted,
  allChars isSpace s = true ->
  run (mkLoop emitted EmptyString false false) s = mkLoop emitted EmptyString false false.
Proof.
  induction s as [|c s IH]; intros emitted Hs; [reflexivity|].
  cbn [allChars] in Hs. apply andb_prop in Hs as [Hc Hs].
  unfold isSpace in Hc. apply Ascii.eqb_eq in Hc. subst c.
  rewrite run_space_idle. now apply IH.
Qed.

(** X3: spaces around the arguments and more than one space between them change
    nothing: an input of spaces only has no arguments, and spaces before and
    after an input are ignored when the input leaves the loop outside quotes
    and not escaped. *)
Theorem split_ignores_spaces (before after argsStr : string)
  (Hbefore : allChars isSpace before = true)
  (Hafter : allChars isSpace after = true)
  (Hclosed : inQuotes (run initial argsStr) = false)
  (Hplain : escaped (run initial argsStr) = false) :
  splitCommandLineArguments before = []
  /\ splitCommandLineArguments (before ++ argsStr ++ after)
     = splitCommandLineArguments argsStr.
Proof.
  split.
  - unfold splitCommandLineArguments, initial. now rewrite run_spaces.
  - unfold splitCommandLineArguments.
    assert (Hrun : forall s1 s2 st, run st (s1 ++ s2) = run (run st s1) s2).
    { induction s1 as [|c s1 IH]; intros s2 st; [reflexivity|]. cbn. apply IH. }
    assert (Hb : run initial before = initial) by (unfold initial; now apply run_spaces).
    rewrite !Hrun, Hb.
    destruct (run initial argsStr) as [emitted pending esc quoted] eqn:E.
    cbn in Hclosed, Hplain. subst esc quoted.
    destruct after as [|c after].
    + reflexivity.
    + cbn [allChars] in Hafter. apply andb_prop in Hafter as [Hc Hafter].
      unfold isSpace in Hc. apply Ascii.eqb_eq in Hc. subst c.
      destruct (isEmpty pending) eqn:Hp.
      * destruct pending; [|discriminate]. rewrite run_space_idle.
        now rewrite run_spaces.
      * rewrite run_space_flush by assumption. rewrite run_spaces by assumption.
        unfold finish. cbn. now rewrite Hp.
Qed.

Lemma split_ignores_spaces_witness :
  splitCommandLineArguments ("  " ++ "-iwad doom2.wad" ++ "   ")
  = splitCommandLineArguments "-iwad doom2.wad".
Proof.
  exact (proj2 (split_ignores_spaces "  " "   " "-iwad doom2.wad"
                  eq_refl eq_refl eq_refl eq_refl)).
Defined.

(** Escaped text is taken literally, in either quote mode. *)
Lemma run_escaped (special : ascii -> bool) (quoted : bool) (text rest : string) :
  (forall c, special c = false ->
     if quoted then isBodyChar c = true else isWordChar c = true) ->
  forall emitted pending,
    run (mkLoop emitted pending false quoted) (escapeChars special text ++ rest)
    = run (mkLoop emitted (pending ++ text) false quoted) rest.
Proof.
  intros Hspecial. induction text as [|c text IH]; intros emitted pending.
  - cbn. now rewrite append_empty_r.
  - cbn [escapeChars]. destruct (special c) eqn:Hc.
    + cbn [append run].
      assert (Hbs : step (mkLoop emitted pending false quoted) BACKSLASH
                    = mkLoop emitted pending true quoted) by (destruct quoted; reflexivity).
      rewrite Hbs. unfold step. cbn [escaped inQuotes args currentArg].
      rewrite IH. now rewrite push_back_append.
    + specialize (Hspecial c Hc).
      assert (Hstep : step (mkLoop emitted pending false quoted) c
                      = mkLoop emitted (push_back pending c) false quoted).
      { destruct quoted.
        - unfold isBodyChar in Hspecial. apply andb_prop in Hspecial as [Hb Hq].
          apply negb_true_iff in Hb, Hq. unfold step. cbn. now rewrite Hb, Hq.
        - unfold isWordChar, isBodyChar in Hspecial.
          apply andb_prop in Hspecial as [Hbq Hsp]. apply andb_prop in Hbq as [Hb Hq].
          apply negb_true_iff in Hb, Hq, Hsp. unfold step. cbn. now rewrite Hb, Hq, Hsp. }
      cbn [append run]. rewrite Hstep, IH. now rewrite push_back_append.
Qed.

(** X2: any text can be passed as one argument: between quotes with a backslash
    before each backslash and quote, or, if it is not empty, without quotes
    with a backslash before each backslash, quote and space. The argument
    read is the text itself, flagged as quoted in the first case only. *)
Theorem split_escaped_text (text : string) :
  splitCommandLineArguments
    (q ++ escapeChars (fun c => negb (isBodyChar c)) text ++ q)
  = [mkArgument text true]
  /\ (isEmpty text = false ->
      splitCommandLineArguments (escapeChars (fun c => negb (isWordChar c)) text)
      = [mkArgument text false]).
Proof.
  unfold splitCommandLineArguments, initial. split; [|intros Hne].
  - unfold q. cbn [append run]. unfold step at 1. cbn.
    rewrite (run_escaped _ true).
    + cbn. unfold step. cbn. reflexivity.
    + intros c Hc. now apply negb_false_iff in Hc.
  - rewrite <- (append_empty_r (escapeChars _ text)).
    rewrite (run_escaped _ false).
    + cbn [run append]. now rewrite finish_pending.
    + intros c Hc. now apply negb_false_iff in Hc.
Qed.

Lemma split_escaped_text_witness :
  splitCommandLineArguments
    (escapeChars (fun c => negb (isWordChar c)) ("say " ++ q ++ "hi" ++ q))
  = [mkArgument ("say " ++ q ++ "hi" ++ q) false].
Proof.
  exact (proj2 (split_escaped_text ("say " ++ q ++ "hi" ++ q)) eq_refl).
Defined.

End TokenizerRoundTrip.

(** ** The other functions of MiscUtils.cpp *)
Module MiscProofs.
Import QString Containers MiscUtilsOther.
Local Open Scope Z_scope.

Lemma qsize_cons (c : ascii) (s : string) : qsize (String c s) = qsize s + 1.
Proof. unfold qsize. cbn [String.length]. lia. Qed.

Lemma qsize_nonneg (s : string) : 0 <= qsize s.
Proof. unfold qsize. lia. Qed.

Lemma qsize_append (a b : string) : qsize (a ++ b)%string = qsize a + qsize b.
Proof.
  induction a as [|c a IH]; [unfold qsize; cbn; lia|].
  cbn [append]. rewrite !qsize_cons, IH. lia.
Qed.

Lemma qsize_empty : qsize EmptyString = 0.
Proof. reflexivity. Qed.

Ltac qsizes :=
  rewrite ?qsize_append, ?qsize_cons, ?qsize_empty;
  repeat match goal with
         | |- context [qsize ?s] =>
             lazymatch goal with
             | _ : 0 <= qsize s |- _ => fail
             | _ => pose proof (qsize_nonneg s)
             end
         end;
  lia.

Lemma indexOfFrom_absent (s : string) (c : ascii) (from : Z) : forall i,
  contains s c = false -> indexOfFrom i s c from = -1.
Proof.
  induction s as [|x s IH]; intros i H; [reflexivity|].
  cbn [contains] in H. apply orb_false_iff in H as [Hx Hs].
  cbn [indexOfFrom]. rewrite Hx, andb_false_r. now apply IH.
Qed.

(** A stretch without the character is passed over. *)
Lemma indexOfFrom_skip_absent (pre rest : string) (c : ascii) (from : Z) : forall i,
  contains pre c = false ->
  indexOfFrom i (pre ++ rest)%string c from = indexOfFrom (i + qsize pre) rest c from.
Proof.
  induction pre as [|x pre IH]; intros i H.
  - cbn [append]. f_equal. unfold qsize. cbn. lia.
  - cbn [contains] in H. apply orb_false_iff in H as [Hx Hs].
    cbn [append indexOfFrom]. rewrite Hx, andb_false_r.
    rewrite IH by assumption. f_equal. rewrite qsize_cons. lia.
Qed.

(** So is a stretch before the position the search starts at. *)
Lemma indexOfFrom_skip_before (pre rest : string) (c : ascii) (from : Z) : forall i,
  i + qsize pre <= from ->
  indexOfFrom i (pre ++ rest)%string c from = indexOfFrom (i + qsize pre) rest c from.
Proof.
  induction pre as [|x pre IH]; intros i H.
  - cbn [append]. f_equal. unfold qsize. cbn. lia.
  - rewrite qsize_cons in H. pose proof (qsize_nonneg pre).
    cbn [append indexOfFrom].
    assert ((from <=? i) = false) as -> by lia. cbn [andb].
    rewrite IH by lia. f_equal. rewrite qsize_cons. lia.
Qed.

Lemma indexOfFrom_head (rest : string) (c : ascii) (from i : Z) :
  from <= i -> indexOfFrom i (String c rest) c from = i.
Proof.
  intros H. cbn [indexOfFrom]. rewrite Ascii.eqb_refl.
  assert ((from <=? i) = true) as -> by lia. reflexivity.
Qed.

Lemma left_append (pre rest : string) : left (pre ++ rest)%string (qsize pre) = pre.
Proof.
  induction pre as [|x pre IH].
  - destruct rest; reflexivity.
  - cbn [append left]. rewrite qsize_cons. pose proof (qsize_nonneg pre).
    assert ((qsize pre + 1 <=? 0) = false) as -> by lia.
    replace (qsize pre + 1 - 1) with (qsize pre) by lia. now rewrite IH.
Qed.

Lemma mid_append (pre rest : string) : mid (pre ++ rest)%string (qsize pre) = rest.
Proof.
  induction pre as [|x pre IH].
  - destruct rest; reflexivity.
  - cbn [append mid]. rewrite qsize_cons. pose proof (qsize_nonneg pre).
    assert ((qsize pre + 1 <=? 0) = false) as -> by lia.
    replace (qsize pre + 1 - 1) with (qsize pre) by lia. exact IH.
Qed.

(** X4: what stands between the first starting character and the first ending
    character after it is replaced, and nothing else changes. *)
Theorem replaceStringBetween_replaces (pre middle post replaceWith : string)
  (startingChar endingChar : ascii)
  (Hpre : contains pre startingChar = false)
  (Hmiddle : contains middle endingChar = false) :
  replaceStringBetween
    (pre ++ String startingChar (middle ++ String endingChar post))%string
    startingChar endingChar replaceWith
  = (pre ++ String startingChar (replaceWith ++ String endingChar post))%string.
Proof.
  set (source := (pre ++ String startingChar (middle ++ String endingChar post))%string).
  assert (Hsize : qsize source = qsize pre + 1 + (qsize middle + (1 + qsize post))).
  { unfold source. rewrite qsize_append, qsize_cons, qsize_append, qsize_cons. lia. }
  pose proof (qsize_nonneg pre). pose proof (qsize_nonneg middle).
  pose proof (qsize_nonneg post).
  assert (Hstart : indexOf source startingChar 0 = qsize pre).
  { unfold indexOf, source. rewrite indexOfFrom_skip_absent by assumption.
    rewrite indexOfFrom_head by lia. lia. }
  assert (Hend : indexOf source endingChar (qsize pre + 1) = qsize pre + 1 + qsize middle).
  { unfold indexOf, source.
    change (pre ++ String startingChar (middle ++ String endingChar post))%string
      with (pre ++ (String startingChar EmptyString
                    ++ (middle ++ String endingChar post)))%string.
    rewrite <- TokenizerProofs.append_assoc'.
    rewrite indexOfFrom_skip_before
      by qsizes.
    rewrite indexOfFrom_skip_absent by assumption.
    rewrite indexOfFrom_head
      by qsizes.
    qsizes. }
  unfold replaceStringBetween. rewrite Hstart.
  assert ((qsize pre <? 0) = false) as -> by lia.
  assert ((qsize pre =? qsize source - 1) = false) as -> by lia.
  cbn [orb]. rewrite Hend.
  assert ((qsize pre + 1 + qsize middle <? 0) = false) as -> by lia.
  unfold replace.
  assert ((qsize pre + 1 <? 0) = false) as -> by lia.
  assert ((qsize source <? qsize pre + 1) = false) as -> by lia.
  cbn [orb].
  replace (qsize pre + 1 + qsize middle - qsize pre - 1) with (qsize middle) by lia.
  rewrite Z.max_l by lia.
  assert (Hleft : left source (qsize pre + 1) = (pre ++ String startingChar EmptyString)%string).
  { unfold source.
    change (pre ++ String startingChar (middle ++ String endingChar post))%string
      with (pre ++ (String startingChar EmptyString
                    ++ (middle ++ String endingChar post)))%string.
    rewrite <- TokenizerProofs.append_assoc'.
    replace (qsize pre + 1) with (qsize (pre ++ String startingChar EmptyString)%string)
      by qsizes.
    apply left_append. }
  assert (Hmid : mid source (qsize pre + 1 + qsize middle) = String endingChar post).
  { unfold source.
    change (pre ++ String startingChar (middle ++ String endingChar post))%string
      with (pre ++ (String startingChar EmptyString
                    ++ (middle ++ String endingChar post)))%string.
    rewrite <- !TokenizerProofs.append_assoc'.
    replace (qsize pre + 1 + qsize middle)
      with (qsize ((pre ++ String startingChar EmptyString) ++ middle)%string)
      by qsizes.
    apply mid_append. }
  rewrite Hleft, Hmid. rewrite TokenizerProofs.append_assoc'. reflexivity.
Qed.

Lemma replaceStringBetween_replaces_witness :
  replaceStringBetween "Engine (gzdoom) ready" "("%char ")"%char "zandronum"
  = "Engine (zandronum) ready"%string.
Proof.
  exact (replaceStringBetween_replaces "Engine " "gzdoom" " ready" "zandronum"
           "("%char ")"%char eq_refl eq_refl).
Defined.

(** X5: the source is returned as it is when the starting character does not
    occur in it, when it has no ending character after the first starting
    one, and in particular when the first starting character is its last
    character. *)
Theorem replaceStringBetween_unchanged (pre rest replaceWith : string)
  (startingChar endingChar : ascii)
  (Hpre : contains pre startingChar = false)
  (Hrest : contains rest endingChar = false) :
  replaceStringBetween pre startingChar endingChar replaceWith = pre
  /\ replaceStringBetween (pre ++ String startingChar rest)%string
       startingChar endingChar replaceWith
     = (pre ++ String startingChar rest)%string
  /\ replaceStringBetween (pre ++ String startingChar EmptyString)%string
       startingChar endingChar replaceWith
     = (pre ++ String startingChar EmptyString)%string.
Proof.
  pose proof (qsize_nonneg pre). pose proof (qsize_nonneg rest).
  split; [|split].
  - unfold replaceStringBetween, indexOf.
    rewrite indexOfFrom_absent by assumption. reflexivity.
  - unfold replaceStringBetween.
    assert (Hstart : indexOf (pre ++ String startingChar rest)%string startingChar 0
                     = qsize pre).
    { unfold indexOf. rewrite indexOfFrom_skip_absent by assumption.
      rewrite indexOfFrom_head by lia. lia. }
    rewrite Hstart.
    assert ((qsize pre <? 0) = false) as -> by lia. cbn [orb].
    destruct (qsize pre =? qsize (pre ++ String startingChar rest)%string - 1);
      [reflexivity|].
    assert (Hend : indexOf (pre ++ String startingChar rest)%string endingChar
                     (qsize pre + 1) = -1).
    { unfold indexOf.
      change (pre ++ String startingChar rest)%string
        with (pre ++ (String startingChar EmptyString ++ rest))%string.
      rewrite <- TokenizerProofs.append_assoc'.
      rewrite indexOfFrom_skip_before
        by qsizes.
      now apply indexOfFrom_absent. }
    rewrite Hend. reflexivity.
  - unfold replaceStringBetween.
    assert (Hstart : indexOf (pre ++ String startingChar EmptyString)%string
                       startingChar 0 = qsize pre).
    { unfold indexOf. rewrite indexOfFrom_skip_absent by assumption.
      rewrite indexOfFrom_head by lia. lia. }
    rewrite Hstart, qsize_append, qsize_cons.
    assert ((qsize pre =? qsize pre + (qsize EmptyString + 1) - 1) = true) as ->
      by qsizes.
    now rewrite orb_true_r.
Qed.

Lemma replaceStringBetween_unchanged_witness :
  replaceStringBetween "Engine (gzdoom" "("%char ")"%char "zandronum"
  = "Engine (gzdoom"%string.
Proof.
  exact (proj1 (proj2 (replaceStringBetween_unchanged "Engine " "gzdoom" "zandronum"
                         "("%char ")"%char eq_refl eq_refl))).
Defined.

Lemma to_int_small (z : Z) : - 2 ^ 31 <= z <= INT_MAX -> to_int z = z.
Proof.
  unfold to_int, INT_MAX. intros H. rewrite Z.mod_small by lia. lia.
Qed.

(** One component of the mix, with weights that do not overflow and nothing
    added, lies between the two components mixed. *)
Lemma mixComponent_between (c1 c2 weight1 weight2 : Z) :
  0 <= c1 <= 255 -> 0 <= c2 <= 255 ->
  0 <= weight1 -> 0 <= weight2 -> 0 < weight1 + weight2 ->
  255 * (weight1 + weight2) <= INT_MAX ->
  Z.min c1 c2 <= mixComponent c1 weight1 c2 weight2 (weight1 + weight2) 0 <= Z.max c1 c2.
Proof.
  intros H1 H2 Hw1 Hw2 Hsum Hmax. unfold INT_MAX in Hmax.
  assert (Hint : 2 ^ 31 - 1 = 2147483647) by reflexivity.
  unfold mixComponent.
  rewrite (to_int_small (c1 * weight1)) by (unfold INT_MAX; nia).
  rewrite (to_int_small (c2 * weight2)) by (unfold INT_MAX; nia).
  rewrite (to_int_small (c1 * weight1 + c2 * weight2)) by (unfold INT_MAX; nia).
  set (num := c1 * weight1 + c2 * weight2).
  set (sum := weight1 + weight2) in *.
  assert (Hlow : Z.min c1 c2 * sum <= num) by (unfold num, sum; nia).
  assert (Hhigh : num <= Z.max c1 c2 * sum) by (unfold num, sum; nia).
  assert (Hnum : 0 <= num) by (unfold num; nia).
  rewrite Z.quot_div_nonneg by lia.
  assert (Hq1 : Z.min c1 c2 <= num / sum).
  { apply Z.div_le_lower_bound; lia. }
  assert (Hq2 : num / sum <= Z.max c1 c2).
  { apply Z.div_le_upper_bound; lia. }
  rewrite (to_int_small (num / sum)) by (unfold INT_MAX; lia).
  rewrite Z.add_0_r. rewrite to_int_small by (unfold INT_MAX; lia). lia.
Qed.

(** X8: mixing two colours with non-negative weights, not both zero and small
    enough for [int], and adding nothing, gives a valid colour each of whose
    components lies between the two components mixed; so a colour mixed with
    itself stays what it is. *)
Theorem mixColors_between (color1 color2 addition : QColor) (weight1 weight2 : Z)
  (Hc1 : 0 <= red color1 <= 255 /\ 0 <= green color1 <= 255 /\ 0 <= blue color1 <= 255)
  (Hc2 : 0 <= red color2 <= 255 /\ 0 <= green color2 <= 255 /\ 0 <= blue color2 <= 255)
  (Hadd : red addition = 0 /\ green addition = 0 /\ blue addition = 0)
  (Hw1 : 0 <= weight1) (Hw2 : 0 <= weight2) (Hsum : 0 < weight1 + weight2)
  (Hmax : 255 * (weight1 + weight2) <= INT_MAX) :
  let mixed := mixColors color1 weight1 color2 weight2 addition in
  isValid mixed = true
  /\ Z.min (red color1) (red color2) <= red mixed <= Z.max (red color1) (red color2)
  /\ Z.min (green color1) (green color2) <= green mixed
     <= Z.max (green color1) (green color2)
  /\ Z.min (blue color1) (blue color2) <= blue mixed <= Z.max (blue color1) (blue color2).
Proof.
  destruct Hc1 as [Hr1 [Hg1 Hb1]]. destruct Hc2 as [Hr2 [Hg2 Hb2]].
  destruct Hadd as [Har [Hag Hab]].
  intros mixed. unfold mixed, mixColors. rewrite Har, Hag, Hab.
  rewrite (to_int_small (weight1 + weight2)) by (unfold INT_MAX in *; lia).
  pose proof (mixComponent_between (red color1) (red color2) weight1 weight2
                Hr1 Hr2 Hw1 Hw2 Hsum Hmax) as Hr.
  pose proof (mixComponent_between (green color1) (green color2) weight1 weight2
                Hg1 Hg2 Hw1 Hw2 Hsum Hmax) as Hg.
  pose proof (mixComponent_between (blue color1) (blue color2) weight1 weight2
                Hb1 Hb2 Hw1 Hw2 Hsum Hmax) as Hb.
  set (r := mixComponent (red color1) weight1 (red color2) weight2 (weight1 + weight2) 0) in *.
  set (g := mixComponent (green color1) weight1 (green color2) weight2
              (weight1 + weight2) 0) in *.
  set (b := mixComponent (blue color1) weight1 (blue color2) weight2
              (weight1 + weight2) 0) in *.
  unfold QColor_rgb, inColorRange.
  assert ((0 <=? r) && (r <=? 255) = true) as -> by lia.
  assert ((0 <=? g) && (g <=? 255) = true) as -> by lia.
  assert ((0 <=? b) && (b <=? 255) = true) as -> by lia.
  cbn [andb isValid red green blue]. repeat split; lia.
Qed.

Lemma mixColors_between_witness :
  mixColors (mkColor true 200 100 0) 3 (mkColor true 200 100 0) 1 invalidColor
  = mkColor true 200 100 0.
Proof.
  pose proof (mixColors_between (mkColor true 200 100 0) (mkColor true 200 100 0)
                invalidColor 3 1) as H.
  cbn [red green blue invalidColor] in H.
  assert (Hrange : 0 <= 200 <= 255 /\ 0 <= 100 <= 255 /\ 0 <= 0 <= 255) by lia.
  specialize (H Hrange Hrange (conj eq_refl (conj eq_refl eq_refl))).
  assert (H3 : 0 <= 3) by lia. assert (H1 : 0 <= 1) by lia.
  assert (H4 : 0 < 3 + 1) by lia.
  assert (Hmax : 255 * (3 + 1) <= INT_MAX) by (vm_compute; discriminate).
  specialize (H H3 H1 H4 Hmax). cbv zeta in H.
  destruct (mixColors (mkColor true 200 100 0) 3 (mkColor true 200 100 0) 1 invalidColor)
    as [v r g b].
  cbn [isValid red green blue] in H. destruct H as [Hv [Hr [Hg Hb]]].
  f_equal; [exact Hv | lia | lia | lia].
Defined.

Lemma concat_cons_joinTail (p : string) (l : list string) :
  String.concat " " (p :: l) = (p ++ joinTail l)%string.
Proof.
  destruct l; cbn [String.concat joinTail]; [|reflexivity].
  now rewrite TokenizerProofs.append_empty_r.
Qed.

Lemma writeSuffixes_rest (toUpper : string -> string) (l : list string) : forall filter,
  writeSuffixes toUpper filter false l
  = (filter ++ joinTail (filterPatterns toUpper l))%string.
Proof.
  induction l as [|x l IH]; intros filter.
  - cbn. now rewrite TokenizerProofs.append_empty_r.
  - cbn [writeSuffixes]. rewrite IH.
    unfold filterPatterns. cbn [flat_map app]. fold (filterPatterns toUpper l).
    cbn [joinTail]. rewrite concat_cons_joinTail.
    cbn [joinTail]. rewrite concat_cons_joinTail.
    rewrite !TokenizerProofs.append_assoc'. reflexivity.
Qed.

(** X9: the filter lists each suffix in its own and in its upper-case form, a
    space between two patterns and none after the opening parenthesis. *)
Theorem makeFileFilter_patterns (toUpper : string -> string) (filterName : string)
  (suffixes : list string) :
  makeFileFilter toUpper filterName suffixes
  = (filterName ++ " (" ++ String.concat " " (filterPatterns toUpper suffixes)
     ++ ");;")%string.
Proof.
  unfold makeFileFilter. cbn [append].
  destruct suffixes as [|x l].
  - cbn [writeSuffixes filterPatterns flat_map String.concat].
    rewrite !TokenizerProofs.append_assoc'. reflexivity.
  - cbn [writeSuffixes]. rewrite writeSuffixes_rest.
    unfold filterPatterns. cbn [flat_map app]. fold (filterPatterns toUpper l).
    rewrite concat_cons_joinTail. cbn [joinTail]. rewrite concat_cons_joinTail.
    rewrite !TokenizerProofs.append_assoc'. reflexivity.
Qed.

Lemma maybeShowError_effect (r : Reporter) (title message : string) :
  errorMessageDisplayed (maybeShowError r title message) = true
  /\ Z.of_nat (List.length (warnings (maybeShowError r title message)))
     = Z.of_nat (List.length (warnings r)) + (if errorMessageDisplayed r then 0 else 1)
  /\ firstn (List.length (warnings r)) (warnings (maybeShowError r title message))
     = warnings r.
Proof.
  unfold maybeShowError. destruct (errorMessageDisplayed r) eqn:E; cbn [negb].
  - rewrite E. split; [reflexivity|]. split; [lia|]. apply firstn_all.
  - cbn [errorMessageDisplayed warnings]. split; [reflexivity|]. split.
    + rewrite length_app. cbn [List.length]. lia.
    + rewrite firstn_app, Nat.sub_diag, firstn_all. cbn. now rewrite app_nil_r.
Qed.

(** X6: a path passes the check exactly when it is not empty, exists and is of
    the expected type. A path that passes leaves the reporter as it is; one
    that fails sets the flag and shows one warning if none was shown
    before, none otherwise, and keeps the earlier warnings. *)
Theorem checkPath_reports (fs : FileSystem) (capitalize : string -> string)
  (path subjectName errorPostscript : string) (expectedType : EntryType) (r : Reporter) :
  let result := checkPath fs capitalize path expectedType r subjectName errorPostscript in
  fst result = pathIsAsExpected fs path expectedType
  /\ (fst result = true -> snd result = r)
  /\ (fst result = false ->
      errorMessageDisplayed (snd result) = true
      /\ Z.of_nat (List.length (warnings (snd result)))
         = Z.of_nat (List.length (warnings r)) + (if errorMessageDisplayed r then 0 else 1)
      /\ firstn (List.length (warnings r)) (warnings (snd result)) = warnings r).
Proof.
  intros result. unfold result, checkPath, checkNonEmptyPath, checkCollision,
    pathIsAsExpected.
  destruct (QString.isEmpty path); cbn [negb andb fst snd].
  - split; [reflexivity|]. split; [discriminate|]. intros _. apply maybeShowError_effect.
  - destruct (fileExists fs path); cbn [negb andb fst snd].
    + destruct expectedType.
      * destruct (isFile fs path); cbn [negb fst snd].
        -- now repeat split.
        -- split; [reflexivity|]. split; [discriminate|]. intros _.
           apply maybeShowError_effect.
      * destruct (isDir fs path); cbn [negb fst snd].
        -- now repeat split.
        -- split; [reflexivity|]. split; [discriminate|]. intros _.
           apply maybeShowError_effect.
      * now repeat split.
    + split; [reflexivity|]. split; [discriminate|]. intros _. apply maybeShowError_effect.
Qed.

(** X7: checking several paths with one reporter shows at most one warning:
    after a failed check a further check shows none. *)
Theorem checkPath_warns_once (fs : FileSystem) (capitalize : string -> string)
  (path1 path2 subject1 subject2 postscript1 postscript2 : string)
  (type1 type2 : EntryType) (r : Reporter)
  (Hfailed : fst (checkPath fs capitalize path1 type1 r subject1 postscript1) = false) :
  let r1 := snd (checkPath fs capitalize path1 type1 r subject1 postscript1) in
  snd (checkPath fs capitalize path2 type2 r1 subject2 postscript2) = r1.
Proof.
  intros r1.
  destruct (checkPath_reports fs capitalize path1 subject1 postscript1 type1 r)
    as [_ [_ Hfail]].
  destruct (Hfail Hfailed) as [Hflag _]. fold r1 in Hflag.
  destruct (fst (checkPath fs capitalize path2 type2 r1 subject2 postscript2)) eqn:E.
  - now apply (checkPath_reports fs capitalize path2 subject2 postscript2 type2 r1).
  - unfold checkPath, checkNonEmptyPath, checkCollision, maybeShowError.
    rewrite Hflag. cbn [negb].
    destruct (QString.isEmpty path2); [reflexivity|].
    destruct (fileExists fs path2); cbn [negb]; [|reflexivity].
    destruct type2; [destruct (isFile fs path2) | destruct (isDir fs path2) |];
      reflexivity.
Qed.

Lemma checkPath_warns_once_witness :
  snd (checkPath smallFileSystem (fun s => s) "/wads" File
         (snd (checkPath smallFileSystem (fun s => s) EmptyString File
                 (mkReporter false []) "IWAD" EmptyString))
         "map pack" EmptyString)
  = snd (checkPath smallFileSystem (fun s => s) EmptyString File
           (mkReporter false []) "IWAD" EmptyString).
Proof.
  exact (checkPath_warns_once smallFileSystem (fun s => s) EmptyString "/wads"
           "IWAD" "map pack" EmptyString EmptyString File File (mkReporter false [])
           eq_refl).
Defined.

End MiscProofs.

(** ** The other functions of OSUtils.cpp *)
Module OSProofs.
Import QString Platform FileSystemUtils OSUtils OSUtilsOther.

(** X11: on Unix the fixed path always holds a directory separator, so the shell
    never looks it up on the search path; a path that holds one already, and
    every path on Windows, is left as it is, so fixing twice is fixing once. *)
Theorem fixExePath_idempotent (env : Environment) (exePath : string) :
  fixExePath env (fixExePath env exePath) = fixExePath env exePath
  /\ (isWindows env = false -> contains (fixExePath env exePath) SLASH = true)
  /\ (contains exePath SLASH = true -> fixExePath env exePath = exePath)
  /\ (isWindows env = true -> fixExePath env exePath = exePath).
Proof.
  unfold fixExePath.
  destruct (isWindows env); cbn [negb andb].
  - repeat split; intros; try reflexivity; discriminate.
  - destruct (contains exePath SLASH) eqn:E; cbn [negb].
    + rewrite E. cbn [negb]. repeat split; intros; try reflexivity; try assumption;
        discriminate.
    + cbn. repeat split; intros; try reflexivity; discriminate.
Qed.

Lemma stripPrefix_append (p s : string) : stripPrefix p (p ++ s)%string = Some s.
Proof.
  induction p as [|a p IH]; [destruct s; reflexivity|].
  cbn. now rewrite Ascii.eqb_refl.
Qed.

Lemma stripPrefix_Some (p : string) : forall s r,
  stripPrefix p s = Some r -> s = (p ++ r)%string.
Proof.
  induction p as [|a p IH]; intros s r H.
  - destruct s; cbn in H; injection H as <-; reflexivity.
  - destruct s as [|b s]; [discriminate|]. cbn in H.
    destruct (Ascii.eqb a b) eqn:E; [|discriminate].
    apply Ascii.eqb_eq in E. subst b. cbn. f_equal. now apply IH.
Qed.

Lemma spanNonSlash_spec (s : string) :
  s = (fst (spanNonSlash s) ++ snd (spanNonSlash s))%string
  /\ contains (fst (spanNonSlash s)) SLASH = false
  /\ (snd (spanNonSlash s) = EmptyString
      \/ exists t, snd (spanNonSlash s) = String SLASH t).
Proof.
  induction s as [|c s IH].
  - cbn. repeat split. now left.
  - cbn [spanNonSlash]. destruct (Ascii.eqb c SLASH) eqn:E.
    + apply Ascii.eqb_eq in E. subst c. cbn. repeat split. right. now exists s.
    + destruct (spanNonSlash s) as [name tail]. cbn [fst snd] in *.
      destruct IH as [Hs [Hname Htail]]. cbn [append contains]. rewrite E, Hname.
      repeat split; [now rewrite <- Hs | exact Htail].
Qed.

Lemma spanNonSlash_append (name rest : string) :
  contains name SLASH = false ->
  spanNonSlash (name ++ String SLASH rest)%string = (name, String SLASH rest).
Proof.
  induction name as [|c name IH]; intros H.
  - reflexivity.
  - cbn [contains] in H. apply orb_false_iff in H as [Hc Hn].
    cbn [append spanNonSlash]. rewrite Hc. now rewrite IH.
Qed.

(** X10: an executable is taken for a Flatpak application exactly when its path
    is /var/lib/flatpak/app/, a non-empty directory name, a slash and
    anything; the directory name is the application name. *)
Theorem flatpak_traits (env : Environment) (executablePath appName : string) :
  (sandboxEnv (getExecutableTraits env executablePath) = Sandbox.Flatpak
   /\ sandboxAppName (getExecutableTraits env executablePath) = appName)
  <-> (exists rest,
         executablePath
         = ("/var/lib/flatpak/app/" ++ appName ++ String SLASH rest)%string)
      /\ isEmpty appName = false /\ contains appName SLASH = false.
Proof.
  unfold getExecutableTraits. split.
  - destruct (snapRegex_hasMatch executablePath); [intros [H _]; discriminate|].
    unfold flatpakRegex_captured1.
    destruct (stripPrefix "/var/lib/flatpak/app/" executablePath) as [rest|] eqn:Hstrip;
      [|intros [H _]; discriminate].
    apply stripPrefix_Some in Hstrip.
    destruct (spanNonSlash_spec rest) as [Hrest [Hname Htail]].
    destruct (spanNonSlash rest) as [name tail]. cbn [fst snd] in *.
    destruct name as [|c name]; [intros [H _]; discriminate|].
    destruct tail as [|t tail]; [intros [H _]; discriminate|].
    destruct Htail as [Ht|[t' Ht]]; [discriminate|]. injection Ht as -> ->.
    rewrite Ascii.eqb_refl. cbn [sandboxEnv sandboxAppName]. intros [_ <-].
    split; [|split; [reflexivity | exact Hname]].
    exists t'. now rewrite Hstrip, Hrest.
  - intros [[rest ->] [Hne Hslash]].
    assert (Hsnap : snapRegex_hasMatch
                      ("/var/lib/flatpak/app/" ++ appName ++ String SLASH rest)%string
                    = false) by reflexivity.
    rewrite Hsnap. unfold flatpakRegex_captured1.
    rewrite stripPrefix_append, spanNonSlash_append by assumption.
    destruct appName as [|c appName]; [discriminate|].
    rewrite Ascii.eqb_refl. now split.
Qed.

Lemma prefix_append (p s : string) : String.prefix p (p ++ s)%string = true.
Proof.
  induction p as [|a p IH]; [destruct s; reflexivity|].
  cbn. destruct (ascii_dec a a); [exact IH | contradiction].
Qed.

(** Every path under /snap/ is taken for a Snap application named by its
    file name, and no path is taken for both a Snap and a Flatpak one. *)
Theorem snap_traits (env : Environment) (rest : string) :
  getExecutableTraits env ("/snap/" ++ rest)%string
  = mkTraits (getFileBasenameFromPath env ("/snap/" ++ rest)%string) Sandbox.Snap
      (getFileNameFromPath env ("/snap/" ++ rest)%string)
  /\ flatpakRegex_captured1 ("/snap/" ++ rest)%string = None.
Proof.
  split.
  - unfold getExecutableTraits, snapRegex_hasMatch. now rewrite prefix_append.
  - reflexivity.
Qed.

(** X12: [takeFirst] is never called on an empty list: past the early return the
    command parts hold at least one token, whatever the sandbox and the
    directories, and the command is made of exactly these parts. *)
Theorem getRunCommand_has_executable (env : Environment) (executablePath : string)
  (base : PathContext) (dirs : list string) :
  let cmdParts := cmdPartsBeforeTakeFirst env executablePath base dirs in
  cmdParts <> []
  /\ (insideOwnPackage env executablePath = false ->
      commandTokens (getRunCommand env executablePath base dirs) = cmdParts)
  /\ (insideOwnPackage env executablePath = true ->
      getRunCommand env executablePath base dirs
      = mkShellCommand (getFileNameFromPath env executablePath) [] []).
Proof.
  intros cmdParts.
  assert (Hne : cmdParts <> []).
  { unfold cmdParts, cmdPartsBeforeTakeFirst.
    destruct (sandboxEnv (getExecutableTraits env executablePath)).
    - destruct (isInSearchPath env executablePath); intros H;
        apply app_eq_nil in H as [_ H]; discriminate.
    - intros H. apply app_eq_nil in H as [_ H]. discriminate.
    - intros H. apply app_eq_nil in H as [_ H]. discriminate. }
  split; [exact Hne|]. split.
  - intros Hout. unfold insideOwnPackage in Hout.
    unfold getRunCommand, commandTokens. rewrite Hout.
    unfold cmdParts, cmdPartsBeforeTakeFirst in *.
    destruct (sandboxEnv (getExecutableTraits env executablePath)).
    + destruct (isInSearchPath env executablePath);
        destruct (FLATPAK_BUILD env); reflexivity.
    + destruct (FLATPAK_BUILD env); reflexivity.
    + destruct (grantDirs env base dirs _ []) as [parts perms]. cbn [fst] in *.
      destruct (parts ++ [sandboxAppName (getExecutableTraits env executablePath)])
        eqn:E; [contradiction|reflexivity].
  - intros Hin. unfold insideOwnPackage in Hin. unfold getRunCommand. now rewrite Hin.
Qed.

Lemma listMonitorsFrom_rest (screens : list QScreen) : forall monitorIdx monitors,
  (0 < monitorIdx)%Z ->
  listMonitorsFrom monitorIdx screens monitors
  = monitors ++ map (fun screen => mkMonitorInfo (screenName screen) (screenWidth screen)
                                     (screenHeight screen) false) screens.
Proof.
  induction screens as [|screen screens IH]; intros monitorIdx monitors Hpos;
    cbn [listMonitorsFrom map].
  - now rewrite app_nil_r.
  - rewrite IH by lia. assert ((monitorIdx =? 0)%Z = false) as -> by lia.
    now rewrite <- app_assoc.
Qed.

(** X13: there is one monitor per screen, in the order of the screens and with
    its name and size; the first one is the primary one and no other is. *)
Theorem listMonitors_primary_first (screens : list QScreen) :
  map (fun m => (name m, width m, height m)) (listMonitors screens)
  = map (fun screen => (screenName screen, screenWidth screen, screenHeight screen)) screens
  /\ map isPrimary (listMonitors screens)
     = match screens with
       | [] => []
       | _ :: rest => true :: map (fun _ => false) rest
       end.
Proof.
  unfold listMonitors. destruct screens as [|screen screens]; [now split|].
  cbn [listMonitorsFrom]. rewrite listMonitorsFrom_rest by lia.
  cbn [app map name width height isPrimary Z.eqb Z.add]. rewrite !map_map.
  cbn [name width height isPrimary]. now split.
Qed.

End OSProofs.

(** ** The other button actions *)
Module ButtonProofs.
Import Containers WidgetUtils ListProofs.
Local Open Scope Z_scope.

Section InsertDelete.
Context {Item : Type}.
Implicit Types (l model : list Item) (view : QListView).

Lemma insert_nonpos l i (x : Item) : i <= 0 -> insert l i x = x :: l.
Proof. intros H. destruct l; cbn [insert]; assert ((i <=? 0) = true) as -> by lia; reflexivity. Qed.

Lemma at_insert l (x : Item) : forall i, 0 <= i <= size l -> at_ (insert l i x) i = Some x.
Proof.
  induction l as [|y l IH]; intros i Hi.
  - rewrite (@size_nil Item) in Hi. assert (i = 0) as -> by lia. reflexivity.
  - rewrite size_cons in Hi. destruct (Z.eq_dec i 0) as [->|Hne]; [reflexivity|].
    rewrite insert_cons_pos by lia. rewrite at_cons_pos by lia. apply IH. lia.
Qed.

Lemma removeAt_insert l (x : Item) : forall i, 0 <= i <= size l -> removeAt (insert l i x) i = l.
Proof.
  induction l as [|y l IH]; intros i Hi.
  - rewrite (@size_nil Item) in Hi. assert (i = 0) as -> by lia. reflexivity.
  - rewrite size_cons in Hi. destruct (Z.eq_dec i 0) as [->|Hne]; [reflexivity|].
    rewrite insert_cons_pos by lia. rewrite removeAt_cons_pos by lia.
    f_equal. apply IH. lia.
Qed.

Lemma insert_at_size l (x : Item) : insert l (size l) x = l ++ [x].
Proof.
  induction l as [|y l IH]; [reflexivity|].
  rewrite size_cons. pose proof (size_nonneg l).
  rewrite insert_cons_pos by lia. replace (size l + 1 - 1) with (size l) by lia.
  now rewrite IH.
Qed.

Lemma size_app l1 l2 : size (l1 ++ l2) = size l1 + size l2.
Proof. unfold size. rewrite length_app. lia. Qed.

Lemma deleteSelectedItem_single view model (s : Z) :
  selectedRows view = [s] -> 0 <= s ->
  deleteSelectedItem view model
  = (s, ((if s <? size (removeAt model s)
          then mkView [s] s (scrollBarValue view) (messageBoxes view)
          else if s >? 0
               then mkView [s - 1] (s - 1) (scrollBarValue view) (messageBoxes view)
               else deselectAllAndUnsetCurrent view),
         removeAt model s)).
Proof.
  intros Hsel Hs. unfold deleteSelectedItem, getSelectedItemIndex. rewrite Hsel.
  assert ((s <? 0) = false) as -> by lia.
  rewrite !selectAndSetCurrent_after_deselectAll. reflexivity.
Qed.

(** X14: inserting an item puts it at the given row, selects it and makes it
    current; deleting the selected item right after gives the list back as
    it was, without any message box, and selects the item that took the row
    (the new last one if the row was the last, none if the list is empty). *)
Theorem insertItem_then_deleteSelectedItem view model (item : Item) (index : Z)
  (Hindex : 0 <= index <= size model) :
  let inserted := insertItem view model item index in
  let deleted := deleteSelectedItem (fst inserted) (snd inserted) in
  at_ (snd inserted) index = Some item
  /\ size (snd inserted) = size model + 1
  /\ selectedRows (fst inserted) = [index]
  /\ currentRow (fst inserted) = index
  /\ fst deleted = index
  /\ snd (snd deleted) = model
  /\ messageBoxes (fst (snd deleted)) = messageBoxes view
  /\ selectedRows (fst (snd deleted))
     = (if index <? size model then [index]
        else if index >? 0 then [index - 1] else [])
  /\ currentRow (fst (snd deleted))
     = (if index <? size model then index
        else if index >? 0 then index - 1 else -1).
Proof.
  intros inserted deleted.
  assert (Hins : inserted = (mkView [index] index (scrollBarValue view) (messageBoxes view),
                             insert model index item)).
  { unfold inserted, insertItem. now rewrite selectAndSetCurrent_after_deselectAll. }
  assert (Hdel : deleted
    = (index, ((if index <? size model
                then mkView [index] index (scrollBarValue view) (messageBoxes view)
                else if index >? 0
                     then mkView [index - 1] (index - 1) (scrollBarValue view)
                            (messageBoxes view)
                     else mkView [] (-1) (scrollBarValue view) (messageBoxes view)),
               model))).
  { unfold deleted. rewrite Hins. cbn [fst snd].
    rewrite (deleteSelectedItem_single _ _ index) by (cbn; lia || reflexivity).
    rewrite removeAt_insert by lia. reflexivity. }
  rewrite Hins, Hdel. cbn [fst snd selectedRows currentRow].
  split; [now apply at_insert|]. split; [apply size_insert|].
  split; [reflexivity|]. split; [reflexivity|]. split; [reflexivity|].
  split; [reflexivity|].
  destruct (index <? size model); [now repeat split|].
  destruct (index >? 0); now repeat split.
Qed.

(** X15: appending is inserting at the row after the last one and prepending is
    inserting at row 0: the three actions agree on the list, the selection
    and the current item. *)
Theorem appendItem_prependItem_are_insertItem view model (item : Item) :
  appendItem view model item = insertItem view model item (size model)
  /\ prependItem view model item = insertItem view model item 0.
Proof.
  unfold appendItem, prependItem, insertItem. split.
  - rewrite insert_at_size, size_app. cbn [size]. f_equal. f_equal.
    unfold size. cbn [List.length]. lia.
  - now rewrite insert_nonpos by lia.
Qed.

Lemma deleteTimes_empties (n : nat) : forall model view (s : Z),
  List.length model = n -> selectedRows view = [s] -> 0 <= s < size model ->
  deleteTimes n view model
  = (mkView [] (-1) (scrollBarValue view) (messageBoxes view), []).
Proof.
  induction n as [|k IH]; intros model view s Hlen Hsel Hs.
  - unfold size in Hs. lia.
  - cbn [deleteTimes].
    rewrite (deleteSelectedItem_single view model s Hsel) by lia. cbn [snd fst].
    assert (Hsize : size (removeAt model s) = size model - 1)
      by now apply size_removeAt.
    assert (Hk : List.length (removeAt model s) = k) by (unfold size in *; lia).
    rewrite Hsize.
    destruct (s <? size model - 1) eqn:E1.
    + rewrite (IH _ (mkView [s] s (scrollBarValue view) (messageBoxes view)) s Hk eq_refl)
        by lia.
      reflexivity.
    + destruct (s >? 0) eqn:E2.
      * rewrite (IH _ (mkView [s - 1] (s - 1) (scrollBarValue view) (messageBoxes view))
                   (s - 1) Hk eq_refl) by lia.
        reflexivity.
      * assert (k = 0%nat) as -> by (unfold size in *; lia).
        destruct (removeAt model s); [reflexivity | discriminate].
Qed.

(** X16: with one item selected, clicking delete as many times as the list has
    items deletes them all: every click leaves an item selected for the
    next, no message box is shown, and in the end the list is empty and
    nothing is selected or current. A further click changes nothing and
    shows no message box either. *)
Theorem deleteSelectedItem_repeatedly view model (s : Z)
  (Hsel : selectedRows view = [s]) (Hs : 0 <= s < size model) :
  let final := deleteTimes (List.length model) view model in
  final = (mkView [] (-1) (scrollBarValue view) (messageBoxes view), [])
  /\ deleteSelectedItem (fst final) (snd final) = (-1, final).
Proof.
  intros final. unfold final.
  rewrite (deleteTimes_empties _ model view s eq_refl Hsel Hs). now split.
Qed.

End InsertDelete.

Lemma insertItem_then_deleteSelectedItem_witness :
  snd (snd (deleteSelectedItem
              (fst (insertItem (mkView [0] 0 0 []) ["A"; "B"]%string "X"%string 1))
              (snd (insertItem (mkView [0] 0 0 []) ["A"; "B"]%string "X"%string 1))))
  = ["A"; "B"]%string.
Proof.
  assert (H : 0 <= 1 <= size ["A"; "B"]%string) by (vm_compute; split; discriminate).
  exact (proj1 (proj2 (proj2 (proj2 (proj2 (proj2
           (insertItem_then_deleteSelectedItem (mkView [0] 0 0 [])
              ["A"; "B"]%string "X"%string 1 H))))))).
Defined.

Lemma deleteSelectedItem_repeatedly_witness :
  deleteTimes 3 (mkView [1] 1 0 []) ["A"; "B"; "C"]%string = (mkView [] (-1) 0 [], []).
Proof.
  assert (H : 0 <= 1 < size ["A"; "B"; "C"]%string) by (vm_compute; split; [discriminate | reflexivity]).
  exact (proj1 (deleteSelectedItem_repeatedly (mkView [1] 1 0 [])
                  ["A"; "B"; "C"]%string 1 eq_refl H)).
Defined.

Section SingleAndMulti.
Context {Item : Type}.
Implicit Types (model : list Item) (view : QListView).

(** X17: with exactly one item selected the multi-item actions do what the
    single-item ones do: deleting, moving up and moving down leave the same
    list, selection, current item and message boxes. *)
Theorem multi_actions_agree_with_single view model (s : Z)
  (Hsel : selectedRows view = [s]) (Hs : 0 <= s < size model)
  (Hint : size model <= INT_MAX) :
  snd (deleteSelectedItems view model) = snd (deleteSelectedItem view model)
  /\ snd (moveUpSelectedItems view model) = snd (moveUpSelectedItem view model)
  /\ snd (moveDownSelectedItems view model) = snd (moveDownSelectedItem view model).
Proof.
  assert (Hsort : RowSort.sort [s] = [s]) by reflexivity.
  assert (HsortD : RowSortDesc.sort [s] = [s]) by reflexivity.
  split; [|split].
  - rewrite (deleteSelectedItem_single view model s Hsel) by lia.
    unfold deleteSelectedItems. rewrite Hsel, Hsort.
    cbn [isEmpty snd hd deleteLoop].
    rewrite to_int_uint_sub by lia. rewrite Z.sub_0_r.
    rewrite !selectAndSetCurrent_after_deselectAll.
    assert (Hsize : size (removeAt model s) = size model - 1) by now apply size_removeAt.
    rewrite isEmpty_size, Hsize.
    destruct (s <? size model - 1) eqn:E1; [reflexivity|].
    destruct (s >? 0) eqn:E2.
    + assert ((size model - 1 =? 0) = false) as -> by lia. reflexivity.
    + assert ((size model - 1 =? 0) = true) as -> by lia. reflexivity.
  - unfold moveUpSelectedItems. rewrite Hsel, Hsort. cbn [isEmpty hd].
    destruct (Z.eq_dec s 0) as [->|Hne].
    + unfold moveUpSelectedItem, getSelectedItemIndex. rewrite Hsel. reflexivity.
    + rewrite (moveUpSelectedItem_inner view model s Hsel) by lia.
      assert ((s =? 0) = false) as -> by lia.
      cbn [moveUpLoop snd]. unfold getCurrentItemIndex.
      destruct (currentRow view >=? 1); reflexivity.
  - unfold moveDownSelectedItems. rewrite Hsel, HsortD. cbn [isEmpty hd].
    destruct (Z.eq_dec s (size model - 1)) as [->|Hne].
    + unfold moveDownSelectedItem, getSelectedItemIndex. rewrite Hsel.
      rewrite Z.eqb_refl. assert ((size model - 1 <? 0) = false) as -> by lia.
      reflexivity.
    + rewrite (moveDownSelectedItem_inner view model s Hsel) by lia.
      assert ((s =? size model - 1) = false) as -> by lia.
      cbn [moveDownLoop snd]. unfold getCurrentItemIndex. rewrite size_move.
      destruct (currentRow view <? size model - 1); reflexivity.
Qed.

End SingleAndMulti.

Lemma multi_actions_agree_with_single_witness :
  snd (moveUpSelectedItems (mkView [2] 2 0 []) ["A"; "B"; "C"]%string)
  = snd (moveUpSelectedItem (mkView [2] 2 0 []) ["A"; "B"; "C"]%string).
Proof.
  assert (H : 0 <= 2 < size ["A"; "B"; "C"]%string)
    by (vm_compute; split; [discriminate | reflexivity]).
  assert (Hint : size ["A"; "B"; "C"]%string <= INT_MAX) by (vm_compute; discriminate).
  exact (proj1 (proj2 (multi_actions_agree_with_single (mkView [2] 2 0 [])
                         ["A"; "B"; "C"]%string 2 eq_refl H Hint))).
Defined.

Section Clone.
Context {Item : Type}.
Variable getEditString : Item -> string.
Variable setEditString : Item -> string -> Item.
Implicit Types (model : list Item) (view : QListView).

Lemma at_app_size model (item : Item) : at_ (model ++ [item]) (size model) = Some item.
Proof.
  induction model as [|x model IH]; [reflexivity|].
  rewrite size_cons. pose proof (size_nonneg model). cbn [app].
  rewrite at_cons_pos by lia. now replace (size model + 1 - 1) with (size model) by lia.
Qed.

Lemma replaceAt_app_size model (item value : Item) :
  replaceAt (model ++ [item]) (size model) value = model ++ [value].
Proof.
  induction model as [|x model IH]; [reflexivity|].
  rewrite size_cons. pose proof (size_nonneg model). cbn [app replaceAt].
  assert ((size model + 1 =? 0) = false) as -> by lia.
  replace (size model + 1 - 1) with (size model) by lia. now rewrite IH.
Qed.

(** X18: cloning the selected item leaves every item of the list as it is and
    appends a copy whose name is the original's followed by the suffix
    - clone (after a space); the
    copy is selected and current and no message box is shown. With nothing
    selected the list stays as it is and a warning is shown, on an empty list
    too. *)
Theorem cloneSelectedItem_appends view model (s : Z) (item : Item)
  (Hsel : selectedRows view = [s]) (Hs : 0 <= s) (Hitem : at_ model s = Some item) :
  cloneSelectedItem getEditString setEditString view model
  = (s, (mkView [size model] (size model) (scrollBarValue view) (messageBoxes view),
         model ++ [setEditString item (getEditString item ++ " - clone")%string]))
  /\ forall view', selectedRows view' = [] ->
       cloneSelectedItem getEditString setEditString view' model
       = (-1, (messageBox view' "No item selected", model)).
Proof.
  split.
  - unfold cloneSelectedItem, getSelectedItemIndex. rewrite Hsel.
    assert ((s <? 0) = false) as -> by lia. rewrite Hitem.
    rewrite size_app. replace (size model + size [item] - 1) with (size model)
      by (unfold size; cbn [List.length]; lia).
    rewrite at_app_size, replaceAt_app_size.
    rewrite size_app. replace (size model + size [_] - 1) with (size model)
      by (unfold size; cbn [List.length]; lia).
    now rewrite selectAndSetCurrent_after_deselectAll.
  - intros view' Hnone. unfold cloneSelectedItem, getSelectedItemIndex.
    now rewrite Hnone.
Qed.

End Clone.

Lemma cloneSelectedItem_appends_witness :
  cloneSelectedItem (fun item : string => item) (fun _ name : string => name)
    (mkView [1] 1 0 []) ["Brutal"; "Vanilla"]%string
  = (1, (mkView [2] 2 0 [], ["Brutal"; "Vanilla"; "Vanilla - clone"]%string)).
Proof.
  exact (proj1 (cloneSelectedItem_appends (fun item : string => item)
                  (fun _ name : string => name) (mkView [1] 1 0 [])
                  ["Brutal"; "Vanilla"]%string 1 "Vanilla"%string eq_refl
                  (Z.le_0_1) eq_refl)).
Defined.

End ButtonProofs.

(** ** Selections by persistent identifier *)
Module SelectionProofs.
Import Containers WidgetUtils ListProofs.
Local Open Scope Z_scope.

Lemma ascii_compare_trans (a b c : ascii) (r : comparison) :
  Ascii.compare a b = r -> Ascii.compare b c = r -> Ascii.compare a c = r.
Proof.
  unfold Ascii.compare. intros H1 H2.
  destruct r.
  - apply N.compare_eq_iff in H1, H2. apply N.compare_eq_iff. congruence.
  - rewrite N.compare_lt_iff in *. lia.
  - rewrite N.compare_gt_iff in *. lia.
Qed.

Lemma string_compare_trans (r : comparison) : forall a b c : string,
  String.compare a b = r -> String.compare b c = r -> String.compare a c = r.
Proof.
  induction a as [|x a IH]; intros [|y b] [|z c] H1 H2; cbn in *; try congruence.
  destruct (Ascii.compare x y) eqn:Exy; destruct (Ascii.compare y z) eqn:Eyz;
    try (subst; discriminate).
  - rewrite (ascii_compare_trans _ _ _ _ Exy Eyz). now apply (IH b c).
  - apply Ascii.compare_eq_iff in Exy. subst y. rewrite Eyz. exact H2.
  - apply Ascii.compare_eq_iff in Exy. subst y. rewrite Eyz. exact H2.
  - apply Ascii.compare_eq_iff in Eyz. subst z. rewrite Exy. exact H1.
  - rewrite (ascii_compare_trans _ _ _ _ Exy Eyz). exact H1.
  - apply Ascii.compare_eq_iff in Eyz. subst z. rewrite Exy. exact H1.
  - rewrite (ascii_compare_trans _ _ _ _ Exy Eyz). exact H1.
Qed.

Lemma string_leb_trans (a b c : string) :
  String.leb a b = true -> String.leb b c = true -> String.leb a c = true.
Proof.
  unfold String.leb. intros H1 H2.
  destruct (String.compare a b) eqn:Eab; [| |discriminate];
    destruct (String.compare b c) eqn:Ebc; try discriminate.
  - now rewrite (string_compare_trans Eq a b c).
  - apply String.compare_eq_iff in Eab. subst b. now rewrite Ebc.
  - apply String.compare_eq_iff in Ebc. subst c. now rewrite Eab.
  - now rewrite (string_compare_trans Lt a b c).
Qed.

Lemma vectorsEqual_eq (v1 : list string) : forall v2,
  vectorsEqual v1 v2 = true <-> v1 = v2.
Proof.
  induction v1 as [|x v1 IH]; intros [|y v2]; cbn [vectorsEqual];
    try (split; [discriminate | congruence]); [tauto|].
  rewrite andb_true_iff, String.eqb_eq, IH. split.
  - intros [-> ->]. reflexivity.
  - intros H. injection H as -> ->. now split.
Qed.

(** Two sorted lists with the same elements are the same list. *)
Lemma sorted_permutation_unique (l1 : list string) : forall l2,
  StronglySorted (fun x y => String.leb x y = true) l1 ->
  StronglySorted (fun x y => String.leb x y = true) l2 ->
  Permutation l1 l2 -> l1 = l2.
Proof.
  induction l1 as [|a l1 IH]; intros l2 H1 H2 Hp.
  - now apply Permutation_nil in Hp.
  - destruct l2 as [|b l2]; [apply Permutation_sym, Permutation_nil in Hp; discriminate|].
    inversion H1 as [|? ? H1' Ha]; subst. inversion H2 as [|? ? H2' Hb]; subst.
    rewrite Forall_forall in Ha, Hb.
    assert (Hab : a = b).
    { assert (Hina : In a (b :: l2)) by (eapply Permutation_in; [exact Hp | now left]).
      assert (Hinb : In b (a :: l1))
        by (eapply Permutation_in; [symmetry; exact Hp | now left]).
      destruct Hina as [->|Hina]; [reflexivity|].
      destruct Hinb as [->|Hinb]; [reflexivity|].
      apply String.leb_antisym; [now apply Ha | now apply Hb]. }
    subst b. f_equal. apply IH; try assumption.
    now apply Permutation_cons_inv in Hp.
Qed.

Lemma IDSort_sorted (l : list string) :
  StronglySorted (fun x y => String.leb x y = true) (IDSort.sort l).
Proof.
  apply Sorted_StronglySorted.
  - intros x y z. apply string_leb_trans.
  - apply IDSort.Sorted_sort.
Qed.

(** X22: two selections are equal exactly when they hold the same identifiers the
    same number of times, in whatever order they were selected. *)
Theorem areSelectionsEqual_iff_permutation (selection1 selection2 : list string) :
  areSelectionsEqual selection1 selection2 = true <-> Permutation selection1 selection2.
Proof.
  unfold areSelectionsEqual. rewrite vectorsEqual_eq. split.
  - intros H.
    rewrite (IDSort.Permuted_sort selection1), H.
    symmetry. apply IDSort.Permuted_sort.
  - intros Hp. apply sorted_permutation_unique; try apply IDSort_sorted.
    rewrite <- (IDSort.Permuted_sort selection1), <- (IDSort.Permuted_sort selection2).
    exact Hp.
Qed.

Section ByID.
Context {Item : Type}.
Variable getID : Item -> string.
Implicit Types (model : list Item) (view : QListView).

Lemma findSuch_present model (itemID : string) :
  In itemID (map getID model) -> 0 <= findSuch model (hasID getID itemID).
Proof.
  intros Hin. apply in_map_iff in Hin as [x [Hx Hin]].
  apply (findSuchFrom_In model _ 0 x); [lia | exact Hin|].
  unfold hasID. now apply String.eqb_eq.
Qed.

Lemma findSuch_absent model (itemID : string) :
  ~ In itemID (map getID model) -> findSuch model (hasID getID itemID) = -1.
Proof.
  intros Hnot. apply findSuchFrom_none. intros x Hx. unfold hasID.
  apply String.eqb_neq. intros Heq. apply Hnot. rewrite <- Heq. now apply in_map.
Qed.

Lemma current_item_survives_by_ID_holds view model view' model' :
  let itemID := getCurrentItemID getID view model in
  let restored := setCurrentItemByID getID view' model' itemID in
  (itemID <> EmptyString -> In itemID (map getID model') ->
     fst restored = true
     /\ getCurrentItemID getID (snd restored) model' = itemID
     /\ selectedRows (snd restored) = selectedRows view')
  /\ (itemID = EmptyString \/ ~ In itemID (map getID model') ->
        restored = (false, view')).
Proof.
  intros itemID restored. unfold restored, setCurrentItemByID. clearbody itemID. split.
  - intros Hne Hin. apply String.eqb_neq in Hne. rewrite Hne. cbn [negb].
    pose proof (findSuch_present model' itemID Hin) as Hfound.
    assert ((findSuch model' (hasID getID itemID) >=? 0) = true) as Hge by lia.
    rewrite Hge. cbn [fst snd]. split; [reflexivity|]. split; [|reflexivity].
    unfold getCurrentItemID, getCurrentItemIndex, setCurrentItemByIndex.
    cbn [currentRow]. rewrite Hge. now apply found_row_is_stable.
  - intros [->|Hnot]; [reflexivity|].
    destruct (negb (String.eqb itemID EmptyString)); [|reflexivity].
    now rewrite findSuch_absent.
Qed.

(** X23: the identifier noted for the current item finds the item again in
    whatever the list has become, as long as an item with this identifier
    is in it: the restore succeeds and the current item has the noted
    identifier, the selection untouched. If no item has it, or the
    identifier is empty, the restore fails and changes nothing. *)
Theorem current_item_survives_by_ID view model view' model' :
  let itemID := getCurrentItemID getID view model in
  let restored := setCurrentItemByID getID view' model' itemID in
  (itemID <> EmptyString -> In itemID (map getID model') ->
     fst restored = true
     /\ getCurrentItemID getID (snd restored) model' = itemID
     /\ selectedRows (snd restored) = selectedRows view')
  /\ (itemID = EmptyString \/ ~ In itemID (map getID model') ->
        restored = (false, view')).
Proof. exact (current_item_survives_by_ID_holds view model view' model'). Qed.

(** X24: the same for a selected item: selecting by identifier selects a row that
    holds the identifier and keeps what was selected; an identifier that is
    empty or not in the list selects nothing. *)
Theorem selectItemByID_selects view model (itemID : string) :
  let selected := selectItemByID getID view model itemID in
  (itemID <> EmptyString -> In itemID (map getID model) ->
     fst selected = true
     /\ (exists row, In row (selectedRows (snd selected))
                     /\ idAt getID model row = itemID)
     /\ (forall row, In row (selectedRows view) -> In row (selectedRows (snd selected)))
     /\ currentRow (snd selected) = currentRow view)
  /\ (itemID = EmptyString \/ ~ In itemID (map getID model) ->
        selected = (false, view)).
Proof.
  intros selected. unfold selected, selectItemByID. split.
  - intros Hne Hin. apply String.eqb_neq in Hne. rewrite Hne. cbn [negb].
    pose proof (findSuch_present model itemID Hin) as Hfound.
    assert ((findSuch model (hasID getID itemID) >=? 0) = true) as -> by lia.
    cbn [fst snd]. split; [reflexivity|].
    set (found := findSuch model (hasID getID itemID)) in *.
    split; [|split].
    + exists found. split.
      * rewrite selectItemByIndex_rows.
        destruct (existsb (Z.eqb found) (selectedRows view)) eqn:E.
        -- now apply existsb_eqb_In.
        -- apply in_or_app. right. now left.
      * now apply found_row_is_stable.
    + intros row Hrow. rewrite selectItemByIndex_rows.
      destruct (existsb (Z.eqb found) (selectedRows view)); [exact Hrow|].
      apply in_or_app. now left.
    + apply selectItemByIndex_frame.
  - intros [->|Hnot]; [reflexivity|].
    destruct (negb (String.eqb itemID EmptyString)); [|reflexivity].
    now rewrite findSuch_absent.
Qed.

End ByID.

Lemma current_item_survives_by_ID_witness :
  getCurrentItemID (fun item : string => item)
    (snd (setCurrentItemByID (fun item : string => item) (mkView [] (-1) 0 [])
            ["new.wad"; "a.wad"; "b.wad"]%string
            (getCurrentItemID (fun item : string => item) (mkView [1] 1 0 [])
               ["a.wad"; "b.wad"]%string)))
    ["new.wad"; "a.wad"; "b.wad"]%string
  = getCurrentItemID (fun item : string => item) (mkView [1] 1 0 [])
      ["a.wad"; "b.wad"]%string.
Proof.
  pose proof (proj1 (current_item_survives_by_ID (fun item : string => item)
                (mkView [1] 1 0 []) ["a.wad"; "b.wad"]%string
                (mkView [] (-1) 0 []) ["new.wad"; "a.wad"; "b.wad"]%string)) as H.
  apply H.
  - discriminate.
  - cbn. tauto.
Defined.

End SelectionProofs.

(** ** Moving several items *)
Module MoveProofs.
Import Containers WidgetUtils ListProofs ButtonProofs.
Local Open Scope Z_scope.

Section Moves.
Context {Item : Type}.
Implicit Types (l model : list Item) (view : QListView) (rows : list Z).

Lemma at_cons_0 (x : Item) l : at_ (x :: l) 0 = Some x.
Proof. reflexivity. Qed.

Lemma at_cons_ne (x : Item) l k : k <> 0 -> at_ (x :: l) k = at_ l (k - 1).
Proof. intros H. cbn [at_]. assert ((k =? 0) = false) as -> by lia. reflexivity. Qed.

(** Moving an item one row up swaps it with the item above. *)
Lemma at_move_adjacent l : forall s k,
  1 <= s < size l ->
  at_ (move l s (s - 1)) k
  = if k =? s - 1 then at_ l s else if k =? s then at_ l (s - 1) else at_ l k.
Proof.
  induction l as [|x l IH]; intros s k Hs.
  - rewrite (@size_nil Item) in Hs. lia.
  - rewrite size_cons in Hs. destruct (Z.eq_dec s 1) as [->|Hne].
    + destruct l as [|y l]; [rewrite (@size_nil Item) in Hs; lia|].
      assert (Hmove : move (x :: y :: l) 1 (1 - 1) = y :: x :: l).
      { unfold move. cbn. rewrite ?insert_0. reflexivity. }
      rewrite Hmove. cbn [Z.sub Z.add Z.opp Z.pos_sub].
      destruct (Z.eq_dec k 0) as [->|Hk0]; [reflexivity|].
      assert ((k =? 0) = false) as -> by lia.
      destruct (Z.eq_dec k 1) as [->|Hk1]; [reflexivity|].
      assert ((k =? 1) = false) as -> by lia.
      rewrite !at_cons_ne by lia. reflexivity.
    + rewrite move_cons_pos by lia.
      destruct (Z.eq_dec k 0) as [->|Hk0].
      * assert ((0 =? s - 1) = false) as -> by lia.
        assert ((0 =? s) = false) as -> by lia. reflexivity.
      * rewrite at_cons_ne by lia. rewrite (IH (s - 1) (k - 1)) by lia.
        rewrite (at_cons_ne x l s) by lia. rewrite (at_cons_ne x l (s - 1)) by lia.
        rewrite (at_cons_ne x l k) by lia.
        replace (k - 1 =? s - 1 - 1) with (k =? s - 1) by lia.
        replace (k - 1 =? s - 1) with (k =? s) by lia. reflexivity.
Qed.

(** Moving the upper of two neighbours down is moving the lower one up. *)
Lemma move_down_is_move_up l : forall s,
  0 <= s < size l - 1 -> move l s (s + 1) = move l (s + 1) s.
Proof.
  induction l as [|x l IH]; intros s Hs.
  - rewrite (@size_nil Item) in Hs. lia.
  - rewrite size_cons in Hs. destruct (Z.eq_dec s 0) as [->|Hne].
    + destruct l as [|y l]; [rewrite (@size_nil Item) in Hs; lia|].
      unfold move. cbn. rewrite ?insert_0. reflexivity.
    + rewrite !move_cons_pos by lia.
      replace (s + 1 - 1) with ((s - 1) + 1) by lia. f_equal. apply IH. lia.
Qed.

Lemma removeAt_Permutation l : forall i (x : Item),
  at_ l i = Some x -> Permutation (x :: removeAt l i) l.
Proof.
  induction l as [|y l IH]; intros i x H; [discriminate|].
  cbn [at_ removeAt] in *. destruct (i =? 0).
  - injection H as ->. reflexivity.
  - rewrite perm_swap. constructor. now apply IH.
Qed.

Lemma insert_Permutation l : forall i (x : Item), Permutation (insert l i x) (x :: l).
Proof.
  induction l as [|y l IH]; intros i x; cbn [insert].
  - destruct (i <=? 0); reflexivity.
  - destruct (i <=? 0); [reflexivity|]. rewrite perm_swap. constructor. apply IH.
Qed.

Lemma move_Permutation l from to : Permutation (move l from to) l.
Proof.
  unfold move. destruct (at_ l from) eqn:E; [|reflexivity].
  rewrite insert_Permutation. now apply removeAt_Permutation.
Qed.

(** What the loops do to the view: they select the new rows and nothing
    else. *)
Lemma moveLoops_view rows : forall view model1 model2,
  NoDup (selectedRows view ++ rows) ->
  (let up := fst (moveUpLoop (map Z.succ rows) view model1) in
   selectedRows up = selectedRows view ++ rows
   /\ currentRow up = currentRow view /\ scrollBarValue up = scrollBarValue view
   /\ messageBoxes up = messageBoxes view)
  /\ (let down := fst (moveDownLoop (map Z.pred rows) view model2) in
      selectedRows down = selectedRows view ++ rows
      /\ currentRow down = currentRow view /\ scrollBarValue down = scrollBarValue view
      /\ messageBoxes down = messageBoxes view).
Proof.
  induction rows as [|r rows IH]; intros view model1 model2 Hnd.
  - cbn. rewrite app_nil_r. now repeat split.
  - cbn [map moveUpLoop moveDownLoop].
    replace (Z.succ r - 1) with r by lia. replace (Z.pred r + 1) with r by lia.
    assert (Hnotin : ~ In r (selectedRows view)).
    { intros Hin. apply NoDup_remove_2 in Hnd. apply Hnd. apply in_or_app. now left. }
    assert (Hrows : selectedRows (selectItemByIndex view r) = selectedRows view ++ [r]).
    { rewrite selectItemByIndex_rows. apply existsb_eqb_false in Hnotin.
      now rewrite Hnotin. }
    destruct (selectItemByIndex_frame view r) as [Hc [Hsc Hm]].
    assert (Hnd' : NoDup (selectedRows (selectItemByIndex view r) ++ rows))
      by (rewrite Hrows, <- app_assoc; exact Hnd).
    destruct (IH (selectItemByIndex view r) (move model1 (Z.succ r) (Z.succ r - 1))
                 (move model2 (Z.pred r) (Z.pred r + 1)) Hnd') as [Hup Hdown].
    cbv zeta in Hup, Hdown |- *.
    replace (Z.succ r - 1) with r in Hup by lia.
    replace (Z.pred r + 1) with r in Hdown by lia.
    rewrite Hrows, <- app_assoc, Hc, Hsc, Hm in Hup, Hdown. cbn [app] in Hup, Hdown.
    split; assumption.
Qed.

(** The loop that moves up, on rows that ascend: each of their items ends
    one row higher, and the list is rearranged, not changed. *)
Lemma moveUpLoop_model rows : forall view model0 model lo,
  StronglySorted Z.lt rows ->
  Forall (fun r => lo <= r /\ 1 <= r < size model) rows ->
  (forall k, lo <= k -> at_ model k = at_ model0 k) ->
  let model' := snd (moveUpLoop rows view model) in
  (forall r, In r rows -> at_ model' (r - 1) = at_ model0 r)
  /\ (forall k, k < lo - 1 -> at_ model' k = at_ model k)
  /\ Permutation model' model.
Proof.
  induction rows as [|r rows IH]; intros view model0 model lo Hsort Hall Hsame.
  - cbn. split; [contradiction|]. now split.
  - inversion Hsort as [|? ? Hsort' Hlt]; subst.
    inversion Hall as [|? ? [Hlo Hr] Hall']; subst.
    cbn [moveUpLoop]. cbv zeta.
    destruct (IH (selectItemByIndex view (r - 1)) model0 (move model r (r - 1)) (r + 1))
      as [Hmoved [Hbelow Hperm]].
    + exact Hsort'.
    + rewrite Forall_forall in *. intros t Ht. specialize (Hlt t Ht).
      destruct (Hall' t Ht) as [_ Ht']. rewrite size_move. lia.
    + intros k Hk. rewrite at_move_adjacent by lia.
      assert ((k =? r - 1) = false) as -> by lia.
      assert ((k =? r) = false) as -> by lia. apply Hsame. lia.
    + split; [|split].
      * intros t [<-|Ht]; [|now apply Hmoved].
        rewrite Hbelow by lia. rewrite at_move_adjacent by lia.
        rewrite Z.eqb_refl. apply Hsame. lia.
      * intros k Hk. rewrite Hbelow by lia. rewrite at_move_adjacent by lia.
        assert ((k =? r - 1) = false) as -> by lia.
        assert ((k =? r) = false) as -> by lia. reflexivity.
      * rewrite Hperm. apply move_Permutation.
Qed.

(** The loop that moves down, on rows that descend. *)
Lemma moveDownLoop_model rows : forall view model0 model hi,
  StronglySorted Z.gt rows ->
  Forall (fun r => r <= hi /\ 0 <= r < size model - 1) rows ->
  (forall k, k <= hi -> at_ model k = at_ model0 k) ->
  let model' := snd (moveDownLoop rows view model) in
  (forall r, In r rows -> at_ model' (r + 1) = at_ model0 r)
  /\ (forall k, hi + 1 < k -> at_ model' k = at_ model k)
  /\ Permutation model' model.
Proof.
  induction rows as [|r rows IH]; intros view model0 model hi Hsort Hall Hsame.
  - cbn. split; [contradiction|]. now split.
  - inversion Hsort as [|? ? Hsort' Hgt]; subst.
    inversion Hall as [|? ? [Hhi Hr] Hall']; subst.
    cbn [moveDownLoop]. cbv zeta.
    assert (Hswap : forall k, at_ (move model r (r + 1)) k
              = if k =? r then at_ model (r + 1)
                else if k =? r + 1 then at_ model r else at_ model k).
    { intros k. rewrite move_down_is_move_up by lia.
      replace (move model (r + 1) r) with (move model (r + 1) (r + 1 - 1))
        by (f_equal; lia).
      rewrite at_move_adjacent by lia. replace (r + 1 - 1) with r by lia.
      destruct (Z.eq_dec k r) as [->|Hkr].
      - rewrite Z.eqb_refl. reflexivity.
      - assert ((k =? r) = false) as -> by lia. reflexivity. }
    destruct (IH (selectItemByIndex view (r + 1)) model0 (move model r (r + 1)) (r - 1))
      as [Hmoved [Habove Hperm]].
    + exact Hsort'.
    + rewrite Forall_forall in *. intros t Ht. specialize (Hgt t Ht).
      destruct (Hall' t Ht) as [_ Ht']. rewrite size_move. lia.
    + intros k Hk. rewrite Hswap.
      assert ((k =? r) = false) as -> by lia.
      assert ((k =? r + 1) = false) as -> by lia. apply Hsame. lia.
    + split; [|split].
      * intros t [<-|Ht]; [|now apply Hmoved].
        rewrite Habove by lia. rewrite Hswap.
        assert ((r + 1 =? r) = false) as -> by lia.
        rewrite Z.eqb_refl. apply Hsame. lia.
      * intros k Hk. rewrite Habove by lia. rewrite Hswap.
        assert ((k =? r) = false) as -> by lia.
        assert ((k =? r + 1) = false) as -> by lia. reflexivity.
      * rewrite Hperm. apply move_Permutation.
Qed.

Lemma sortDesc_In rows k : In k (RowSortDesc.sort rows) <-> In k rows.
Proof.
  split; intros H.
  - eapply Permutation_in; [symmetry; apply RowSortDesc.Permuted_sort | exact H].
  - eapply Permutation_in; [apply RowSortDesc.Permuted_sort | exact H].
Qed.

Lemma sortDesc_strictly_descending rows :
  NoDup rows -> StronglySorted Z.gt (RowSortDesc.sort rows).
Proof.
  intros Hnd.
  assert (Hs : StronglySorted (fun x y => RowOrderDesc.leb x y = true)
                 (RowSortDesc.sort rows)).
  { apply Sorted_StronglySorted.
    - intros x y z Hxy Hyz. unfold RowOrderDesc.leb in *. lia.
    - apply RowSortDesc.Sorted_sort. }
  assert (Hnd' : NoDup (RowSortDesc.sort rows)).
  { eapply Permutation_NoDup; [apply RowSortDesc.Permuted_sort | exact Hnd]. }
  induction Hs as [|a l Hs IH Hall]; [constructor|].
  inversion Hnd' as [|? ? Hnotin Hnd'']; subst.
  constructor; [now apply IH|].
  rewrite Forall_forall in *. intros x Hx. specialize (Hall x Hx).
  unfold RowOrderDesc.leb in Hall.
  assert (a <> x) by (intros ->; contradiction). lia.
Qed.

Lemma map_succ_pred rows : map Z.succ (map (fun r => r - 1) rows) = rows.
Proof. rewrite map_map. rewrite <- (map_id rows) at 2. apply map_ext. intros; lia. Qed.

Lemma map_pred_succ rows : map Z.pred (map (fun r => r + 1) rows) = rows.
Proof. rewrite map_map. rewrite <- (map_id rows) at 2. apply map_ext. intros; lia. Qed.

Lemma NoDup_map_shift rows (d : Z) : NoDup rows -> NoDup (map (fun r => r + d) rows).
Proof.
  intros H. apply Finite.Injective_map_NoDup; [|exact H]. intros x y. lia.
Qed.

Lemma moveUpSelectedItems_moves_block_holds view model
  (Hsome : selectedRows view <> [])
  (Hvalid : validRows (selectedRows view) model) :
  let rows := selectedRows view in
  let result := moveUpSelectedItems view model in
  let view' := fst (snd result) in
  let model' := snd (snd result) in
  (In 0 rows -> result = ([], (view, model)))
  /\ (~ In 0 rows ->
      fst result = RowSort.sort rows
      /\ (forall row, In row rows -> at_ model' (row - 1) = at_ model row)
      /\ Permutation model' model
      /\ selectedRows view' = map (fun row => row - 1) (RowSort.sort rows)
      /\ currentRow view' = (if currentRow view >=? 1 then currentRow view - 1 else 0)
      /\ messageBoxes view' = messageBoxes view).
Proof.
  intros rows result view' model'.
  destruct Hvalid as [Hnd Hrange]. fold rows in Hnd, Hrange, Hsome.
  assert (Hempty : isEmpty rows = false) by (destruct rows; [congruence | reflexivity]).
  pose proof (sort_strictly_ascending rows Hnd) as Hasc.
  assert (Hhd : exists first rest, RowSort.sort rows = first :: rest).
  { destruct (RowSort.sort rows) as [|a rest] eqn:E.
    - pose proof (sort_length rows) as Hl. rewrite E in Hl.
      destruct rows; [congruence | discriminate].
    - now exists a, rest. }
  destruct Hhd as [first [rest Hsorted]].
  assert (Hmin : forall row, In row rows -> first <= row).
  { intros row Hrow. apply (proj2 (sort_In _ _)) in Hrow. rewrite Hsorted in Hrow.
    rewrite Hsorted in Hasc. inversion Hasc as [|? ? _ Hlt]; subst.
    destruct Hrow as [<-|Hrow]; [lia|].
    rewrite Forall_forall in Hlt. specialize (Hlt _ Hrow). lia. }
  assert (Hfirst : In first rows).
  { apply sort_In. rewrite Hsorted. now left. }
  rewrite Forall_forall in Hrange.
  split.
  - intros H0. unfold result, moveUpSelectedItems. fold rows.
    rewrite Hempty, Hsorted. cbn [hd].
    assert (first = 0) as -> by (specialize (Hmin 0 H0); specialize (Hrange first Hfirst); lia).
    reflexivity.
  - intros Hno0.
    assert (Hpos : forall row, In row rows -> 1 <= row < size model).
    { intros row Hrow. specialize (Hrange row Hrow). cbv beta in Hrange.
      assert (row <> 0) by (intros ->; contradiction). lia. }
    assert (Hresult : result
      = (RowSort.sort rows,
         ((if currentRow view >=? 1
           then setCurrentItemByIndex
                  (fst (moveUpLoop (RowSort.sort rows) (deselectAllAndUnsetCurrent view) model))
                  (currentRow view - 1)
           else setCurrentItemByIndex
                  (fst (moveUpLoop (RowSort.sort rows) (deselectAllAndUnsetCurrent view) model))
                  0),
          snd (moveUpLoop (RowSort.sort rows) (deselectAllAndUnsetCurrent view) model)))).
    { unfold result, moveUpSelectedItems. fold rows. rewrite Hempty, Hsorted. cbn [hd].
      assert ((first =? 0) = false) as -> by (specialize (Hpos first Hfirst); lia).
      unfold getCurrentItemIndex.
      destruct (moveUpLoop (first :: rest) (deselectAllAndUnsetCurrent view) model).
      destruct (currentRow view >=? 1); reflexivity. }
    destruct (moveUpLoop_model (RowSort.sort rows) (deselectAllAndUnsetCurrent view)
                model model 0 Hasc) as [Hmoved [_ Hperm]].
    { apply Forall_forall. intros r Hr. apply (proj1 (sort_In _ _)) in Hr.
      specialize (Hpos r Hr). lia. }
    { reflexivity. }
    pose proof (moveLoops_view (map (fun row => row - 1) (RowSort.sort rows))
                  (deselectAllAndUnsetCurrent view) model model) as Hview.
    rewrite map_succ_pred in Hview.
    destruct Hview as [[Hsel [_ [_ Hboxes]]] _].
    { cbn [deselectAllAndUnsetCurrent selectedRows app].
      apply (NoDup_map_shift _ (-1)).
      eapply Permutation_NoDup; [apply RowSort.Permuted_sort | exact Hnd]. }
    unfold view', model'. rewrite Hresult. cbn [fst snd].
    split; [reflexivity|]. split.
    { intros row Hrow. apply Hmoved. now apply sort_In. }
    split; [exact Hperm|].
    cbn [deselectAllAndUnsetCurrent selectedRows messageBoxes app] in Hsel, Hboxes.
    destruct (currentRow view >=? 1);
      cbn [setCurrentItemByIndex selectedRows currentRow messageBoxes];
      now rewrite Hsel, Hboxes.
Qed.

(** X19: moving the selected items up, none of them the first item: every
    selected item ends one row higher and stays selected, the list is
    rearranged and not changed otherwise, the current row moves up by one
    (to 0 if it was 0 or unset) and no message box is shown. With the first
    item among the selected ones nothing changes at all. *)
Theorem moveUpSelectedItems_moves_block view model
  (Hsome : selectedRows view <> [])
  (Hvalid : validRows (selectedRows view) model) :
  let rows := selectedRows view in
  let result := moveUpSelectedItems view model in
  let view' := fst (snd result) in
  let model' := snd (snd result) in
  (In 0 rows -> result = ([], (view, model)))
  /\ (~ In 0 rows ->
      fst result = RowSort.sort rows
      /\ (forall row, In row rows -> at_ model' (row - 1) = at_ model row)
      /\ Permutation model' model
      /\ selectedRows view' = map (fun row => row - 1) (RowSort.sort rows)
      /\ currentRow view' = (if currentRow view >=? 1 then currentRow view - 1 else 0)
      /\ messageBoxes view' = messageBoxes view).
Proof. exact (moveUpSelectedItems_moves_block_holds view model Hsome Hvalid). Qed.

Lemma moveDownSelectedItems_moves_block_holds view model
  (Hsome : selectedRows view <> [])
  (Hvalid : validRows (selectedRows view) model) :
  let rows := selectedRows view in
  let result := moveDownSelectedItems view model in
  let view' := fst (snd result) in
  let model' := snd (snd result) in
  (In (size model - 1) rows -> result = ([], (view, model)))
  /\ (~ In (size model - 1) rows ->
      fst result = RowSortDesc.sort rows
      /\ (forall row, In row rows -> at_ model' (row + 1) = at_ model row)
      /\ Permutation model' model
      /\ selectedRows view' = map (fun row => row + 1) (RowSortDesc.sort rows)
      /\ currentRow view'
         = (if currentRow view <? size model - 1 then currentRow view + 1
            else size model - 1)
      /\ messageBoxes view' = messageBoxes view).
Proof.
  intros rows result view' model'.
  destruct Hvalid as [Hnd Hrange]. fold rows in Hnd, Hrange, Hsome.
  assert (Hempty : isEmpty rows = false) by (destruct rows; [congruence | reflexivity]).
  pose proof (sortDesc_strictly_descending rows Hnd) as Hdesc.
  assert (Hhd : exists first rest, RowSortDesc.sort rows = first :: rest).
  { destruct (RowSortDesc.sort rows) as [|a rest] eqn:E.
    - pose proof (Permutation_length (RowSortDesc.Permuted_sort rows)) as Hl.
      rewrite E in Hl. destruct rows; [congruence | discriminate].
    - now exists a, rest. }
  destruct Hhd as [first [rest Hsorted]].
  assert (Hmax : forall row, In row rows -> row <= first).
  { intros row Hrow. apply (proj2 (sortDesc_In _ _)) in Hrow. rewrite Hsorted in Hrow.
    rewrite Hsorted in Hdesc. inversion Hdesc as [|? ? _ Hgt]; subst.
    destruct Hrow as [<-|Hrow]; [lia|].
    rewrite Forall_forall in Hgt. specialize (Hgt _ Hrow). lia. }
  assert (Hfirst : In first rows).
  { apply sortDesc_In. rewrite Hsorted. now left. }
  rewrite Forall_forall in Hrange.
  split.
  - intros Hlast. unfold result, moveDownSelectedItems. fold rows.
    rewrite Hempty, Hsorted. cbn [hd].
    assert (first = size model - 1) as ->
      by (specialize (Hmax _ Hlast); specialize (Hrange first Hfirst); cbv beta in Hrange; lia).
    now rewrite Z.eqb_refl.
  - intros Hnolast.
    assert (Hin : forall row, In row rows -> 0 <= row < size model - 1).
    { intros row Hrow. specialize (Hrange row Hrow). cbv beta in Hrange.
      assert (row <> size model - 1) by (intros ->; contradiction). lia. }
    destruct (moveDownLoop_model (RowSortDesc.sort rows) (deselectAllAndUnsetCurrent view)
                model model (size model) Hdesc) as [Hmoved [_ Hperm]].
    { apply Forall_forall. intros r Hr. apply (proj1 (sortDesc_In _ _)) in Hr.
      specialize (Hin r Hr). lia. }
    { reflexivity. }
    pose proof (moveLoops_view (map (fun row => row + 1) (RowSortDesc.sort rows))
                  (deselectAllAndUnsetCurrent view) model model) as Hview.
    rewrite map_pred_succ in Hview.
    destruct Hview as [_ [Hsel [_ [_ Hboxes]]]].
    { cbn [deselectAllAndUnsetCurrent selectedRows app].
      apply (NoDup_map_shift _ 1).
      eapply Permutation_NoDup; [apply RowSortDesc.Permuted_sort | exact Hnd]. }
    cbn [deselectAllAndUnsetCurrent selectedRows messageBoxes app] in Hsel, Hboxes.
    assert (Hsize : size (snd (moveDownLoop (RowSortDesc.sort rows)
                                 (deselectAllAndUnsetCurrent view) model)) = size model).
    { unfold size. f_equal. now apply Permutation_length. }
    assert (Hresult : result
      = (RowSortDesc.sort rows,
         ((if currentRow view <? size model - 1
           then setCurrentItemByIndex
                  (fst (moveDownLoop (RowSortDesc.sort rows)
                          (deselectAllAndUnsetCurrent view) model))
                  (currentRow view + 1)
           else setCurrentItemByIndex
                  (fst (moveDownLoop (RowSortDesc.sort rows)
                          (deselectAllAndUnsetCurrent view) model))
                  (size model - 1)),
          snd (moveDownLoop (RowSortDesc.sort rows) (deselectAllAndUnsetCurrent view)
                 model)))).
    { unfold result, moveDownSelectedItems. fold rows. rewrite Hempty.
      rewrite Hsorted in Hsize |- *. cbn [hd].
      assert ((first =? size model - 1) = false) as ->
        by (specialize (Hin first Hfirst); lia).
      unfold getCurrentItemIndex.
      destruct (moveDownLoop (first :: rest) (deselectAllAndUnsetCurrent view) model).
      cbn [fst snd] in *. rewrite Hsize.
      destruct (currentRow view <? size model - 1); reflexivity. }
    unfold view', model'. rewrite Hresult. cbn [fst snd].
    split; [reflexivity|]. split.
    { intros row Hrow. apply Hmoved. now apply sortDesc_In. }
    split; [exact Hperm|].
    destruct (currentRow view <? size model - 1);
      cbn [setCurrentItemByIndex selectedRows currentRow messageBoxes];
      now rewrite Hsel, Hboxes.
Qed.

(** X20: moving the selected items down, none of them the last item: every
    selected item ends one row lower and stays selected, the list is
    rearranged and not changed otherwise, the current row moves down by one
    (to the last row if it was the last) and no message box is shown. With
    the last item among the selected ones nothing changes at all. *)
Theorem moveDownSelectedItems_moves_block view model
  (Hsome : selectedRows view <> [])
  (Hvalid : validRows (selectedRows view) model) :
  let rows := selectedRows view in
  let result := moveDownSelectedItems view model in
  let view' := fst (snd result) in
  let model' := snd (snd result) in
  (In (size model - 1) rows -> result = ([], (view, model)))
  /\ (~ In (size model - 1) rows ->
      fst result = RowSortDesc.sort rows
      /\ (forall row, In row rows -> at_ model' (row + 1) = at_ model row)
      /\ Permutation model' model
      /\ selectedRows view' = map (fun row => row + 1) (RowSortDesc.sort rows)
      /\ currentRow view'
         = (if currentRow view <? size model - 1 then currentRow view + 1
            else size model - 1)
      /\ messageBoxes view' = messageBoxes view).
Proof. exact (moveDownSelectedItems_moves_block_holds view model Hsome Hvalid). Qed.

(** The lists the two loops leave are folds of swaps of neighbours. *)
Lemma moveUpLoop_fold rows : forall view model,
  snd (moveUpLoop rows view model)
  = fold_left (fun m s => move m s (s - 1)) rows model.
Proof. induction rows as [|r rows IH]; intros view model; [reflexivity | apply IH]. Qed.

Lemma moveDownLoop_fold rows : forall view model,
  snd (moveDownLoop rows view model)
  = fold_left (fun m s => move m s (s + 1)) rows model.
Proof. induction rows as [|r rows IH]; intros view model; [reflexivity | apply IH]. Qed.

Lemma size_fold_up rows : forall model,
  size (fold_left (fun m s => move m s (s - 1)) rows model) = size model.
Proof.
  induction rows as [|r rows IH]; intros model; [reflexivity|].
  cbn [fold_left]. now rewrite IH, size_move.
Qed.

Lemma move_up_twice l (s : Z) : 1 <= s < size l -> move (move l s (s - 1)) s (s - 1) = l.
Proof.
  intros Hs. rewrite <- (move_up_then_down l s Hs) at 2.
  replace (move (move l s (s - 1)) (s - 1) s)
    with (move (move l s (s - 1)) (s - 1) (s - 1 + 1)) by (f_equal; lia).
  rewrite move_down_is_move_up by (rewrite size_move; lia).
  f_equal. lia.
Qed.

(** Swapping back in the reverse order undoes the swaps. *)
Lemma fold_up_undone rows : forall model,
  Forall (fun s => 1 <= s < size model) rows ->
  fold_left (fun m s => move m s (s - 1)) (rows ++ rev rows) model = model.
Proof.
  induction rows as [|r rows IH]; intros model Hall; [reflexivity|].
  inversion Hall as [|? ? Hr Hall']; subst.
  cbn [rev app fold_left]. rewrite app_assoc, fold_left_app. cbn [fold_left].
  rewrite IH.
  - now apply move_up_twice.
  - rewrite Forall_forall in *. intros t Ht. rewrite size_move. now apply Hall'.
Qed.

Lemma fold_down_is_fold_up rows : forall model,
  Forall (fun s => 1 <= s < size model) rows ->
  fold_left (fun m s => move m s (s + 1)) (map (fun s => s - 1) rows) model
  = fold_left (fun m s => move m s (s - 1)) rows model.
Proof.
  induction rows as [|r rows IH]; intros model Hall; [reflexivity|].
  inversion Hall as [|? ? Hr Hall']; subst. cbn [map fold_left].
  rewrite move_down_is_move_up by lia.
  replace (r - 1 + 1) with r by lia. apply IH.
  rewrite Forall_forall in *. intros t Ht. rewrite size_move. now apply Hall'.
Qed.

Lemma descending_unique (xs : list Z) : forall ys,
  StronglySorted Z.gt xs -> StronglySorted Z.gt ys -> Permutation xs ys -> xs = ys.
Proof.
  induction xs as [|a xs IH]; intros ys H1 H2 Hp.
  - now apply Permutation_nil in Hp.
  - destruct ys as [|b ys]; [apply Permutation_sym, Permutation_nil in Hp; discriminate|].
    inversion H1 as [|? ? H1' Ha]; subst. inversion H2 as [|? ? H2' Hb]; subst.
    rewrite Forall_forall in Ha, Hb.
    assert (Hab : a = b).
    { assert (Hina : In a (b :: ys)) by (eapply Permutation_in; [exact Hp | now left]).
      assert (Hinb : In b (a :: xs))
        by (eapply Permutation_in; [symmetry; exact Hp | now left]).
      destruct Hina as [->|Hina]; [reflexivity|].
      destruct Hinb as [->|Hinb]; [reflexivity|].
      specialize (Ha _ Hinb). specialize (Hb _ Hina). lia. }
    subst b. f_equal. apply IH; try assumption.
    now apply Permutation_cons_inv in Hp.
Qed.

Lemma rev_ascending_is_descending (zs : list Z) :
  StronglySorted Z.lt zs -> StronglySorted Z.gt (rev zs).
Proof.
  induction 1 as [|a zs Hs IH Hall]; [constructor|].
  cbn [rev]. clear Hs.
  assert (Hgen : forall zs', StronglySorted Z.gt zs' -> Forall (fun x => x > a) zs' ->
                   StronglySorted Z.gt (zs' ++ [a])).
  { induction zs' as [|x zs' IH']; intros Hs' Hall'.
    - repeat constructor.
    - inversion Hs'; subst. inversion Hall'; subst. cbn [app]. constructor.
      + now apply IH'.
      + apply Forall_app. split; [assumption|]. constructor; [lia | constructor]. }
  apply Hgen; [exact IH|].
  rewrite Forall_forall in *. intros x Hx. apply in_rev in Hx. specialize (Hall x Hx). lia.
Qed.

Lemma map_pred_ascending (zs : list Z) :
  StronglySorted Z.lt zs -> StronglySorted Z.lt (map (fun s => s - 1) zs).
Proof.
  induction 1 as [|a zs Hs IH Hall]; [constructor|]. cbn [map]. constructor; [exact IH|].
  rewrite Forall_forall in *. intros x Hx. apply in_map_iff in Hx as [y [<- Hy]].
  specialize (Hall y Hy). lia.
Qed.

(** X21: moving the selected items up and then down again, none of them the
    first item and the current item not the first one either: the list is
    as it was, the same items are selected and the same item is current, and
    no message box is shown. *)
Theorem moveUpSelectedItems_then_moveDownSelectedItems view model
  (Hsome : selectedRows view <> [])
  (Hvalid : validRows (selectedRows view) model)
  (Hno0 : ~ In 0 (selectedRows view))
  (Hcur : 1 <= currentRow view < size model) :
  let up := snd (moveUpSelectedItems view model) in
  let down := snd (moveDownSelectedItems (fst up) (snd up)) in
  snd down = model
  /\ selectedRows (fst down) = rev (RowSort.sort (selectedRows view))
  /\ Permutation (selectedRows (fst down)) (selectedRows view)
  /\ currentRow (fst down) = currentRow view
  /\ messageBoxes (fst down) = messageBoxes view.
Proof.
  intros up down.
  set (rows := selectedRows view) in *.
  set (sorted := RowSort.sort rows).
  destruct (moveUpSelectedItems_moves_block_holds view model Hsome Hvalid) as [_ Hup].
  fold rows in Hup. specialize (Hup Hno0). cbv zeta in Hup. fold up sorted in Hup.
  destruct Hup as [_ [_ [Hperm [Hsel [Hcurrent Hboxes]]]]].
  destruct Hvalid as [Hnd Hrange]. fold rows in Hnd, Hrange.
  rewrite Forall_forall in Hrange.
  pose proof (sort_strictly_ascending rows Hnd) as Hasc. fold sorted in Hasc.
  assert (Hpos : Forall (fun s => 1 <= s < size model) sorted).
  { apply Forall_forall. intros r Hr. apply (proj1 (sort_In _ _)) in Hr.
    specialize (Hrange r Hr). cbv beta in Hrange.
    assert (r <> 0) by (intros ->; contradiction). lia. }
  assert (Hupmodel : snd up = fold_left (fun m s => move m s (s - 1)) sorted model).
  { unfold up, moveUpSelectedItems. fold rows sorted.
    assert (isEmpty rows = false) as -> by (destruct rows; [congruence | reflexivity]).
    destruct sorted as [|first rest] eqn:E.
    - pose proof (sort_length rows) as Hl. fold sorted in Hl. rewrite E in Hl.
      destruct rows; [congruence | discriminate].
    - cbn [hd]. inversion Hpos; subst.
      assert ((first =? 0) = false) as -> by lia.
      rewrite <- (moveUpLoop_fold (first :: rest) (deselectAllAndUnsetCurrent view) model).
      destruct (moveUpLoop (first :: rest) (deselectAllAndUnsetCurrent view) model).
      reflexivity. }
  assert (Hupsize : size (snd up) = size model) by (rewrite Hupmodel; apply size_fold_up).
  assert (Hsorted' : RowSortDesc.sort (selectedRows (fst up))
                     = rev (map (fun s => s - 1) sorted)).
  { rewrite Hsel. apply descending_unique.
    - apply sortDesc_strictly_descending. apply (NoDup_map_shift _ (-1)).
      eapply Permutation_NoDup; [apply RowSort.Permuted_sort | exact Hnd].
    - apply rev_ascending_is_descending. now apply map_pred_ascending.
    - rewrite <- RowSortDesc.Permuted_sort. apply Permutation_rev. }
  assert (Hne : sorted <> []).
  { intros E. pose proof (sort_length rows) as Hl. fold sorted in Hl. rewrite E in Hl.
    destruct rows; [congruence | discriminate]. }
  assert (Hdownres : down
    = (mkView (rev sorted) (currentRow view) (scrollBarValue (fst up)) (messageBoxes view),
       model)).
  { assert (Hvalid' : validRows (selectedRows (fst up)) (snd up)).
    { rewrite Hsel. split.
      - apply (NoDup_map_shift _ (-1)).
        eapply Permutation_NoDup; [apply RowSort.Permuted_sort | exact Hnd].
      - apply Forall_forall. intros r Hr. apply in_map_iff in Hr as [t [<- Ht]].
        rewrite Forall_forall in Hpos. specialize (Hpos t Ht). rewrite Hupsize. lia. }
    assert (Hsome' : selectedRows (fst up) <> []).
    { rewrite Hsel. destruct sorted; [congruence | discriminate]. }
    assert (Hnolast : ~ In (size (snd up) - 1) (selectedRows (fst up))).
    { rewrite Hsel, Hupsize. intros Hin. apply in_map_iff in Hin as [t [Ht Hin]].
      rewrite Forall_forall in Hpos. specialize (Hpos t Hin). lia. }
    destruct (moveDownSelectedItems_moves_block_holds (fst up) (snd up) Hsome' Hvalid')
      as [_ Hdown].
    specialize (Hdown Hnolast). cbv zeta in Hdown. fold down in Hdown.
    destruct Hdown as [_ [_ [_ [Hsel2 [Hcur2 Hboxes2]]]]].
    assert (Hmodel2 : snd down = model).
    { unfold down, moveDownSelectedItems.
      assert (isEmpty (selectedRows (fst up)) = false) as ->
        by (destruct (selectedRows (fst up)); [congruence | reflexivity]).
      rewrite Hsorted'.
      destruct (hd 0 (rev (map (fun s => s - 1) sorted)) =? size (snd up) - 1) eqn:Ehd.
      - exfalso. apply Hnolast. rewrite Hsel.
        apply Z.eqb_eq in Ehd. rewrite <- Ehd.
        apply in_rev. destruct (rev (map (fun s => s - 1) sorted)) as [|h t] eqn:Er.
        + apply (f_equal (@List.length Z)) in Er.
          rewrite length_rev, length_map in Er. destruct sorted; [congruence | discriminate].
        + now left.
      - pose proof (moveDownLoop_fold (rev (map (fun s => s - 1) sorted))
                      (deselectAllAndUnsetCurrent (fst up)) (snd up)) as Hfold.
        destruct (moveDownLoop (rev (map (fun s => s - 1) sorted))
                    (deselectAllAndUnsetCurrent (fst up)) (snd up)) as [vL mL].
        cbn [snd] in Hfold |- *. rewrite Hfold.
        rewrite <- map_rev. rewrite fold_down_is_fold_up.
        + rewrite Hupmodel, <- fold_left_app. now apply fold_up_undone.
        + rewrite Hupsize. apply Forall_forall. intros t Ht. apply in_rev in Ht.
          rewrite Forall_forall in Hpos. now apply Hpos. }
    rewrite (surjective_pairing down). rewrite Hmodel2. f_equal.
    assert (Hscroll : scrollBarValue (fst down) = scrollBarValue (fst up)).
    { unfold down, moveDownSelectedItems.
      assert (isEmpty (selectedRows (fst up)) = false) as ->
        by (destruct (selectedRows (fst up)); [congruence | reflexivity]).
      destruct (hd 0 (RowSortDesc.sort (selectedRows (fst up))) =? size (snd up) - 1);
        [reflexivity|].
      pose proof (moveLoops_view
                    (map (fun row => row + 1) (RowSortDesc.sort (selectedRows (fst up))))
                    (deselectAllAndUnsetCurrent (fst up)) (snd up) (snd up)) as Hview.
      rewrite map_pred_succ in Hview.
      destruct Hview as [_ [_ [_ [Hsc _]]]].
      { cbn [deselectAllAndUnsetCurrent selectedRows app].
        apply (NoDup_map_shift _ 1).
        eapply Permutation_NoDup; [apply RowSortDesc.Permuted_sort | apply Hvalid']. }
      destruct (moveDownLoop (RowSortDesc.sort (selectedRows (fst up)))
                  (deselectAllAndUnsetCurrent (fst up)) (snd up)) as [vL mL].
      cbn [fst snd] in *. unfold getCurrentItemIndex.
      destruct (currentRow (fst up) <? size mL - 1);
        cbn [setCurrentItemByIndex scrollBarValue]; exact Hsc. }
    destruct (fst down) as [rows2 cur2 scroll2 boxes2].
    cbn [selectedRows currentRow scrollBarValue messageBoxes] in *.
    subst scroll2. rewrite Hsel2, Hcur2, Hboxes2, Hboxes, Hcurrent, Hsorted', Hupsize.
    assert ((currentRow view >=? 1) = true) as -> by lia.
    assert ((currentRow view - 1 <? size model - 1) = true) as -> by lia.
    f_equal; [|lia].
    rewrite <- map_rev, map_map. rewrite <- (map_id (rev sorted)) at 2.
    apply map_ext. intros; lia. }
  rewrite Hdownres. cbn [fst snd selectedRows currentRow messageBoxes].
  split; [reflexivity|]. split; [reflexivity|]. split; [|now split].
  rewrite <- Permutation_rev. symmetry. apply RowSort.Permuted_sort.
Qed.

End Moves.

Lemma moveUpSelectedItems_then_moveDownSelectedItems_witness :
  snd (snd (moveDownSelectedItems
              (fst (snd (moveUpSelectedItems (mkView [3; 1] 3 0 [])
                           ["A"; "B"; "C"; "D"]%string)))
              (snd (snd (moveUpSelectedItems (mkView [3; 1] 3 0 [])
                           ["A"; "B"; "C"; "D"]%string)))))
  = ["A"; "B"; "C"; "D"]%string.
Proof.
  assert (Hvalid : validRows [3; 1] ["A"; "B"; "C"; "D"]%string).
  { split; repeat constructor; cbn; lia. }
  assert (Hno0 : ~ In 0 [3; 1]) by (cbn; lia).
  assert (Hcur : 1 <= 3 < size ["A"; "B"; "C"; "D"]%string)
    by (vm_compute; split; [discriminate | reflexivity]).
  assert (Hsome : [3; 1] <> []) by discriminate.
  exact (proj1 (moveUpSelectedItems_then_moveDownSelectedItems (mkView [3; 1] 3 0 [])
                  ["A"; "B"; "C"; "D"]%string Hsome Hvalid Hno0 Hcur)).
Defined.


Lemma moveUpSelectedItems_moves_block_witness :
  fst (moveUpSelectedItems (mkView [3; 1] 3 0 []) ["A"; "B"; "C"; "D"]%string) = [1; 3].
Proof.
  assert (Hvalid : validRows [3; 1] ["A"; "B"; "C"; "D"]%string).
  { split; repeat constructor; cbn; lia. }
  refine (proj1 (proj2 (moveUpSelectedItems_moves_block (mkView [3; 1] 3 0 [])
                          ["A"; "B"; "C"; "D"]%string _ Hvalid) _)).
  - discriminate.
  - cbn. lia.
Defined.

Lemma moveDownSelectedItems_moves_block_witness :
  fst (moveDownSelectedItems (mkView [0; 2] 2 0 []) ["A"; "B"; "C"; "D"]%string) = [2; 0].
Proof.
  assert (Hvalid : validRows [0; 2] ["A"; "B"; "C"; "D"]%string).
  { split; repeat constructor; cbn; lia. }
  refine (proj1 (proj2 (moveDownSelectedItems_moves_block (mkView [0; 2] 2 0 [])
                          ["A"; "B"; "C"; "D"]%string _ Hvalid) _)).
  - discriminate.
  - vm_compute. intros [H|[H|[]]]; discriminate.
Defined.

End MoveProofs.

(** ** Reloading lists and combo boxes from a directory *)
Module ReloadProofs.
Import Containers WidgetUtils ListProofs SelectionProofs.
Local Open Scope Z_scope.

Section ReloadRestores.
Context {Item FileInfo : Type}.
Variable getID : Item -> string.
Variable makeItem : FileInfo -> Item.
Variable traverseDirectory : string -> bool -> FileSystemUtils.PathContext -> list FileInfo.
Variable dir : string.
Variable recursively : bool.
Variable pathContext : FileSystemUtils.PathContext.
Variable isDesiredFile : FileInfo -> bool.

Local Abbreviation scanned :=
  (scanned makeItem traverseDirectory dir recursively pathContext isDesiredFile).

Lemma updateListFromDir_parts (view : QListView) (model : list Item) :
  updateListFromDir getID makeItem traverseDirectory model view dir recursively
    pathContext isDesiredFile
  = (let restoredSelection :=
       selectItemsByIDs getID (deselectAllAndUnsetCurrent view) scanned
         (getSelectedItemIDs getID view model) in
     let restoredCurrent :=
       snd (setCurrentItemByID getID restoredSelection scanned
              (getCurrentItemID getID view model)) in
     (mkView (selectedRows restoredCurrent) (currentRow restoredCurrent)
        (scrollBarValue view) (messageBoxes restoredCurrent),
      scanned)).
Proof.
  unfold updateListFromDir. rewrite appendDesired_filter. reflexivity.
Qed.

(** X25: a reload rebuilds the list from the directory, whatever it held: the
    items are those of the desired files, in the order of the traversal.
    Every row that was selected and whose item has an identifier that is
    still there is answered by a selected row of the new list holding an
    item with that identifier, and every row selected afterwards holds an
    identifier of a row selected before.  If the item that was current has a
    non-empty identifier that is still there, the current row of the new
    list holds an item with that identifier.  No message box is shown. *)
Theorem updateListFromDir_restores (view : QListView) (model : list Item) :
  let after := updateListFromDir getID makeItem traverseDirectory model view dir
                 recursively pathContext isDesiredFile in
  snd after
  = map makeItem (filter isDesiredFile (traverseDirectory dir recursively pathContext))
  /\ (forall (row : Z) (item : Item),
        In row (selectedRows view) -> at_ model row = Some item ->
        In (getID item) (map getID (snd after)) ->
        exists (row' : Z) (item' : Item),
          In row' (selectedRows (fst after))
          /\ at_ (snd after) row' = Some item' /\ getID item' = getID item)
  /\ (forall row' : Z, In row' (selectedRows (fst after)) ->
        exists item' : Item,
          at_ (snd after) row' = Some item'
          /\ exists row : Z, In row (selectedRows view)
                             /\ idAt getID model row = getID item')
  /\ (forall item : Item,
        at_ model (currentRow view) = Some item ->
        getID item <> EmptyString ->
        In (getID item) (map getID (snd after)) ->
        exists item' : Item,
          at_ (snd after) (currentRow (fst after)) = Some item'
          /\ getID item' = getID item)
  /\ messageBoxes (fst after) = messageBoxes view.
Proof.
  intros after.
  assert (Hmodel : snd after = scanned).
  { unfold after. now rewrite updateListFromDir_parts. }
  split; [exact Hmodel|]. rewrite Hmodel. split; [|split; [|split]].
  - intros row item Hrow Hat Hpresent.
    exact (reload_selects_present getID makeItem traverseDirectory dir recursively
             pathContext isDesiredFile view model row item Hrow Hat Hpresent).
  - intros row' Hrow'.
    exact (proj2 (reload_selects_only_restored getID makeItem traverseDirectory dir
                    recursively pathContext isDesiredFile view model row' Hrow')).
  - intros item Hat Hne Hpresent.
    pose proof (reload_current getID makeItem traverseDirectory dir recursively
                  pathContext isDesiredFile view model) as Hcur.
    assert (Hid : getCurrentItemID getID view model = getID item).
    { unfold getCurrentItemID, getCurrentItemIndex, idAt.
      pose proof (at_some_nonneg model _ _ Hat) as Hpos.
      assert ((currentRow view >=? 0) = true) as -> by lia.
      now rewrite Hat. }
    rewrite Hid in Hcur.
    pose proof (findSuch_present getID scanned (getID item) Hpresent) as Hfound.
    assert ((findSuch scanned (hasID getID (getID item)) >=? 0) = true) as Hge by lia.
    rewrite Hge in Hcur.
    assert (String.eqb (getID item) EmptyString = false) as Hneq
      by now apply String.eqb_neq.
    rewrite Hneq in Hcur. cbn [negb andb] in Hcur.
    destruct (findSuch_found scanned _ _ eq_refl Hfound) as [item' [Hat' Hp]].
    exists item'. split.
    + unfold after. unfold reload in Hcur. rewrite Hcur. exact Hat'.
    + unfold hasID in Hp. now apply String.eqb_eq in Hp.
  - unfold after. rewrite updateListFromDir_parts. cbv zeta. cbn [fst messageBoxes].
    rewrite setCurrentItemByID_view.
    destruct (selectItemsByIDs_frame getID scanned (getSelectedItemIDs getID view model)
                (deselectAllAndUnsetCurrent view)) as [_ [_ Hboxes]].
    destruct (_ && _); exact Hboxes.
Qed.

End ReloadRestores.

Section ComboBox.
Context {Item FileInfo : Type}.
Variable displayText : Item -> string.
Variable makeItem : FileInfo -> Item.
Variable emptyItem : Item.
Variable traverseDirectory : string -> bool -> FileSystemUtils.PathContext -> list FileInfo.

Lemma at_negative (l : list Item) : forall i, i < 0 -> at_ l i = None.
Proof.
  induction l as [|x l IH]; intros i Hi; [reflexivity|].
  cbn [at_]. assert ((i =? 0) = false) as -> by lia. apply IH. lia.
Qed.

(** X26: a reload of a combo box rebuilds its items: the empty item first if one
    is asked for, then the items of the desired files in the order of the
    traversal. The item shown stays the first one with the text shown
    before, if there is one; otherwise nothing is current and the text shown
    is empty. *)
Theorem updateComboBoxFromDir_keeps_text (model : list Item) (currentIndex : Z)
  (dir : string) (recursively includeEmptyItem : bool)
  (pathContext : FileSystemUtils.PathContext) (isDesiredFile : FileInfo -> bool) :
  let lastText := currentText displayText currentIndex model in
  let after := updateComboBoxFromDir displayText makeItem emptyItem traverseDirectory
                 model currentIndex dir recursively includeEmptyItem pathContext
                 isDesiredFile in
  snd after
  = (if includeEmptyItem then [emptyItem] else [])
    ++ map makeItem (filter isDesiredFile (traverseDirectory dir recursively pathContext))
  /\ (In lastText (map displayText (snd after)) ->
        0 <= fst after < size (snd after)
        /\ currentText displayText (fst after) (snd after) = lastText)
  /\ (~ In lastText (map displayText (snd after)) ->
        fst after = -1
        /\ currentText displayText (fst after) (snd after) = EmptyString).
Proof.
  intros lastText after. unfold after, updateComboBoxFromDir. fold lastText.
  cbn [fst snd]. rewrite appendDesired_filter. cbn [app].
  set (items := (if includeEmptyItem then [emptyItem] else [])
                ++ map makeItem
                     (filter isDesiredFile (traverseDirectory dir recursively pathContext))).
  split; [reflexivity|]. unfold findText. split.
  - intros Hin. apply in_map_iff in Hin as [x [Hx Hin]].
    assert (Hpos : 0 <= findSuch items (fun item => String.eqb (displayText item) lastText)).
    { apply (findSuchFrom_In items _ 0 x); [lia | exact Hin|]. now apply String.eqb_eq. }
    destruct (findSuch_found items _ _ eq_refl Hpos) as [y [Hat Hy]].
    split.
    + destruct (findSuchFrom_range items
                  (fun item => String.eqb (displayText item) lastText) 0) as [H|H];
        unfold findSuch in *; lia.
    + unfold currentText. rewrite Hat. now apply String.eqb_eq.
  - intros Hnot.
    assert (Hnone : findSuch items (fun item => String.eqb (displayText item) lastText)
                    = -1).
    { apply findSuchFrom_none. intros x Hx. apply String.eqb_neq. intros Heq.
      apply Hnot. rewrite <- Heq. now apply in_map. }
    rewrite Hnone. split; [reflexivity|]. unfold currentText.
    now rewrite at_negative by lia.
Qed.

End ComboBox.

End ReloadProofs.
